(** * The observable state store of [public/assets/js/core/state.js]

    A shallow embedding of the [State] class: the two fields of the
    singleton ([this.state], [this.listeners]) together with the parts
    of the JavaScript environment its methods touch (the object heap,
    [localStorage], [console.error]) form one record, [World], and every
    method is a function on it.

    Scope of the model.
    - Numbers are the integers that a double holds, plus [NaN];
      fractions, infinities and the negative zero are left out.
    - Heap objects are plain objects and arrays; arrays are dense.  The
      values a caller hands to the store are primitives and references
      to such objects: no functions, no symbols.
    - [this.state] is the list of its own data properties together with
      its prototype, which the inherited accessor [__proto__] reads and
      writes.  A read that finds no data property goes on to the
      built-in prototypes, [Array.prototype] behind an array and
      [Object.prototype] behind every object, and yields the function
      they hold under that name.
    - [localStorage] never fails.
    - A listener records that it was called and then returns or throws;
      a listener that calls back into the store is outside the model.

    After the store come the other modules of [core/]: of [utils.js]
    the functions [getQueryParams], [isValidEmail], [debounce] and
    [throttle]; of [api.js] the class [Api] without [get] and
    [uploadFile]; of [auth.js] the session of the class [Auth].  Each
    part states its own scope where it begins.  The components
    [forms.js] and [modals.js] live in the document tree and are not
    modelled. *)

From Stdlib Require Import Ascii String.
From stdpp Require Import gmap strings list fin_maps pretty.

Open Scope string_scope.
Open Scope list_scope.

(** ** Values and the heap *)

Definition loc := nat.

Inductive value : Type :=
| VUndefined
| VNull
| VBool (b : bool)
| VNumber (n : Z)
| VNaN
| VString (s : string)
| VRef (l : loc)
| VObjectPrototype.   (* the built-in object [Object.prototype] *)

#[global] Instance value_eq_dec : EqDecision value.
Proof. solve_decision. Defined.

(** A plain object is the list of its own enumerable string-keyed
    properties, kept in the order in which JavaScript enumerates them. *)
Inductive object : Type :=
| OObject (props : list (string * value))
| OArray (elems : list value).

(** What a [throw] carries: an error raised by the language itself, or a
    value thrown by user code. *)
Inductive exn : Type :=
| TypeError (msg : string)
| SyntaxError (msg : string)
| Thrown (v : value).

(** The functions a page is born with, as far as a lookup on an object
    of the store reaches them: [Object], [Array] and the methods of
    [Object.prototype] and of [Array.prototype], each known by the
    object that holds it and by its name. *)
Inductive builtin : Type :=
| Object_constructor
| Array_constructor
| Object_prototype_method (name : string)
| Array_prototype_method (name : string).

#[global] Instance builtin_eq_dec : EqDecision builtin.
Proof. solve_decision. Defined.

(** What the read of a property yields: a value as a caller writes it,
    or a built-in function, which only a lookup along the prototype
    chain finds. *)
Inductive held : Type :=
| Plain (v : value)
| Builtin (f : builtin).

Coercion Plain : value >-> held.

#[global] Instance held_eq_dec : EqDecision held.
Proof. solve_decision. Defined.

(** [a === b] *)
Definition strict_equal (a b : held) : bool :=
  match a, b with
  | Plain VUndefined, Plain VUndefined => true
  | Plain VNull, Plain VNull => true
  | Plain (VBool x), Plain (VBool y) => bool_decide (x = y)
  | Plain (VNumber x), Plain (VNumber y) => bool_decide (x = y)
  | Plain (VString x), Plain (VString y) => bool_decide (x = y)
  | Plain (VRef x), Plain (VRef y) => bool_decide (x = y)
  | Plain VObjectPrototype, Plain VObjectPrototype => true
  | Builtin f, Builtin g => bool_decide (f = g)
  | _, _ => false
  end.

(** The truthiness test of [if (v)], [!v] and [a || b]. *)
Definition to_boolean (v : value) : bool :=
  match v with
  | VUndefined | VNull | VNaN => false
  | VBool b => b
  | VNumber n => negb (bool_decide (n = 0%Z))
  | VString s => negb (bool_decide (s = EmptyString))
  | VRef _ | VObjectPrototype => true
  end.

(** [typeof v] *)
Definition typeof (v : held) : string :=
  match v with
  | Plain VUndefined => "undefined"
  | Plain VNull => "object"
  | Plain (VBool _) => "boolean"
  | Plain (VNumber _) | Plain VNaN => "number"
  | Plain (VString _) => "string"
  | Plain (VRef _) | Plain VObjectPrototype => "object"
  | Builtin _ => "function"
  end.

(** ** The string form of a number

    [Number::toString] in radix ten, for the integers.  A number is a
    double, and of a double the language prints the shortest decimal
    that reads back as the same double, the one closest to it among the
    shortest.  Up to twenty-one digits are written out, a longer number
    takes the exponent form.  [to_double] is the double an integer
    literal denotes, the nearest one with ties going to the even
    significand; it leaves the numbers of the model as they are. *)
Definition to_double (m : Z) : Z :=
  if bool_decide (m < 2 ^ 53)%Z then m
  else
    let e := (Z.log2 m - 52)%Z in
    let q := (m / 2 ^ e)%Z in
    let r := (m mod 2 ^ e)%Z in
    let half := (2 ^ (e - 1))%Z in
    if bool_decide (half < r)%Z || (bool_decide (r = half) && Z.odd q)
    then ((q + 1) * 2 ^ e)%Z
    else (q * 2 ^ e)%Z.

(** Whether the integer [c] reads back as the double [x >= 2^53]: it lies
    between the midpoints to the neighbours of [x], which themselves go
    to [x] when its significand is even.  The bounds are doubled, since
    the lower midpoint of [2^53] is no integer. *)
Definition reads_back_as (x c : Z) : bool :=
  let e := (Z.log2 x - 52)%Z in
  let q := (x / 2 ^ e)%Z in
  let lo2 :=
    if bool_decide (q = 2 ^ 52)%Z then (2 * x - 2 ^ (e - 1))%Z
    else (2 * x - 2 ^ e)%Z in
  let hi2 := (2 * x + 2 ^ e)%Z in
  if Z.even q
  then bool_decide (lo2 <= 2 * c)%Z && bool_decide (2 * c <= hi2)%Z
  else bool_decide (lo2 < 2 * c)%Z && bool_decide (2 * c < hi2)%Z.

(** The decimal of [k] significant digits nearest to [x], if one reads
    back as [x]: the candidates are the multiples of [10^(d - k)] on
    either side of [x], where [d] is the number of digits of [x]; of two
    equally near the one with the even last digit. *)
Definition nearest_decimal (x : Z) (d k : nat) : option Z :=
  let p := (10 ^ Z.of_nat (d - k))%Z in
  let below := (x / p * p)%Z in
  let above := (below + p)%Z in
  match reads_back_as x below, reads_back_as x above with
  | true, true =>
      if bool_decide (x - below < above - x)%Z then Some below
      else if bool_decide (above - x < x - below)%Z then Some above
      else if Z.even (x / p) then Some below else Some above
  | true, false => Some below
  | false, true => Some above
  | false, false => None
  end.

(** The shortest decimal that reads back as [x], tried from [k] digits
    on; with all the [d] digits [x] itself does. *)
Fixpoint shortest_decimal (x : Z) (d k : nat) (fuel : nat) : Z :=
  match fuel with
  | 0 => x
  | S fuel' =>
      match nearest_decimal x d k with
      | Some c => c
      | None => shortest_decimal x d (S k) fuel'
      end
  end.

Fixpoint strip_trailing_zeros (s : string) : string :=
  match s with
  | EmptyString => EmptyString
  | String c s' =>
      match strip_trailing_zeros s' with
      | EmptyString =>
          if bool_decide (c = "0"%char) then EmptyString
          else String c EmptyString
      | rest => String c rest
      end
  end.

(** The digits of [c > 0] as the language writes them. *)
Definition write_decimal (c : Z) : string :=
  let n := String.length (pretty c) in
  if (n <=? 21)%nat then pretty c
  else
    let exponent := String.append "e+" (pretty (N.of_nat (n - 1))) in
    match strip_trailing_zeros (pretty c) with
    | String a EmptyString => String a exponent
    | String a rest => String a (String "." (String.append rest exponent))
    | EmptyString => pretty c
    end.

Definition Number_toString (n : Z) : string :=
  if bool_decide (Z.abs n < 2 ^ 53)%Z then pretty n
  else
    let x := to_double (Z.abs n) in
    let text :=
      if bool_decide (2 ^ 1024 <= x)%Z then "Infinity"
      else
        let d := String.length (pretty x) in
        write_decimal (shortest_decimal x d 1 d) in
    if bool_decide (n < 0)%Z then String "-" text else text.

(** The property key a primitive is converted to in [o[v]].  References
    never reach this conversion through [set], which treats them as
    patches; the key of a method that hands it to [this.state[key]] as
    it comes is converted by [ToPropertyKey] below. *)
Definition to_property_key (v : value) : string :=
  match v with
  | VUndefined => "undefined"
  | VNull => "null"
  | VBool true => "true"
  | VBool false => "false"
  | VNumber n => Number_toString n
  | VNaN => "NaN"
  | VString s => s
  | VRef _ | VObjectPrototype => "[object Object]"
  end.

Definition alloc (o : object) (h : list object) : loc * list object :=
  (List.length h, h ++ [o]).

(** [Array.isArray(v)] *)
Definition isArray (h : list object) (v : held) : bool :=
  match v with
  | Plain (VRef l) =>
      match h !! l with Some (OArray _) => true | _ => false end
  | _ => false
  end.

(** ** Own properties and their order *)

Definition is_digit (c : ascii) : bool :=
  let n := nat_of_ascii c in (48 <=? n)%nat && (n <=? 57)%nat.

Fixpoint digits_value (s : string) (acc : N) : option N :=
  match s with
  | EmptyString => Some acc
  | String c s' =>
      if is_digit c
      then digits_value s' (10 * acc + N.of_nat (nat_of_ascii c - 48))%N
      else None
  end.

(** [k] is an array index: the canonical decimal form of [n < 2^32 - 1]. *)
Definition array_index (k : string) : option N :=
  match k with
  | EmptyString => None
  | _ =>
      match digits_value k 0%N with
      | Some n =>
          if bool_decide (pretty n = k) && bool_decide (n < 4294967295)%N
          then Some n else None
      | None => None
      end
  end.

Fixpoint own_get (k : string) (ps : list (string * value)) : option value :=
  match ps with
  | [] => None
  | (k', v) :: ps' => if bool_decide (k' = k) then Some v else own_get k ps'
  end.

Fixpoint own_replace (k : string) (v : value) (ps : list (string * value))
  : list (string * value) :=
  match ps with
  | [] => []
  | (k', v') :: ps' =>
      if bool_decide (k' = k) then (k, v) :: ps'
      else (k', v') :: own_replace k v ps'
  end.

(** A new index key goes before the first key that is not a smaller
    index: index keys come first, in ascending order. *)
Fixpoint own_insert_index (n : N) (k : string) (v : value)
    (ps : list (string * value)) : list (string * value) :=
  match ps with
  | [] => [(k, v)]
  | (k', v') :: ps' =>
      match array_index k' with
      | Some n' =>
          if bool_decide (n' < n)%N
          then (k', v') :: own_insert_index n k v ps'
          else (k, v) :: ps
      | None => (k, v) :: ps
      end
  end.

(** [o[k] = v] on an object with own data properties [ps]: an existing
    property keeps its place, a new one is added in enumeration order. *)
Definition define_property (k : string) (v : value)
    (ps : list (string * value)) : list (string * value) :=
  match own_get k ps with
  | Some _ => own_replace k v ps
  | None =>
      match array_index k with
      | Some n => own_insert_index n k v ps
      | None => ps ++ [(k, v)]
      end
  end.

Definition array_entries (es : list value) : list (string * value) :=
  imap (fun i x => (pretty (N.of_nat i), x)) es.

Fixpoint string_entries (i : nat) (s : string) : list (string * value) :=
  match s with
  | EmptyString => []
  | String c s' =>
      (pretty (N.of_nat i), VString (String c EmptyString))
        :: string_entries (S i) s'
  end.

(** The own enumerable string-keyed properties of [v] after [ToObject],
    in enumeration order; nothing for [undefined] and [null]. *)
Definition own_enumerable (h : list object) (v : value)
  : list (string * value) :=
  match v with
  | VString s => string_entries 0 s
  | VRef l =>
      match h !! l with
      | Some (OObject ps) => ps
      | Some (OArray es) => array_entries es
      | None => []
      end
  | _ => []
  end.

(** The data property [k] of the object [proto] itself, as a lookup that
    climbs to it finds it. *)
Definition inherited (h : list object) (proto : value) (k : string)
  : option value :=
  match proto with
  | VRef l =>
      match h !! l with
      | Some (OObject ps) => own_get k ps
      | Some (OArray es) =>
          if bool_decide (k = "length")
          then Some (VNumber (Z.of_nat (List.length es)))
          else match array_index k with
               | Some n => es !! N.to_nat n
               | None => None
               end
      | None => None
      end
  | _ => None
  end.

(** The methods of [Object.prototype] and of [Array.prototype], as the
    language of 2023 has them; [constructor] is a property of both too,
    and [__proto__] is an accessor, not a method. *)
Definition Object_prototype_methods : list string :=
  ["__defineGetter__"; "__defineSetter__"; "hasOwnProperty";
   "__lookupGetter__"; "__lookupSetter__"; "isPrototypeOf";
   "propertyIsEnumerable"; "toString"; "valueOf"; "toLocaleString"].

Definition Array_prototype_methods : list string :=
  ["at"; "concat"; "copyWithin"; "entries"; "every"; "fill"; "filter";
   "find"; "findIndex"; "findLast"; "findLastIndex"; "flat"; "flatMap";
   "forEach"; "includes"; "indexOf"; "join"; "keys"; "lastIndexOf"; "map";
   "pop"; "push"; "reduce"; "reduceRight"; "reverse"; "shift"; "slice";
   "some"; "sort"; "splice"; "toLocaleString"; "toReversed"; "toSorted";
   "toSpliced"; "toString"; "unshift"; "values"; "with"].

(** [Object.prototype[k]] and [Array.prototype[k]] for the own data
    properties that hold functions. *)
Definition Object_prototype_get (k : string) : option builtin :=
  if bool_decide (k = "constructor") then Some Object_constructor
  else if bool_decide (k ∈ Object_prototype_methods)
       then Some (Object_prototype_method k)
       else None.

Definition Array_prototype_get (k : string) : option builtin :=
  if bool_decide (k = "constructor") then Some Array_constructor
  else if bool_decide (k ∈ Array_prototype_methods)
       then Some (Array_prototype_method k)
       else None.

(** The built-in function a lookup of [k] finds behind the object
    [proto]: the prototype of an array is [Array.prototype], whose
    prototype, and that of a plain object, is [Object.prototype]. *)
Definition builtin_get (h : list object) (proto : value) (k : string)
  : option builtin :=
  match proto with
  | VNull => None
  | VRef l =>
      match h !! l with
      | Some (OArray _) =>
          match Array_prototype_get k with
          | Some f => Some f
          | None => Object_prototype_get k
          end
      | _ => Object_prototype_get k
      end
  | _ => Object_prototype_get k
  end.

(** [o[k]] for an object with own properties [ps] and prototype [proto]:
    an own property, else a data property of the prototype, else what
    the built-in prototypes behind it hold, a function or, for
    [__proto__], the accessor of [Object.prototype], which is on the
    chain of every prototype but [null]. *)
Definition prop_get (h : list object) (proto : value)
    (ps : list (string * value)) (k : string) : held :=
  match own_get k ps with
  | Some v => Plain v
  | None =>
      match inherited h proto k with
      | Some v => Plain v
      | None =>
          match builtin_get h proto k with
          | Some f => Builtin f
          | None =>
              if bool_decide (k = "__proto__")
              then match proto with
                   | VNull => Plain VUndefined
                   | _ => Plain proto
                   end
              else Plain VUndefined
          end
      end
  end.

Definition is_object_or_null (v : value) : bool :=
  match v with
  | VNull | VRef _ | VObjectPrototype => true
  | _ => false
  end.

(** [o[k] = v]: the new prototype and own properties.  The write reaches
    the [__proto__] setter when no data property of that name is in its
    way; the setter ignores a primitive other than [null]. *)
Definition prop_set (h : list object) (k : string) (v : value)
    (proto : value) (ps : list (string * value))
  : value * list (string * value) :=
  match own_get k ps with
  | Some _ => (proto, own_replace k v ps)
  | None =>
      if bool_decide (k = "__proto__")
         && negb (strict_equal proto VNull)
         && negb (bool_decide (is_Some (inherited h proto k)))
      then (if is_object_or_null v then v else proto, ps)
      else (proto, define_property k v ps)
  end.

(** [{ ...target, ...source }]: spread [source] over the properties
    collected so far. *)
Definition spread (h : list object) (source : value)
    (target : list (string * value)) : list (string * value) :=
  fold_left (fun ps kv => define_property kv.1 kv.2 ps)
            (own_enumerable h source) target.

(** [Object.entries(o)] *)
Definition Object_entries (h : list object) (o : value)
  : exn + list (string * value) :=
  match o with
  | VUndefined | VNull =>
      inl (TypeError "Cannot convert undefined or null to object")
  | _ => inr (own_enumerable h o)
  end.

(** ** Listeners *)

(** A listener is a function object, known by its identity; what calling
    it does is recorded once for all in the world ([functions] below). *)
Definition callback : Type := nat.

(** One observed invocation [callback(newValue, oldValue)]. *)
Record call : Type := Call {
  call_cb : callback;
  call_new : value;
  call_old : held
}.

(** A [Set] of functions: insertion-ordered, without duplicates, members
    compared by identity. *)
Definition Set_has (c : callback) (cs : list callback) : bool :=
  existsb (fun c' => Nat.eqb c' c) cs.

Definition Set_add (c : callback) (cs : list callback) : list callback :=
  if Set_has c cs then cs else cs ++ [c].

Definition Set_delete (c : callback) (cs : list callback) : list callback :=
  List.filter (fun c' => negb (Nat.eqb c' c)) cs.

(** ** The store and its environment *)

Record World : Type := mkWorld {
  state : list (string * value);            (* this.state *)
  state_proto : value;                      (* its prototype *)
  listeners : gmap string (list callback);  (* this.listeners *)
  heap : list object;
  localStorage : gmap string string;
  (* the code of the function objects: [None] for a normal return,
     [Some e] for [throw e] *)
  functions : callback -> value -> held -> option exn;
  console : list (string * exn);            (* console.error *)
  calls : list call                         (* listener invocations *)
}.

Definition with_state (st : list (string * value)) (w : World) : World :=
  mkWorld st (state_proto w) (listeners w) (heap w) (localStorage w)
          (functions w) (console w) (calls w).

Definition with_state_proto (proto : value) (w : World) : World :=
  mkWorld (state w) proto (listeners w) (heap w) (localStorage w)
          (functions w) (console w) (calls w).

Definition with_listeners (ls : gmap string (list callback)) (w : World)
  : World :=
  mkWorld (state w) (state_proto w) ls (heap w) (localStorage w)
          (functions w) (console w) (calls w).

Definition with_heap (h : list object) (w : World) : World :=
  mkWorld (state w) (state_proto w) (listeners w) h (localStorage w)
          (functions w) (console w) (calls w).

Definition with_localStorage (ls : gmap string string) (w : World) : World :=
  mkWorld (state w) (state_proto w) (listeners w) (heap w) ls
          (functions w) (console w) (calls w).

Definition console_error (msg : string) (e : exn) (w : World) : World :=
  mkWorld (state w) (state_proto w) (listeners w) (heap w) (localStorage w)
          (functions w) (console w ++ [(msg, e)]) (calls w).

Definition record_call (c : call) (w : World) : World :=
  mkWorld (state w) (state_proto w) (listeners w) (heap w) (localStorage w)
          (functions w) (console w) (calls w ++ [c]).

(** How a method that may throw ends: normally, or with an exception
    leaving the world as it was at the [throw]. *)
Inductive result : Type :=
| Ok (w : World)
| Raise (e : exn) (w : World).

(** The world a method leaves behind, however it ended. *)
Definition world_of (r : result) : World :=
  match r with
  | Ok w => w
  | Raise _ w => w
  end.

(** What [get] hands back: the state object itself or one of its
    properties. *)
Inductive got : Type :=
| Whole (st : list (string * value))
| Value (v : held).

(** [constructor()] over a given environment. *)
Definition new_State (h : list object) (storage : gmap string string)
    (code : callback -> value -> held -> option exn) : World :=
  mkWorld [] VObjectPrototype ∅ h storage code [] [].

(** The default [initialState = {}] of a parameter: an argument that is
    [undefined] gives way to a new empty object. *)
Definition or_empty_object (initialState : value) (h : list object)
  : value * list object :=
  match initialState with
  | VUndefined => let '(l, h') := alloc (OObject []) h in (VRef l, h')
  | _ => (initialState, h)
  end.

(** [localStorage.getItem('theme') || 'light'] *)
Definition stored_theme (w : World) : value :=
  match localStorage w !! "theme" with
  | Some s => if to_boolean (VString s) then VString s else VString "light"
  | None => VString "light"
  end.

(** The five properties of the literal in [init], before the seed is
    spread over them. *)
Definition defaults (theme : value) (notifications errors : loc)
  : list (string * value) :=
  [("theme", theme);
   ("notifications", VRef notifications);
   ("sidebarOpen", VBool true);
   ("loading", VBool false);
   ("errors", VRef errors)].

(** [init(initialState = {})]: a new object for [this.state]. *)
Definition init (initialState : value) (w : World) : World :=
  let '(seed, h0) := or_empty_object initialState (heap w) in
  let theme := stored_theme w in
  let '(notifications, h1) := alloc (OArray []) h0 in
  let '(errors, h2) := alloc (OObject []) h1 in
  with_state
    (spread h2 seed (defaults theme notifications errors))
    (with_state_proto VObjectPrototype (with_heap h2 w)).

(** [this.state[key]] *)
Definition state_get (key : string) (w : World) : held :=
  prop_get (heap w) (state_proto w) (state w) key.

(** [this.state[key] = value] *)
Definition state_set (key : string) (value : value) (w : World) : World :=
  let '(proto, ps) :=
    prop_set (heap w) key value (state_proto w) (state w) in
  with_state ps (with_state_proto proto w).

(** [get(key)]; [None] is the omitted argument. *)
Definition get (key : option string) (w : World) : got :=
  match key with
  | Some k =>
      if to_boolean (VString k) then Value (state_get k w)
      else Whole (state w)
  | None => Whole (state w)
  end.

(** One step of [listeners.forEach]: call the listener, log what it
    throws. *)
Definition invoke (newValue : value) (oldValue : held) (w : World)
    (c : callback) : World :=
  let w1 := record_call (Call c newValue oldValue) w in
  match functions w c newValue oldValue with
  | None => w1
  | Some error => console_error "Error in state listener:" error w1
  end.

(** [this.listeners.get(key)]: the map is only ever given string keys. *)
Definition Map_get (ls : gmap string (list callback)) (key : value)
  : option (list callback) :=
  match key with
  | VString k => ls !! k
  | _ => None
  end.

(** [notifyListeners(key, newValue, oldValue)] *)
Definition notifyListeners (key : value) (newValue : value)
    (oldValue : held) (w : World) : World :=
  match Map_get (listeners w) key with
  | Some cs => fold_left (invoke newValue oldValue) cs w
  | None => w
  end.

(** [setState(key, value)] *)
Definition setState (key : value) (value : value) (w : World) : World :=
  let oldValue := state_get (to_property_key key) w in
  let w1 := state_set (to_property_key key) value w in
  if negb (strict_equal oldValue value)
  then notifyListeners key value oldValue w1
  else w1.

(** [set(keyOrObject, value)] *)
Definition set (keyOrObject : value) (value : value) (w : World) : result :=
  if bool_decide (typeof keyOrObject = "object") then
    match Object_entries (heap w) keyOrObject with
    | inl e => Raise e w
    | inr entries =>
        Ok (fold_left (fun w' kv => setState (VString kv.1) kv.2 w')
                      entries w)
    end
  else Ok (setState keyOrObject value w).

(** The function returned by [subscribe]: it closes over the [Set] of its
    key and over the callback.  The map never replaces or drops a [Set],
    so the key stands for it. *)
Record unsubscribe : Type := Unsubscribe {
  un_key : string;
  un_callback : callback
}.

(** [subscribe(key, callback)] *)
Definition subscribe (key : string) (c : callback) (w : World)
  : unsubscribe * World :=
  let ls :=
    match listeners w !! key with
    | Some _ => listeners w
    | None => <[key := []]> (listeners w)
    end in
  let cs := default [] (ls !! key) in
  (Unsubscribe key c, with_listeners (<[key := Set_add c cs]> ls) w).

(** Calling the returned function: [listeners.delete(callback)]. *)
Definition call_unsubscribe (u : unsubscribe) (w : World) : World :=
  match listeners w !! un_key u with
  | Some cs =>
      with_listeners
        (<[un_key u := Set_delete (un_callback u) cs]> (listeners w)) w
  | None => w
  end.

(** [reset(initialState = {})] *)
Definition reset (initialState : value) (w : World) : World :=
  let '(seed, h0) := or_empty_object initialState (heap w) in
  init seed (with_heap h0 w).

Fixpoint join (sep : string) (parts : list string) : string :=
  match parts with
  | [] => EmptyString
  | [p] => p
  | p :: rest => String.append p (String.append sep (join sep rest))
  end.

(** [ToString(v)] where an object may come: a plain object is asked for
    its [toString], which is that of [Object.prototype] unless the
    object has a property of this name; such a property holds no
    function, and [valueOf] gives no primitive, so the conversion
    throws.  An array joins the strings of its elements with commas,
    [undefined] and [null] counting as empty; an array met again while
    it is being joined counts as empty too.  [joining] holds the arrays
    being joined. *)
Fixpoint ToString (fuel : nat) (h : list object) (joining : list loc)
    (v : value) : exn + string :=
  match v with
  | VRef l =>
      match h !! l with
      | Some (OObject ps) =>
          match own_get "toString" ps with
          | Some _ => inl (TypeError "Cannot convert object to primitive value")
          | None => inr "[object Object]"
          end
      | Some (OArray es) =>
          match fuel with
          | 0 => inr EmptyString
          | S fuel' =>
              if bool_decide (l ∈ joining) then inr EmptyString
              else
                match
                  (fix elements (es : list value) : exn + list string :=
                     match es with
                     | [] => inr []
                     | x :: es' =>
                         match
                           match x with
                           | VUndefined | VNull => inr EmptyString
                           | _ => ToString fuel' h (l :: joining) x
                           end
                         with
                         | inl e => inl e
                         | inr part =>
                             match elements es' with
                             | inl e => inl e
                             | inr parts => inr (part :: parts)
                             end
                         end
                     end) es
                with
                | inl e => inl e
                | inr parts => inr (join "," parts)
                end
          end
      | None => inr "[object Object]"
      end
  | _ => inr (to_property_key v)
  end.

(** [ToPropertyKey(key)] in [this.state[key]]; every array on the way
    down is a new one or ends the descent, so the heap's size is fuel
    enough. *)
Definition ToPropertyKey (h : list object) (key : value) : exn + string :=
  ToString (S (List.length h)) h [] key.

(** [toggle(key)] *)
Definition toggle (key : value) (w : World) : result :=
  match ToPropertyKey (heap w) key with
  | inl e => Raise e w
  | inr k =>
      match state_get k w with
      | Plain (VBool b) => set key (VBool (negb b)) w
      | _ => Ok w
      end
  end.

(** [addItem(key, item)] *)
Definition addItem (key : value) (item : value) (w : World) : result :=
  match ToPropertyKey (heap w) key with
  | inl e => Raise e w
  | inr k =>
      match state_get k w with
      | Plain (VRef l) =>
          match heap w !! l with
          | Some (OArray es) =>
              let '(l', h') := alloc (OArray (es ++ [item])) (heap w) in
              set key (VRef l') (with_heap h' w)
          | _ => Ok w
          end
      | _ => Ok w
      end
  end.

(** [Array.prototype.filter]: the callback's exception ends the loop. *)
Fixpoint Array_filter (f : value -> exn + value) (es : list value)
  : exn + list value :=
  match es with
  | [] => inr []
  | item :: es' =>
      match f item with
      | inl e => inl e
      | inr selected =>
          match Array_filter f es' with
          | inl e => inl e
          | inr kept => inr (if to_boolean selected then item :: kept else kept)
          end
      end
  end.

(** [Array.prototype.map] with a callback that may allocate. *)
Fixpoint Array_map
    (f : list object -> value -> exn * list object + value * list object)
    (h : list object) (es : list value)
  : exn * list object + list value * list object :=
  match es with
  | [] => inr ([], h)
  | item :: es' =>
      match f h item with
      | inl e => inl e
      | inr (r, h1) =>
          match Array_map f h1 es' with
          | inl e => inl e
          | inr (rs, h2) => inr (r :: rs, h2)
          end
      end
  end.

(** A caller-supplied predicate: it reads the heap and its argument and
    returns a value or throws. *)
Definition predicate_fn : Type := list object -> value -> exn + value.

(** [removeItem(key, predicate)] *)
Definition removeItem (key : value) (predicate : predicate_fn) (w : World)
  : result :=
  match ToPropertyKey (heap w) key with
  | inl e => Raise e w
  | inr k =>
      match state_get k w with
      | Plain (VRef l) =>
          match heap w !! l with
          | Some (OArray es) =>
              match
                Array_filter
                  (fun item =>
                     match predicate (heap w) item with
                     | inl e => inl e
                     | inr r => inr (VBool (negb (to_boolean r)))
                     end) es
              with
              | inl e => Raise e w
              | inr kept =>
                  let '(l', h') := alloc (OArray kept) (heap w) in
                  set key (VRef l') (with_heap h' w)
              end
          | _ => Ok w
          end
      | _ => Ok w
      end
  end.

(** [{ ...item, ...updates }] *)
Definition merged (h : list object) (item updates : value)
  : list (string * value) :=
  spread h updates (spread h item []).

(** The arrow function of [updateItem]:
    [item => predicate(item) ? { ...item, ...updates } : item]. *)
Definition update_arrow (predicate : predicate_fn) (updates : value)
    (h : list object) (item : value)
  : exn * list object + value * list object :=
  match predicate h item with
  | inl e => inl (e, h)
  | inr r =>
      if to_boolean r then
        let '(l, h') := alloc (OObject (merged h item updates)) h in
        inr (VRef l, h')
      else inr (item, h)
  end.

(** [updateItem(key, predicate, updates)] *)
Definition updateItem (key : value) (predicate : predicate_fn)
    (updates : value) (w : World) : result :=
  match ToPropertyKey (heap w) key with
  | inl e => Raise e w
  | inr k =>
      match state_get k w with
      | Plain (VRef l) =>
          match heap w !! l with
          | Some (OArray es) =>
              match
                Array_map (update_arrow predicate updates) (heap w) es
              with
              | inl (e, h1) => Raise e (with_heap h1 w)
              | inr (rs, h1) =>
                  let '(l', h') := alloc (OArray rs) h1 in
                  set key (VRef l') (with_heap h' w)
              end
          | _ => Ok w
          end
      | _ => Ok w
      end
  end.

(** ** Persistence

    [JSON.stringify] and [JSON.parse] belong to the browser.  They are
    taken as they are typed: [JSON.stringify] reads the heap and yields a
    text, [undefined] (here [None]) or an exception; [JSON.parse] yields
    a value built from fresh objects, or an exception. *)
Section Persistence.

Variable JSON_stringify : list object -> held -> exn + option string.
Variable JSON_parse :
  string -> list object -> exn + value * list object.

(** [persist(key)]; [setItem] stores the string form of its argument. *)
Definition persist (key : string) (w : World) : World :=
  match JSON_stringify (heap w) (state_get key w) with
  | inl error => console_error "Error persisting state:" error w
  | inr text =>
      with_localStorage
        (<[key := default "undefined" text]> (localStorage w)) w
  end.

(** [loadPersisted(key)] *)
Definition loadPersisted (key : string) (w : World) : value * World :=
  match localStorage w !! key with
  | Some value =>
      if to_boolean (VString value) then
        match JSON_parse value (heap w) with
        | inl error =>
            (VNull, console_error "Error loading persisted state:" error w)
        | inr (parsed, h') =>
            match set (VString key) parsed (with_heap h' w) with
            | Ok w' => (parsed, w')
            | Raise error w' =>
                (VNull,
                 console_error "Error loading persisted state:" error w')
            end
        end
      else (VNull, w)
  | None => (VNull, w)
  end.

End Persistence.

(** ** Reading the trace of listener invocations *)

(** The invocations of the function [c] among [cs]. *)
Definition calls_of (c : callback) (cs : list call) : list call :=
  List.filter (fun x => Nat.eqb (call_cb x) c) cs.

(** The invocations made on the way from [w] to [w']. *)
Definition new_calls (w w' : World) : list call :=
  drop (List.length (calls w)) (calls w').

(** What [console.error] received on the way from [w] to [w']. *)
Definition new_errors (w w' : World) : list (string * exn) :=
  drop (List.length (console w)) (console w').

(** The invariant of [this.listeners]: every [Set] holds a function at
    most once. *)
Definition listeners_wf (w : World) : Prop :=
  map_Forall (fun _ cs => NoDup cs) (listeners w).

#[global] Instance listeners_wf_dec (w : World) : Decision (listeners_wf w).
Proof. apply map_Forall_dec. intros k cs. apply NoDup_dec. Defined.

(** The invocations [notifyListeners] makes for the [Set] [cs], and what
    it logs. *)
Definition invocations (newValue : value) (oldValue : held)
    (cs : list callback) : list call :=
  map (fun c => Call c newValue oldValue) cs.

Definition listener_errors (code : callback -> value -> held -> option exn)
    (newValue : value) (oldValue : held) (cs : list callback)
  : list (string * exn) :=
  omap (fun c =>
          match code c newValue oldValue with
          | Some error => Some ("Error in state listener:", error)
          | None => None
          end) cs.

(** [set(patch)] as the specification words it: the single-key
    [set(k, v)], once for each pair of the patch, in iteration order. *)
Definition set_each_pair (entries : list (string * value)) (w : World)
  : result :=
  fold_left
    (fun r kv =>
       match r with
       | Ok w' => set (VString kv.1) kv.2 w'
       | Raise e w' => Raise e w'
       end)
    entries (Ok w).

(** The pair a mapping holds for [k]; should a list carry [k] twice, the
    later pair, as in a spread. *)
Definition entry (k : string) (entries : list (string * value))
  : option value :=
  own_get k (rev entries).

(** ** JSON documents

    The tree a value stands for in JSON, read off the heap to a given
    depth.  A value is JSON-representable when it has one: no
    [undefined], no [NaN], no cycle. *)
#[local] Unset Elimination Schemes.
Inductive json : Type :=
| JNull
| JBool (b : bool)
| JNumber (n : Z)
| JString (s : string)
| JArray (items : list json)
| JObject (members : list (string * json)).
#[local] Set Elimination Schemes.

Fixpoint json_of (depth : nat) (h : list object) (v : held) : option json :=
  match depth with
  | 0 => None
  | S depth' =>
      match v with
      | Plain VNull => Some JNull
      | Plain (VBool b) => Some (JBool b)
      | Plain (VNumber n) => Some (JNumber n)
      | Plain (VString s) => Some (JString s)
      | Plain (VRef l) =>
          match h !! l with
          | Some (OArray es) =>
              JArray <$> mapM (fun x => json_of depth' h (Plain x)) es
          | Some (OObject ps) =>
              JObject <$>
                mapM (fun kv => pair kv.1 <$> json_of depth' h (Plain kv.2))
                     ps
          | None => None
          end
      | Plain VUndefined | Plain VNaN | Plain VObjectPrototype | Builtin _ =>
          None
      end
  end.

(** A small JSON engine for the examples below: integers, strings that
    need no escape, arrays and objects, no white space. *)
Definition quote : ascii := ascii_of_nat 34.

Definition quoted (s : string) : string :=
  String quote (String.append s (String quote EmptyString)).

Fixpoint print_json (j : json) : string :=
  match j with
  | JNull => "null"
  | JBool true => "true"
  | JBool false => "false"
  | JNumber n => Number_toString n
  | JString s => quoted s
  | JArray items =>
      String.append "["
        (String.append (join "," (map print_json items)) "]")
  | JObject members =>
      String.append "{"
        (String.append
           (join ","
              (map (fun kj =>
                      String.append (quoted kj.1)
                        (String.append ":" (print_json kj.2)))
                   members))
           "}")
  end.

Definition mini_stringify (h : list object) (v : held)
  : exn + option string :=
  match v with
  | Plain VUndefined | Builtin _ => inr None
  | _ =>
      match json_of (S (List.length h)) h v with
      | Some j => inr (Some (print_json j))
      | None => inl (TypeError "value outside the fragment")
      end
  end.

Fixpoint strip_prefix (p s : string) : option string :=
  match p, s with
  | EmptyString, _ => Some s
  | String a p', String b s' =>
      if bool_decide (a = b) then strip_prefix p' s' else None
  | _, _ => None
  end.

Fixpoint take_digits (s : string) (acc : N) : N * string :=
  match s with
  | String c s' =>
      if is_digit c
      then take_digits s' (10 * acc + N.of_nat (nat_of_ascii c - 48))%N
      else (acc, s)
  | EmptyString => (acc, s)
  end.

Fixpoint take_string (s : string) : option (string * string) :=
  match s with
  | EmptyString => None
  | String c s' =>
      if bool_decide (c = quote) then Some (EmptyString, s')
      else if bool_decide (c = ascii_of_nat 92) then None
      else match take_string s' with
           | Some (str, rest) => Some (String c str, rest)
           | None => None
           end
  end.

Fixpoint parse_value (fuel : nat) (s : string) : option (json * string) :=
  match fuel with
  | 0 => None
  | S fuel' =>
      match s with
      | EmptyString => None
      | String c s' =>
          if bool_decide (c = quote) then
            match take_string s' with
            | Some (str, rest) => Some (JString str, rest)
            | None => None
            end
          else if bool_decide (c = "["%char) then
            match s' with
            | String "]" rest => Some (JArray [], rest)
            | _ =>
                match parse_items fuel' s' with
                | Some (items, rest) => Some (JArray items, rest)
                | None => None
                end
            end
          else if bool_decide (c = "{"%char) then
            match s' with
            | String "}" rest => Some (JObject [], rest)
            | _ =>
                match parse_members fuel' s' with
                | Some (members, rest) => Some (JObject members, rest)
                | None => None
                end
            end
          else if bool_decide (c = "-"%char) then
            match s' with
            | String d _ =>
                if is_digit d then
                  let '(n, rest) := take_digits s' 0%N in
                  Some (JNumber (- Z.of_N n), rest)
                else None
            | EmptyString => None
            end
          else if is_digit c then
            let '(n, rest) := take_digits s 0%N in
            Some (JNumber (Z.of_N n), rest)
          else
            match strip_prefix "null" s with
            | Some rest => Some (JNull, rest)
            | None =>
                match strip_prefix "true" s with
                | Some rest => Some (JBool true, rest)
                | None =>
                    match strip_prefix "false" s with
                    | Some rest => Some (JBool false, rest)
                    | None => None
                    end
                end
            end
      end
  end
with parse_items (fuel : nat) (s : string) : option (list json * string) :=
  match fuel with
  | 0 => None
  | S fuel' =>
      match parse_value fuel' s with
      | Some (item, String "," rest) =>
          match parse_items fuel' rest with
          | Some (items, rest') => Some (item :: items, rest')
          | None => None
          end
      | Some (item, String "]" rest) => Some ([item], rest)
      | _ => None
      end
  end
with parse_members (fuel : nat) (s : string)
  : option (list (string * json) * string) :=
  match fuel with
  | 0 => None
  | S fuel' =>
      match s with
      | String c s' =>
          if bool_decide (c = quote) then
            match take_string s' with
            | Some (key, String ":" rest) =>
                match parse_value fuel' rest with
                | Some (j, String "," rest') =>
                    match parse_members fuel' rest' with
                    | Some (members, rest'') =>
                        Some ((key, j) :: members, rest'')
                    | None => None
                    end
                | Some (j, String "}" rest') => Some ([(key, j)], rest')
                | _ => None
                end
            | _ => None
            end
          else None
      | EmptyString => None
      end
  end.

(** The value of a document, built from fresh objects. *)
Fixpoint build (j : json) (h : list object) : value * list object :=
  match j with
  | JNull => (VNull, h)
  | JBool b => (VBool b, h)
  | JNumber n => (VNumber n, h)
  | JString s => (VString s, h)
  | JArray items =>
      let '(vs, h1) :=
        (fix build_items (items : list json) (h : list object)
           : list value * list object :=
           match items with
           | [] => ([], h)
           | item :: items' =>
               let '(v, h1) := build item h in
               let '(vs, h2) := build_items items' h1 in
               (v :: vs, h2)
           end) items h in
      let '(l, h2) := alloc (OArray vs) h1 in
      (VRef l, h2)
  | JObject members =>
      let '(ps, h1) :=
        (fix build_members (members : list (string * json))
             (ps : list (string * value)) (h : list object)
           : list (string * value) * list object :=
           match members with
           | [] => (ps, h)
           | (k, j') :: members' =>
               let '(v, h1) := build j' h in
               build_members members' (define_property k v ps) h1
           end) members [] h in
      let '(l, h2) := alloc (OObject ps) h1 in
      (VRef l, h2)
  end.

Definition mini_parse (text : string) (h : list object)
  : exn + value * list object :=
  match parse_value (S (String.length text)) text with
  | Some (j, EmptyString) => inr (build j h)
  | _ => inl (SyntaxError "Unexpected token")
  end.

(** A restart: a new [State], initialised as the module does, over the
    storage the old process left and a heap of its own. *)
Definition restart (h : list object)
    (code : callback -> value -> held -> option exn) (old : World) : World :=
  init VUndefined (new_State h (localStorage old) code).

(** ** Reading the array operations *)

(** Whether [predicate(item)] returned a truthy value. *)
Definition holds (predicate : predicate_fn) (h : list object) (item : value)
  : bool :=
  match predicate h item with
  | inr r => to_boolean r
  | inl _ => false
  end.

(** A value that is no dangling reference. *)
Definition ref_ok (h : list object) (v : value) : Prop :=
  match v with
  | VRef l => l < List.length h
  | _ => True
  end.

(** A shallow merge of [x] with the patch, as the specification words
    it: an object that has, name by name, the property of the patch
    where the patch has one of this name, else the property of [x],
    and no other. *)
Definition shallow_merge (h : list object) (x updates : value)
    (ps : list (string * value)) : Prop :=
  forall k,
    own_get k ps =
    match entry k (own_enumerable h updates) with
    | Some v => Some v
    | None => entry k (own_enumerable h x)
    end.

(** How [updateItem] is to relate an element [x] to the element [r]
    that takes its place in the heap [h'], over the heap [h] it started
    from: a match gives way to a new object, a shallow merge of [x]
    with the patch; anything else passes through. *)
Definition updated (h h' : list object) (updates : value)
    (matches : value -> bool) (x r : value) : Prop :=
  if matches x then
    exists l ps,
      r = VRef l /\ List.length h <= l /\
      h' !! l = Some (OObject ps) /\
      shallow_merge h x updates ps
  else r = x.

(** The characters of a string as [ToObject] shows them: the property
    named by the decimal of [i] holds the [i]-th character. *)
Definition character (s : string) (k : string) (v : value) : Prop :=
  exists i c,
    k = pretty (N.of_nat i) /\ String.get i s = Some c /\
    v = VString (String c EmptyString).

(** A primitive: anything but an object. *)
Definition primitive (v : value) : Prop :=
  match v with
  | VRef _ | VObjectPrototype => False
  | _ => True
  end.

(** A primitive without own properties: anything but an object and a
    string that has characters. *)
Definition bare_primitive (v : value) : Prop :=
  match v with
  | VUndefined | VNull | VBool _ | VNumber _ | VNaN => True
  | VString s => s = EmptyString
  | VRef _ | VObjectPrototype => False
  end.

(** ** Runs of the store

    The calls a program can make on the store, what each leaves behind,
    and the worlds a program reaches from a new store. *)
Inductive operation : Type :=
| Init (initialState : value)
| Reset (initialState : value)
| SetValue (keyOrObject value : value)
| Subscribe (key : string) (c : callback)
| CallUnsubscribe (u : unsubscribe)
| Toggle (key : value)
| AddItem (key : value) (item : value)
| RemoveItem (key : value) (predicate : predicate_fn)
| UpdateItem (key : value) (predicate : predicate_fn) (updates : value)
| Persist (JSON_stringify : list object -> held -> exn + option string)
          (key : string)
| LoadPersisted
    (JSON_parse : string -> list object -> exn + value * list object)
    (key : string).

Definition run (o : operation) (w : World) : World :=
  match o with
  | Init initialState => init initialState w
  | Reset initialState => reset initialState w
  | SetValue keyOrObject value => world_of (set keyOrObject value w)
  | Subscribe key c => (subscribe key c w).2
  | CallUnsubscribe u => call_unsubscribe u w
  | Toggle key => world_of (toggle key w)
  | AddItem key item => world_of (addItem key item w)
  | RemoveItem key predicate => world_of (removeItem key predicate w)
  | UpdateItem key predicate updates =>
      world_of (updateItem key predicate updates w)
  | Persist JSON_stringify key => persist JSON_stringify key w
  | LoadPersisted JSON_parse key => (loadPersisted JSON_parse key w).2
  end.

Definition run_all (os : list operation) (w : World) : World :=
  fold_left (fun w' o => run o w') os w.

Definition reachable (w : World) : Prop :=
  exists h storage code os, w = run_all os (new_State h storage code).

(** A program that does not subscribe [c] to [k]. *)
Definition never_subscribes (k : string) (c : callback)
    (os : list operation) : Prop :=
  Forall (fun o => o <> Subscribe k c) os.

(** A program that does not invoke a handle of [subscribe(k, c)]. *)
Definition never_unsubscribes (k : string) (c : callback)
    (os : list operation) : Prop :=
  Forall (fun o => o <> CallUnsubscribe (Unsubscribe k c)) os.

(** ** The stores of the examples *)

(** The store as the module leaves it: [new State()] then [init()], over an
    empty heap and an empty [localStorage]. *)
Definition fresh_store (code : callback -> value -> held -> option exn)
  : World :=
  init VUndefined (new_State [] ∅ code).

(** The functions of the examples: function [2] throws, the others
    return. *)
Definition example_code (c : callback) (newValue : value)
    (oldValue : held) : option exn :=
  if Nat.eqb c 2 then Some (Thrown (VString "boom")) else None.

Definition example_store : World := fresh_store example_code.

(** A store with listener [1] on [loading] and, at location [3], the
    patch [{ loading: true, sidebarOpen: false }]. *)
Definition patch_store : World :=
  with_heap
    (heap example_store
       ++ [OObject [("loading", VBool true); ("sidebarOpen", VBool false)]])
    (subscribe "loading" 1 example_store).2.

(** What [Object.entries(null)] throws. *)
Definition entries_of_null : exn :=
  TypeError "Cannot convert undefined or null to object".

(** A predicate that throws, and the example store with one
    notification. *)
Definition throwing_predicate : predicate_fn :=
  fun _ _ => inl (Thrown (VString "bad predicate")).

Definition notified_store : World :=
  world_of (addItem (VString "notifications") (VNumber 1) example_store).

(** The example store holding [{ a: 1 }], allocated at location [3],
    under the key [k]. *)
Definition profile_store (k : string) : World :=
  world_of
    (set (VString k) (VRef 3)
       (with_heap (heap example_store ++ [OObject [("a", VNumber 1)]])
                  example_store)).

(** Predicates and stores for the examples: [x => x === 2],
    [x => x === 1], [() => true]; the store whose [items] is [[1, 2, 3]]
    (location [3]) and which holds the patch [{ flag: true }] (location
    [4]); the same with [items] being [["ab"]]. *)
Definition is_two : predicate_fn :=
  fun _ x => inr (VBool (strict_equal x (VNumber 2))).

Definition is_one : predicate_fn :=
  fun _ x => inr (VBool (strict_equal x (VNumber 1))).

Definition always : predicate_fn := fun _ _ => inr (VBool true).

Definition items_store (items : list value) : World :=
  world_of
    (set (VString "items") (VRef 3)
       (with_heap
          (heap example_store ++ [OArray items; OObject [("flag", VBool true)]])
          example_store)).

(** ** Further readings of the store *)

(** [k] is an own property of [this.state]. *)
Definition has_key (k : string) (w : World) : Prop :=
  is_Some (own_get k (state w)).

(** A call that is neither [init] nor [reset]. *)
Definition keeps_state_object (o : operation) : Prop :=
  match o with
  | Init _ | Reset _ => False
  | _ => True
  end.

(** A call whose [JSON.parse], if it has one, builds its value from new
    objects and leaves the old ones alone. *)
Definition only_allocates (o : operation) : Prop :=
  match o with
  | LoadPersisted JSON_parse _ =>
      forall text h v h',
        JSON_parse text h = inr (v, h') -> exists news, h' = h ++ news
  | _ => True
  end.

(** What one pair of a patch makes the listeners see, read in the world
    the patch is applied to. *)
Definition pair_invocations (w : World) (kv : string * value) : list call :=
  if strict_equal (state_get kv.1 w) kv.2 then []
  else invocations kv.2 (state_get kv.1 w)
                   (default [] (listeners w !! kv.1)).

(** [subscribe(k, c)] for each [c] of [cs], in this order. *)
Definition subscribe_all (k : string) (cs : list callback) (w : World)
  : World :=
  fold_left (fun w' c => (subscribe k c w').2) cs w.

(** * The utilities of [public/assets/js/core/utils.js] *)

(** ** [getQueryParams]

    [URLSearchParams] belongs to the browser: it turns the query string
    into the sequence of its name and value pairs, which the loop then
    assigns one by one to a new plain object.  The object is given as
    the state is: its prototype and its own properties. *)
Section QueryParams.

Variable URLSearchParams : string -> list (string * string).

(** [result[key] = value] *)
Definition assign_param (h : list object)
    (result : value * list (string * value)) (kv : string * string)
  : value * list (string * value) :=
  prop_set h kv.1 (VString kv.2) result.1 result.2.

Definition getQueryParams (h : list object) (search : string)
  : value * list (string * value) :=
  fold_left (assign_param h) (URLSearchParams search) (VObjectPrototype, []).

End QueryParams.

(** The value of the last pair named [k]. *)
Definition last_param (k : string) (params : list (string * string))
  : option string :=
  snd <$> last (filter (fun kv => kv.1 = k) params).

(** * The API client and the session: [core/api.js] and [core/auth.js]

    The two singletons [api] and [auth] and what they touch of the page
    form one record, [Page].  An [async] method runs from its call to
    the settling of its promise as one step: two calls in flight at the
    same time are outside the model.  [fetch], [JSON] and the [toString]
    of an object belong to the environment and are taken as they are
    typed; the [n]-th call of [fetch] may answer as it likes. *)

(** A [Response]: [response.ok], [response.status], [response.json()]. *)
Record response : Type := mkResponse {
  ok : bool;
  status : Z;
  json_body : list object -> exn + value * list object
}.

Record Page : Type := mkPage {
  api_headers : list (string * value);       (* [api.headers] *)
  auth_token : value;                        (* [auth.token] *)
  auth_user : value;                         (* [auth.user] *)
  page_heap : list object;
  page_storage : gmap string string;         (* [localStorage] *)
  page_console : list (string * exn);        (* [console.error] *)
  location_href : string;                    (* [window.location.href] *)
  unauthorized_listeners : nat;   (* the listeners [auth] has installed *)
  fetched : list (string * value);           (* the calls of [fetch] *)
  dispatched : list string                   (* events sent to [window] *)
}.

Definition with_api_headers (hs : list (string * value)) (p : Page) : Page :=
  mkPage hs (auth_token p) (auth_user p) (page_heap p) (page_storage p)
         (page_console p) (location_href p) (unauthorized_listeners p)
         (fetched p) (dispatched p).

Definition with_auth (token user : value) (p : Page) : Page :=
  mkPage (api_headers p) token user (page_heap p) (page_storage p)
         (page_console p) (location_href p) (unauthorized_listeners p)
         (fetched p) (dispatched p).

Definition with_page_heap (h : list object) (p : Page) : Page :=
  mkPage (api_headers p) (auth_token p) (auth_user p) h (page_storage p)
         (page_console p) (location_href p) (unauthorized_listeners p)
         (fetched p) (dispatched p).

Definition with_page_storage (s : gmap string string) (p : Page) : Page :=
  mkPage (api_headers p) (auth_token p) (auth_user p) (page_heap p) s
         (page_console p) (location_href p) (unauthorized_listeners p)
         (fetched p) (dispatched p).

Definition page_console_error (msg : string) (e : exn) (p : Page) : Page :=
  mkPage (api_headers p) (auth_token p) (auth_user p) (page_heap p)
         (page_storage p) (page_console p ++ [(msg, e)]) (location_href p)
         (unauthorized_listeners p) (fetched p) (dispatched p).

Definition with_location_href (href : string) (p : Page) : Page :=
  mkPage (api_headers p) (auth_token p) (auth_user p) (page_heap p)
         (page_storage p) (page_console p) href (unauthorized_listeners p)
         (fetched p) (dispatched p).

Definition add_unauthorized_listener (p : Page) : Page :=
  mkPage (api_headers p) (auth_token p) (auth_user p) (page_heap p)
         (page_storage p) (page_console p) (location_href p)
         (S (unauthorized_listeners p)) (fetched p) (dispatched p).

Definition record_fetch (url : string) (init : value) (p : Page) : Page :=
  mkPage (api_headers p) (auth_token p) (auth_user p) (page_heap p)
         (page_storage p) (page_console p) (location_href p)
         (unauthorized_listeners p) (fetched p ++ [(url, init)])
         (dispatched p).

Definition record_event (name : string) (p : Page) : Page :=
  mkPage (api_headers p) (auth_token p) (auth_user p) (page_heap p)
         (page_storage p) (page_console p) (location_href p)
         (unauthorized_listeners p) (fetched p) (dispatched p ++ [name]).

(** [delete object[k]] on own properties. *)
Definition own_delete (k : string) (ps : list (string * value))
  : list (string * value) :=
  filter (fun kv => kv.1 <> k) ps.

(** [v.k] for a key [k] that names no built-in property ([headers],
    [status], [message], [errors], [token], [user]): reading it from
    [undefined] or [null] throws, from another primitive or an array
    it gives [undefined]. *)
Definition member (h : list object) (v : value) (k : string) : exn + value :=
  match v with
  | VUndefined | VNull =>
      inl (TypeError "Cannot read properties of undefined or null")
  | VRef l =>
      match h !! l with
      | Some (OObject ps) => inr (default VUndefined (own_get k ps))
      | _ => inr VUndefined
      end
  | _ => inr VUndefined
  end.

(** [error.status] for what a [catch] receives; the errors of the
    language have no such property. *)
Definition error_status (h : list object) (error : exn) : exn + value :=
  match error with
  | Thrown v => member h v "status"
  | _ => inr VUndefined
  end.

(** [localStorage.getItem(k)] *)
Definition getItem (k : string) (p : Page) : value :=
  match page_storage p !! k with
  | Some s => VString s
  | None => VNull
  end.

Definition baseUrl : string := "/api/v1".
Definition tokenKey : string := "cms_auth_token".
Definition userKey : string := "cms_user".

Section Client.

Variable Object_toString : list object -> loc -> string.
Variable JSON_stringify : list object -> held -> exn + option string.
Variable JSON_parse : string -> list object -> exn + value * list object.
Variable fetch : nat -> list object -> string -> value -> exn + response.

(** The string form of a value, as a template or [setItem] takes it. *)
Definition to_string (h : list object) (v : value) : string :=
  match v with
  | VRef l => Object_toString h l
  | _ => to_property_key v
  end.

(** ** [Api] *)

Definition new_Api : list (string * value) :=
  [("Content-Type", VString "application/json");
   ("Accept", VString "application/json")].

(** [setToken(token)] *)
Definition setToken (token : value) (p : Page) : Page :=
  if to_boolean token then
    with_api_headers
      (define_property "Authorization"
         (VString (String.append "Bearer " (to_string (page_heap p) token)))
         (api_headers p)) p
  else with_api_headers (own_delete "Authorization" (api_headers p)) p.

(** [handleResponse(response)] *)
Definition handleResponse (r : response) (h : list object)
  : exn * list object + value * list object :=
  match json_body r h with
  | inl e => inl (e, h)
  | inr (data, h1) =>
      if ok r then inr (data, h1)
      else
        match member h1 data "message" with
        | inl e => inl (e, h1)
        | inr m =>
            let message :=
              if to_boolean m then m else VString "An error occurred" in
            match member h1 data "errors" with
            | inl e => inl (e, h1)
            | inr errors =>
                let '(l, h2) :=
                  alloc (OObject [("status", VNumber (status r));
                                  ("message", message);
                                  ("errors", errors)]) h1 in
                inl (Thrown (VRef l), h2)
            end
        end
  end.

(** [clearSession()] of [Auth], which the listener of the event
    [unauthorized] calls. *)
Definition clearSession (p : Page) : Page :=
  setToken VNull
    (with_page_storage (delete userKey (delete tokenKey (page_storage p)))
       (with_auth VNull VNull p)).

(** The listener that [initEventListeners] installs. *)
Definition on_unauthorized (p : Page) : Page :=
  with_location_href "/login" (clearSession p).

(** [window.dispatchEvent(new CustomEvent('unauthorized'))] *)
Definition dispatch_unauthorized (p : Page) : Page :=
  Nat.iter (unauthorized_listeners p) on_unauthorized
           (record_event "unauthorized" p).

(** The [catch] of [request]. *)
Definition request_catch (error : exn) (p : Page) : (exn + value) * Page :=
  match error_status (page_heap p) error with
  | inl e => (inl e, p)
  | inr s =>
      if strict_equal s (VNumber 401)
      then (inl error, dispatch_unauthorized p)
      else (inl error, p)
  end.

(** [request(endpoint, options = {})] *)
Definition request (endpoint : string) (options : value) (p : Page)
  : (exn + value) * Page :=
  let '(options, h0) := or_empty_object options (page_heap p) in
  let url := String.append baseUrl endpoint in
  match member h0 options "headers" with
  | inl e => request_catch e (with_page_heap h0 p)
  | inr extra =>
      let '(lh, h1) :=
        alloc (OObject (spread h0 extra
                          (fold_left
                             (fun ps kv => define_property kv.1 kv.2 ps)
                             (api_headers p) []))) h0 in
      let '(li, h2) :=
        alloc (OObject (define_property "headers" (VRef lh)
                          (spread h0 options []))) h1 in
      let p1 := record_fetch url (VRef li) (with_page_heap h2 p) in
      match fetch (List.length (fetched p)) h2 url (VRef li) with
      | inl e => request_catch e p1
      | inr r =>
          match handleResponse r h2 with
          | inl (e, h3) => request_catch e (with_page_heap h3 p1)
          | inr (data, h3) => (inr data, with_page_heap h3 p1)
          end
      end
  end.

(** [post(endpoint, data = {})] and [put(endpoint, data = {})] *)
Definition send (method : string) (endpoint : string) (data : value)
    (p : Page) : (exn + value) * Page :=
  let '(data, h0) := or_empty_object data (page_heap p) in
  match JSON_stringify h0 data with
  | inl e => (inl e, with_page_heap h0 p)
  | inr body =>
      let '(l, h1) :=
        alloc (OObject [("method", VString method);
                        ("body", match body with
                                 | Some text => VString text
                                 | None => VUndefined
                                 end)]) h0 in
      request endpoint (VRef l) (with_page_heap h1 p)
  end.

Definition post : string -> value -> Page -> (exn + value) * Page :=
  send "POST".

Definition put : string -> value -> Page -> (exn + value) * Page :=
  send "PUT".

(** ** [Auth] *)

(** [setSession(token, user)]; [JSON.stringify] may throw after the
    token has been stored. *)
Definition setSession (token user : value) (p : Page) : option exn * Page :=
  let p1 := with_auth token user p in
  let p2 :=
    with_page_storage
      (<[tokenKey := to_string (page_heap p) token]> (page_storage p1)) p1 in
  match JSON_stringify (page_heap p) user with
  | inl e => (Some e, p2)
  | inr text =>
      (None,
       setToken token
         (with_page_storage
            (<[userKey := default "undefined" text]> (page_storage p2)) p2))
  end.

(** [new Auth()]: [JSON.parse] is given [null] when nothing is stored,
    and parses its string form. *)
Definition new_Auth (p : Page) : option exn * Page :=
  let token := getItem tokenKey p in
  match JSON_parse (to_property_key (getItem userKey p)) (page_heap p) with
  | inl e => (Some e, p)
  | inr (user, h') =>
      let p1 := with_auth token user (with_page_heap h' p) in
      (None, if to_boolean token then setToken token p1 else p1)
  end.

(** [initEventListeners()]; the body of its interval is empty. *)
Definition initEventListeners (p : Page) : Page :=
  add_unauthorized_listener p.

(** The two statements of the module: [const auth = new Auth()] and
    [auth.initEventListeners()]. *)
Definition load_auth (p : Page) : option exn * Page :=
  match new_Auth p with
  | (Some e, p') => (Some e, p')
  | (None, p') => (None, initEventListeners p')
  end.

Definition isAuthenticated (p : Page) : bool := to_boolean (auth_token p).

Definition getUser (p : Page) : value := auth_user p.

(** [this.setSession(response.token, response.user)] *)
Definition session_of_response (response : value) (p : Page)
  : option exn * Page :=
  match member (page_heap p) response "token" with
  | inl e => (Some e, p)
  | inr token =>
      match member (page_heap p) response "user" with
      | inl e => (Some e, p)
      | inr user => setSession token user p
      end
  end.

(** The body shared by [login] and [refreshToken]: the request, then the
    session, and [clearSession] when either throws. *)
Definition session_or_clear (r : (exn + value) * Page)
  : (exn + value) * Page :=
  match r with
  | (inl error, p1) => (inl error, clearSession p1)
  | (inr response, p1) =>
      match session_of_response response p1 with
      | (Some error, p2) => (inl error, clearSession p2)
      | (None, p2) => (inr response, p2)
      end
  end.

(** [login(email, password)] *)
Definition login (email password : value) (p : Page)
  : (exn + value) * Page :=
  let '(l, h0) :=
    alloc (OObject (define_property "password" password
                      (define_property "email" email []))) (page_heap p) in
  session_or_clear (post "/auth/login" (VRef l) (with_page_heap h0 p)).

(** [register(userData)] *)
Definition register (userData : value) (p : Page) : (exn + value) * Page :=
  match post "/auth/register" userData p with
  | (inl error, p1) => (inl error, p1)
  | (inr response, p1) =>
      match session_of_response response p1 with
      | (Some error, p2) => (inl error, p2)
      | (None, p2) => (inr response, p2)
      end
  end.

(** [logout()] *)
Definition logout (p : Page) : Page :=
  let '(r, p1) := post "/auth/logout" VUndefined p in
  let p2 :=
    match r with
    | inl error => page_console_error "Logout error:" error p1
    | inr _ => p1
    end in
  with_location_href "/login" (clearSession p2).

(** [refreshToken()] *)
Definition refreshToken (p : Page) : (exn + value) * Page :=
  session_or_clear (post "/auth/refresh" VUndefined p).

(** [updateProfile(userData)] *)
Definition updateProfile (userData : value) (p : Page)
  : (exn + value) * Page :=
  match put "/auth/profile" userData p with
  | (inl error, p1) => (inl error, p1)
  | (inr response, p1) =>
      match member (page_heap p1) response "user" with
      | inl e => (inl e, p1)
      | inr user =>
          match setSession (auth_token p1) user p1 with
          | (Some error, p2) => (inl error, p2)
          | (None, p2) => (inr response, p2)
          end
      end
  end.

End Client.

(** ** Reading the page *)

(** Nobody is logged in: no token, no user, no [Authorization] header,
    nothing stored. *)
Definition logged_out (p : Page) : Prop :=
  auth_token p = VNull /\
  auth_user p = VNull /\
  own_get "Authorization" (api_headers p) = None /\
  page_storage p !! tokenKey = None /\
  page_storage p !! userKey = None.

(** The session is what it was: the page differs at most in its heap
    and in the record of the calls of [fetch]. *)
Definition same_session (p p' : Page) : Prop :=
  api_headers p' = api_headers p /\
  auth_token p' = auth_token p /\
  auth_user p' = auth_user p /\
  page_storage p' = page_storage p /\
  page_console p' = page_console p /\
  location_href p' = location_href p /\
  unauthorized_listeners p' = unauthorized_listeners p /\
  dispatched p' = dispatched p.

(** An error of the language or the platform, as opposed to a thrown
    value. *)
Definition language_error (e : exn) : Prop :=
  match e with
  | Thrown _ => False
  | _ => True
  end.

(** [undefined] or [null] *)
Definition nullish (v : value) : bool :=
  match v with
  | VUndefined | VNull => true
  | _ => false
  end.

(** A page that has just been loaded over the storage of [p]: new
    objects, a new [api], no listener yet. *)
Definition reload (h : list object) (href : string) (p : Page) : Page :=
  mkPage new_Api VUndefined VUndefined h (page_storage p) [] href 0 [] [].

(** ** Example pages *)

(** The [toString] of a plain object. *)
Definition plain_toString : list object -> loc -> string :=
  fun _ _ => "[object Object]".

(** A [fetch] that always resolves with [r], and one that always
    rejects with [e]. *)
Definition answer (r : response)
  : nat -> list object -> string -> value -> exn + response :=
  fun _ _ _ _ => inr r.

Definition failure (e : exn)
  : nat -> list object -> string -> value -> exn + response :=
  fun _ _ _ _ => inl e.

(** A body that parses to a new object with the properties [ps]. *)
Definition body_of (ps : list (string * value))
  : list object -> exn + value * list object :=
  fun h => inr (VRef (List.length h), h ++ [OObject ps]).

Definition unauthorized_response : response :=
  mkResponse false 401 (body_of [("message", VString "Token expired")]).

(** A page whose storage is [storage], before the module of [auth]
    runs. *)
Definition new_page (storage : gmap string string) : Page :=
  mkPage new_Api VUndefined VUndefined [] storage [] "/" 0 [] [].

(** A page on which [auth] has been loaded and a session set. *)
Definition signed_in : Page :=
  let p := (load_auth plain_toString mini_parse (new_page ∅)).2 in
  let '(l, h) := alloc (OObject [("name", VString "Ann")]) (page_heap p) in
  (setSession plain_toString mini_stringify (VString "t0k3n") (VRef l)
     (with_page_heap h p)).2.

(** A 401 whose body is not JSON. *)
Definition unauthorized_page_response : response :=
  mkResponse false 401 (fun _ => inl (SyntaxError "Unexpected token <")).

(** A login that is accepted, with a token and a user in the body, and
    one whose body holds neither. *)
Definition accepted_response : response :=
  mkResponse true 200
    (fun h =>
       inr (VRef (S (List.length h)),
            h ++ [OObject [("name", VString "Ann")];
                  OObject [("token", VString "t0k3n");
                           ("user", VRef (List.length h))]])).

Definition empty_response : response :=
  mkResponse true 200 (body_of []).

(** A login that is accepted with a token and no user. *)
Definition token_only_response : response :=
  mkResponse true 200 (body_of [("token", VString "t0k3n")]).

(** ** [isValidEmail]

    Strings hold code units below 256.  A regular expression of the
    kind used here is a sequence of atoms between [^] and [$], each a
    character class taken once or, with [+], once or more; [test]
    matches it the way the engine does, by backtracking: a [+] takes as
    many characters as it can and gives them back one by one while the
    rest of the pattern fails. *)

Inductive atom : Type :=
| One (class : ascii -> bool)
| OneOrMore (class : ascii -> bool).

Fixpoint one_or_more (class : ascii -> bool) (rest : string -> bool)
    (s : string) : bool :=
  match s with
  | EmptyString => false
  | String c s' => class c && (one_or_more class rest s' || rest s')
  end.

(** [re.test(s)] for [re = /^...$/] *)
Fixpoint test (re : list atom) (s : string) : bool :=
  match re with
  | [] => bool_decide (s = EmptyString)
  | One class :: re' =>
      match s with
      | EmptyString => false
      | String c s' => class c && test re' s'
      end
  | OneOrMore class :: re' => one_or_more class (test re') s
  end.

(** [\s] below 256: tab, line feed, vertical tab, form feed, carriage
    return, space and the no-break space. *)
Definition is_space (c : ascii) : bool :=
  let n := nat_of_ascii c in
  ((9 <=? n) && (n <=? 13) || (n =? 32) || (n =? 160))%nat.

Definition is_char (x : ascii) (c : ascii) : bool := bool_decide (c = x).

(** [[^\s@]] *)
Definition not_space_or_at (c : ascii) : bool :=
  negb (is_space c) && negb (is_char "@"%char c).

(** [/^[^\s@]+@[^\s@]+\.[^\s@]+$/] *)
Definition email_re : list atom :=
  [OneOrMore not_space_or_at; One (is_char "@"%char);
   OneOrMore not_space_or_at; One (is_char "."%char);
   OneOrMore not_space_or_at].

(** [toLowerCase] on one code unit below 256: the letters [A] to [Z]
    and the capital letters from 192 to 222, the multiplication sign
    apart. *)
Definition lower (c : ascii) : ascii :=
  let n := nat_of_ascii c in
  if ((65 <=? n) && (n <=? 90)
      || (192 <=? n) && (n <=? 222) && negb (n =? 215))%nat
  then ascii_of_nat (n + 32) else c.

Fixpoint toLowerCase (s : string) : string :=
  match s with
  | EmptyString => EmptyString
  | String c s' => String (lower c) (toLowerCase s')
  end.

Definition isValidEmail (Object_toString : list object -> loc -> string)
    (h : list object) (email : value) : bool :=
  test email_re (toLowerCase (to_string Object_toString h email)).

(** Every character of [s] is in the class. *)
Fixpoint all_in (class : ascii -> bool) (s : string) : bool :=
  match s with
  | EmptyString => true
  | String c s' => class c && all_in class s'
  end.

(** A non-empty string without white space and without [@]. *)
Definition email_part (s : string) : Prop :=
  s <> EmptyString /\ all_in not_space_or_at s = true.

(** ** [debounce] and [throttle]

    The timers of the window, on a clock that counts milliseconds:
    [setTimeout] gives each timer a new identifier, a timer runs once
    when its delay has passed, timers that are due run in the order of
    their due times, and [clearTimeout] removes the timer of the given
    identifier, if it is still waiting.  What a timer runs is kept as a
    task of type [T]. *)

Record Timers (T : Type) : Type := mkTimers {
  now : nat;
  pending : list (nat * nat * T);       (* identifier, due time, task *)
  next_id : nat
}.

Arguments mkTimers {T}.
Arguments now {T}.
Arguments pending {T}.
Arguments next_id {T}.

Definition setTimeout {T} (task : T) (delay : nat) (ts : Timers T)
  : nat * Timers T :=
  (next_id ts,
   mkTimers (now ts) (pending ts ++ [(next_id ts, now ts + delay, task)])
            (S (next_id ts))).

(** [clearTimeout(id)]; [id] is [None] for [undefined]. *)
Definition clearTimeout {T} (id : option nat) (ts : Timers T) : Timers T :=
  match id with
  | Some i =>
      mkTimers (now ts) (filter (fun tm => tm.1.1 <> i) (pending ts))
               (next_id ts)
  | None => ts
  end.

(** The first of the waiting timers that is due at [t] and no later
    than any other. *)
Fixpoint next_due {T} (t : nat) (tms : list (nat * nat * T))
  : option (nat * nat * T) :=
  match tms with
  | [] => None
  | tm :: tms' =>
      match next_due t tms' with
      | Some tm' =>
          if bool_decide (tm.1.2 <= t) && bool_decide (tm.1.2 <= tm'.1.2)
          then Some tm else Some tm'
      | None => if bool_decide (tm.1.2 <= t) then Some tm else None
      end
  end.

(** The clock moves on to [t]: the timers that are due run one after the
    other, each removed before its task runs at its due time. *)
Fixpoint run_until {T St} (timers : St -> Timers T)
    (with_timers : Timers T -> St -> St) (run_task : T -> St -> St)
    (fuel : nat) (t : nat) (s : St) : St :=
  match fuel with
  | 0 =>
      with_timers
        (mkTimers (Nat.max (now (timers s)) t) (pending (timers s))
                  (next_id (timers s))) s
  | S fuel' =>
      match next_due t (pending (timers s)) with
      | Some tm =>
          let ts := clearTimeout (Some tm.1.1) (timers s) in
          run_until timers with_timers run_task fuel' t
            (run_task tm.2
               (with_timers
                  (mkTimers (Nat.max (now ts) tm.1.2) (pending ts)
                            (next_id ts)) s))
      | None =>
          with_timers
            (mkTimers (Nat.max (now (timers s)) t) (pending (timers s))
                      (next_id (timers s))) s
      end
  end.

(** *** [debounce(func, wait)]

    The state of one debounced function: the variable [timeout], the
    timers, and the calls of [func] so far, each with its time and its
    arguments.  The task of a timer is [later], which holds the
    arguments of the call that set it. *)
Record Debounced : Type := mkDebounced {
  timeout : option nat;
  debounce_timers : Timers (list value);
  debounce_calls : list (nat * list value)
}.

Definition with_debounce_timers (ts : Timers (list value)) (d : Debounced)
  : Debounced :=
  mkDebounced (timeout d) ts (debounce_calls d).

(** [later]: [clearTimeout(timeout); func(...args)] *)
Definition later (args : list value) (d : Debounced) : Debounced :=
  mkDebounced (timeout d) (clearTimeout (timeout d) (debounce_timers d))
              (debounce_calls d ++ [(now (debounce_timers d), args)]).

(** [executedFunction(...args)] of [debounce] *)
Definition debounced (wait : nat) (args : list value) (d : Debounced)
  : Debounced :=
  let ts := clearTimeout (timeout d) (debounce_timers d) in
  let '(id, ts') := setTimeout args wait ts in
  mkDebounced (Some id) ts' (debounce_calls d).

Definition new_debounced (start : nat) : Debounced :=
  mkDebounced None (mkTimers start [] 1) [].

(** The debounced function is called with [args] at the time [t]; a
    timer that is due by then has run. *)
Definition debounce_step (wait : nat) (d : Debounced)
    (call : nat * list value) : Debounced :=
  debounced wait call.2
    (run_until debounce_timers with_debounce_timers later
               (List.length (pending (debounce_timers d))) call.1 d).

(** The calls of [func] up to the time [until], when the debounced
    function is called as [calls] say. *)
Definition debounce_run (wait : nat) (calls : list (nat * list value))
    (until : nat) : list (nat * list value) :=
  let d := fold_left (debounce_step wait) calls (new_debounced 0) in
  debounce_calls
    (run_until debounce_timers with_debounce_timers later
               (List.length (pending (debounce_timers d))) until d).

(** A burst after a call at the time [t]: calls in the order of time,
    each sooner than [wait] after the one before. *)
Fixpoint burst (wait : nat) (t : nat) (calls : list (nat * list value))
  : Prop :=
  match calls with
  | [] => True
  | call :: calls' =>
      t <= call.1 /\ call.1 < t + wait /\ burst wait call.1 calls'
  end.

(** The debounced function has been called at [t] with [args], and
    [func] has not been called so far: one timer waits. *)
Definition armed (wait : nat) (id t : nat) (args : list value) : Debounced :=
  mkDebounced (Some id) (mkTimers t [(id, t + wait, args)] (S id)) [].

(** *** [throttle(func, limit)]

    The state of one throttled function: the variable [inThrottle]
    ([undefined] at first, which is as good as [false]), the timers, and
    the calls of [func] so far.  [func] returns or throws; the one task
    a timer runs is [() => inThrottle = false]. *)
Record Throttled : Type := mkThrottled {
  inThrottle : bool;
  throttle_timers : Timers unit;
  throttle_calls : list (nat * list value)
}.

Definition with_throttle_timers (ts : Timers unit) (s : Throttled)
  : Throttled :=
  mkThrottled (inThrottle s) ts (throttle_calls s).

Definition release (task : unit) (s : Throttled) : Throttled :=
  mkThrottled false (throttle_timers s) (throttle_calls s).

(** [executedFunction(...args)] of [throttle]: what it throws, if it
    does, and the new state. *)
Definition throttled (func : list value -> option exn) (limit : nat)
    (args : list value) (s : Throttled) : option exn * Throttled :=
  if inThrottle s then (None, s)
  else
    let calls := throttle_calls s ++ [(now (throttle_timers s), args)] in
    match func args with
    | Some e => (Some e, mkThrottled (inThrottle s) (throttle_timers s) calls)
    | None =>
        let '(_, ts) := setTimeout tt limit (throttle_timers s) in
        (None, mkThrottled true ts calls)
    end.

Definition new_throttled (start : nat) : Throttled :=
  mkThrottled false (mkTimers start [] 1) [].

(** What happens to a throttled function: it is called, or the event
    loop takes its turn and runs the timers that are due.  No timer runs
    within a task, so between two calls only where the schedule says
    so; each event comes with the time on the clock. *)
Inductive event : Type :=
| Called (t : nat) (args : list value)
| TimersRun (t : nat).

Definition at_time (t : nat) (s : Throttled) : Throttled :=
  with_throttle_timers
    (mkTimers t (pending (throttle_timers s)) (next_id (throttle_timers s)))
    s.

(** One event; what a call throws goes to its caller. *)
Definition throttle_step (func : list value -> option exn) (limit : nat)
    (s : Throttled) (e : event) : Throttled :=
  match e with
  | Called t args => (throttled func limit args (at_time t s)).2
  | TimersRun t =>
      run_until throttle_timers with_throttle_timers release
                (List.length (pending (throttle_timers s))) t s
  end.

(** The calls of [func] over a schedule of events. *)
Definition throttle_run (func : list value -> option exn) (limit : nat)
    (events : list event) : list (nat * list value) :=
  throttle_calls
    (fold_left (throttle_step func limit) events (new_throttled 0)).

(** An event that leaves a timer due at [due] waiting. *)
Definition leaves_waiting (due : nat) (e : event) : Prop :=
  match e with
  | Called _ _ => True
  | TimersRun t => t < due
  end.

(** [func] has been let through at [t] with [args]; one timer waits to
    end the throttle. *)
Definition throttling (limit : nat) (t now' : nat) (args : list value)
  : Throttled :=
  mkThrottled true (mkTimers now' [(1, t + limit, tt)] 2) [(t, args)].

(** ** Sequences of calls on the session *)

Inductive session_operation : Type :=
| Request (endpoint : string) (options : value)
| Post (endpoint : string) (data : value)
| Put (endpoint : string) (data : value)
| Login (email password : value)
| Logout
| RefreshToken
| ClearSession
| InitEventListeners.

Definition run_session
    (Object_toString : list object -> loc -> string)
    (JSON_stringify : list object -> held -> exn + option string)
    (fetch : nat -> list object -> string -> value -> exn + response)
    (p : Page) (o : session_operation) : Page :=
  match o with
  | Request endpoint options =>
      (request Object_toString fetch endpoint options p).2
  | Post endpoint data =>
      (post Object_toString JSON_stringify fetch endpoint data p).2
  | Put endpoint data =>
      (put Object_toString JSON_stringify fetch endpoint data p).2
  | Login email password =>
      (login Object_toString JSON_stringify fetch email password p).2
  | Logout => logout Object_toString JSON_stringify fetch p
  | RefreshToken =>
      (refreshToken Object_toString JSON_stringify fetch p).2
  | ClearSession => clearSession Object_toString p
  | InitEventListeners => initEventListeners p
  end.

(** [api] has an [Authorization] header exactly when [auth] says that
    somebody is authenticated. *)
Definition in_sync (p : Page) : Prop :=
  is_Some (own_get "Authorization" (api_headers p)) <->
  isAuthenticated p = true.

(** * Properties *)

(** ** The string form of numbers *)

(** Numbers below [2^53] are written digit by digit; beyond, the digits
    that tell the double from its neighbours are followed by zeros, and
    from [1e21] on by an exponent. *)
Lemma Number_toString_small n :
  (Z.abs n < 2 ^ 53)%Z -> Number_toString n = pretty n.
Proof. intros Hn. unfold Number_toString. by rewrite bool_decide_eq_true_2. Qed.

Lemma Number_toString_examples :
  Number_toString 0 = "0" /\
  Number_toString (-42) = "-42" /\
  Number_toString (2 ^ 53) = "9007199254740992" /\
  Number_toString (2 ^ 60) = "1152921504606847000" /\
  Number_toString 123456789012345680000 = "123456789012345680000" /\
  Number_toString (10 ^ 21) = "1e+21" /\
  Number_toString (- 10 ^ 21) = "-1e+21" /\
  Number_toString (2 ^ 70) = "1.1805916207174113e+21" /\
  Number_toString 99999999999999991611392 = "1e+23".
Proof. by vm_compute. Qed.

(** The property keys of some objects. *)
Lemma ToPropertyKey_examples :
  let h := [OObject []; OObject [("toString", VNumber 1)];
            OArray [VNumber 1; VNull; VString "a"; VRef 0];
            OArray [VRef 2; VRef 3]; OArray [VRef 1]] in
  ToPropertyKey h (VRef 0) = inr "[object Object]" /\
  ToPropertyKey h (VRef 1) =
    inl (TypeError "Cannot convert object to primitive value") /\
  ToPropertyKey h (VRef 2) = inr "1,,a,[object Object]" /\
  ToPropertyKey h (VRef 3) = inr "1,,a,[object Object]," /\
  ToPropertyKey h (VRef 4) =
    inl (TypeError "Cannot convert object to primitive value") /\
  ToPropertyKey h (VNumber (10 ^ 21)) = inr "1e+21".
Proof. by vm_compute. Qed.

(** ** Own properties *)

Lemma own_get_replace_eq k v ps :
  is_Some (own_get k ps) -> own_get k (own_replace k v ps) = Some v.
Proof.
  induction ps as [|[k' v'] ps IH]; simpl.
  - intros [x Hx]. discriminate.
  - case_bool_decide as Hk; simpl.
    + intros _. by rewrite bool_decide_eq_true_2.
    + intros H. rewrite bool_decide_eq_false_2 by done. auto.
Qed.

Lemma own_get_replace_ne k k' v ps :
  k <> k' -> own_get k' (own_replace k v ps) = own_get k' ps.
Proof.
  intros Hne. induction ps as [|[k0 v0] ps IH]; simpl; [done|].
  case_bool_decide as Hk; simpl.
  - subst k0. by rewrite !bool_decide_eq_false_2.
  - by rewrite IH.
Qed.

Lemma own_get_insert_index_eq n k v ps :
  own_get k ps = None -> own_get k (own_insert_index n k v ps) = Some v.
Proof.
  induction ps as [|[k' v'] ps IH]; simpl.
  - intros _. by rewrite bool_decide_eq_true_2.
  - case_bool_decide as Hk; [discriminate|]. intros Hnone.
    destruct (array_index k') as [n'|]; simpl.
    + case_bool_decide; simpl.
      * rewrite bool_decide_eq_false_2 by done. auto.
      * by rewrite bool_decide_eq_true_2.
    + by rewrite bool_decide_eq_true_2.
Qed.

Lemma own_get_insert_index_ne n k k' v ps :
  k <> k' -> own_get k' (own_insert_index n k v ps) = own_get k' ps.
Proof.
  intros Hne. induction ps as [|[k0 v0] ps IH]; simpl.
  - by rewrite bool_decide_eq_false_2.
  - destruct (array_index k0) as [n0|]; simpl.
    + case_bool_decide; simpl.
      * by rewrite IH.
      * by rewrite (bool_decide_eq_false_2 (k = k')).
    + by rewrite (bool_decide_eq_false_2 (k = k')).
Qed.

Lemma own_get_app k ps qs :
  own_get k (ps ++ qs) =
  match own_get k ps with Some v => Some v | None => own_get k qs end.
Proof.
  induction ps as [|[k' v'] ps IH]; simpl; [done|].
  by case_bool_decide.
Qed.

Lemma own_get_define_eq k v ps :
  own_get k (define_property k v ps) = Some v.
Proof.
  unfold define_property. destruct (own_get k ps) as [x|] eqn:Hget.
  - apply own_get_replace_eq. rewrite Hget. eauto.
  - destruct (array_index k).
    + by apply own_get_insert_index_eq.
    + rewrite own_get_app, Hget. simpl. by rewrite bool_decide_eq_true_2.
Qed.

Lemma own_get_define_ne k k' v ps :
  k <> k' -> own_get k' (define_property k v ps) = own_get k' ps.
Proof.
  intros Hne. unfold define_property. destruct (own_get k ps).
  - by apply own_get_replace_ne.
  - destruct (array_index k).
    + by apply own_get_insert_index_ne.
    + rewrite own_get_app. destruct (own_get k' ps); [done|].
      simpl. by rewrite bool_decide_eq_false_2.
Qed.

(** A write to a key other than [__proto__] makes or updates an own
    property. *)
Lemma prop_set_data h k v proto ps :
  k <> "__proto__" ->
  exists ps',
    prop_set h k v proto ps = (proto, ps') /\ own_get k ps' = Some v.
Proof.
  intros Hk. unfold prop_set. destruct (own_get k ps) eqn:Hget.
  - eexists. split; [done|]. apply own_get_replace_eq. rewrite Hget. eauto.
  - rewrite (bool_decide_eq_false_2 (k = "__proto__")) by done. simpl.
    eexists. split; [done|]. apply own_get_define_eq.
Qed.

Lemma state_get_state_set k v w :
  k <> "__proto__" -> state_get k (state_set k v w) = v.
Proof.
  intros Hk. unfold state_get, state_set.
  destruct (prop_set_data (heap w) k v (state_proto w) (state w) Hk)
    as (ps' & -> & Hget).
  simpl. unfold prop_get. by rewrite Hget.
Qed.

(** ** Notification *)

Lemma notify_fold n o cs w :
  fold_left (invoke n o) cs w =
  mkWorld (state w) (state_proto w) (listeners w) (heap w) (localStorage w)
          (functions w)
          (console w ++ listener_errors (functions w) n o cs)
          (calls w ++ invocations n o cs).
Proof.
  revert w. induction cs as [|c cs IH]; intros w; simpl.
  - destruct w; simpl. by rewrite !app_nil_r.
  - rewrite IH. unfold invoke.
    destruct (functions w c n o) as [error|]; simpl;
      by rewrite <- ?app_assoc.
Qed.

Lemma state_set_frame k v w :
  listeners (state_set k v w) = listeners w /\
  heap (state_set k v w) = heap w /\
  localStorage (state_set k v w) = localStorage w /\
  functions (state_set k v w) = functions w /\
  console (state_set k v w) = console w /\
  calls (state_set k v w) = calls w.
Proof.
  unfold state_set.
  by destruct (prop_set (heap w) k v (state_proto w) (state w)).
Qed.

(** [setState] on a string key, by cases on the comparison and on the
    presence of a [Set] for the key. *)
Lemma setState_string k v w :
  setState (VString k) v w =
  let w1 := state_set k v w in
  if strict_equal (state_get k w) v then w1
  else match listeners w !! k with
       | Some cs => fold_left (invoke v (state_get k w)) cs w1
       | None => w1
       end.
Proof.
  unfold setState, notifyListeners. simpl.
  destruct (strict_equal (state_get k w) v); simpl; [done|].
  by destruct (state_set_frame k v w) as (-> & _).
Qed.

Lemma set_string k v w : set (VString k) v w = Ok (setState (VString k) v w).
Proof. done. Qed.

(** The trace after [setState]: nothing new when the value is the same,
    one invocation per registered listener otherwise. *)
Lemma setState_calls k v w :
  calls (setState (VString k) v w) =
  calls w ++
  (if strict_equal (state_get k w) v then []
   else invocations v (state_get k w) (default [] (listeners w !! k))).
Proof.
  rewrite setState_string. simpl.
  destruct (state_set_frame k v w) as (_ & _ & _ & _ & _ & Hc).
  destruct (strict_equal (state_get k w) v).
  - by rewrite app_nil_r.
  - destruct (listeners w !! k) as [cs|]; simpl.
    + rewrite notify_fold. simpl. by rewrite Hc.
    + by rewrite app_nil_r.
Qed.

Lemma setState_console k v w :
  console (setState (VString k) v w) =
  console w ++
  (if strict_equal (state_get k w) v then []
   else listener_errors (functions w) v (state_get k w)
          (default [] (listeners w !! k))).
Proof.
  rewrite setState_string. simpl.
  destruct (state_set_frame k v w) as (_ & _ & _ & Hf & Hc & _).
  destruct (strict_equal (state_get k w) v).
  - by rewrite app_nil_r.
  - destruct (listeners w !! k) as [cs|]; simpl.
    + rewrite notify_fold. simpl. by rewrite Hc, Hf.
    + by rewrite app_nil_r.
Qed.

Lemma setState_listeners key v w :
  listeners (setState key v w) = listeners w.
Proof.
  unfold setState, notifyListeners.
  destruct (state_set_frame (to_property_key key) v w) as (Hl & _).
  destruct (negb _); [|done].
  destruct (Map_get _ key); [|done].
  by rewrite notify_fold.
Qed.

Lemma new_calls_app w w' cs : calls w' = calls w ++ cs -> new_calls w w' = cs.
Proof. unfold new_calls. intros ->. by rewrite drop_app_length. Qed.

Lemma new_errors_app w w' es :
  console w' = console w ++ es -> new_errors w w' = es.
Proof. unfold new_errors. intros ->. by rewrite drop_app_length. Qed.

(** ** Sets of listeners *)

Lemma calls_of_invocations_absent c n o cs :
  Set_has c cs = false -> calls_of c (invocations n o cs) = [].
Proof.
  unfold calls_of, invocations, Set_has.
  induction cs as [|c' cs IH]; simpl; [done|].
  intros [H1 H2]%orb_false_iff. rewrite H1. auto.
Qed.

Lemma Set_has_false_notin c cs :
  Set_has c cs = false <-> c ∉ cs.
Proof.
  unfold Set_has. induction cs as [|c' cs IH]; simpl.
  - split; [intros _; apply not_elem_of_nil|done].
  - rewrite orb_false_iff, IH, not_elem_of_cons, Nat.eqb_neq.
    split; intros [H1 H2]; split; auto.
Qed.

Lemma calls_of_invocations_member c n o cs :
  NoDup cs -> Set_has c cs = true ->
  calls_of c (invocations n o cs) = [Call c n o].
Proof.
  induction cs as [|c' cs IH]; simpl; [done|].
  intros [Hnotin Hnd]%NoDup_cons. unfold Set_has. simpl.
  destruct (Nat.eqb c' c) eqn:Heq; simpl.
  - intros _. apply Nat.eqb_eq in Heq. subst c'.
    f_equal. apply calls_of_invocations_absent.
    by apply Set_has_false_notin.
  - intros H. by apply IH.
Qed.

Lemma Set_has_add c cs : Set_has c (Set_add c cs) = true.
Proof.
  unfold Set_add. destruct (Set_has c cs) eqn:H; [done|].
  unfold Set_has. rewrite existsb_app. simpl.
  by rewrite Nat.eqb_refl, orb_true_r.
Qed.

Lemma Set_add_NoDup c cs : NoDup cs -> NoDup (Set_add c cs).
Proof.
  intros Hnd. unfold Set_add. destruct (Set_has c cs) eqn:H; [done|].
  apply NoDup_app. split_and!; [done| |].
  - intros x Hx ->%list_elem_of_singleton.
    by apply Set_has_false_notin in H.
  - apply NoDup_singleton.
Qed.

Lemma subscribe_listeners k c w :
  listeners (subscribe k c w).2 =
  <[k := Set_add c (default [] (listeners w !! k))]> (listeners w).
Proof.
  unfold subscribe. simpl. destruct (listeners w !! k) as [cs|] eqn:H.
  - by rewrite H.
  - by rewrite lookup_insert_eq, insert_insert_eq.
Qed.

Lemma subscribe_wf k c w : listeners_wf w -> listeners_wf (subscribe k c w).2.
Proof.
  unfold listeners_wf. rewrite subscribe_listeners. intros Hwf.
  apply map_Forall_insert_2; [|done].
  apply Set_add_NoDup. destruct (listeners w !! k) as [cs|] eqn:H; simpl.
  - by apply (Hwf k cs).
  - apply NoDup_nil_2.
Qed.

(** C1.  After [subscribe(k, c)], [set(k, v)] returns normally; when [v]
    is strictly equal to the current value of [k] no listener is invoked,
    and when it is not, [c] is invoked exactly once, with the new value
    and the old one. *)
Theorem change_gated_notification (k : string) (c : callback) (v : value)
    (w : World) :
  listeners_wf w ->
  let w1 := (subscribe k c w).2 in
  let old := state_get k w1 in
  exists w2,
    set (VString k) v w1 = Ok w2 /\
    (strict_equal old v = true -> calls w2 = calls w1) /\
    (strict_equal old v = false ->
     calls_of c (new_calls w1 w2) = [Call c v old]).
Proof.
  intros Hwf w1 old. exists (setState (VString k) v w1).
  split; [done|].
  pose proof (setState_calls k v w1) as Hcalls. fold old in Hcalls.
  split; intros Heq; rewrite Heq in Hcalls.
  - by rewrite app_nil_r in Hcalls.
  - rewrite (new_calls_app _ _ _ Hcalls).
    unfold w1. rewrite subscribe_listeners, lookup_insert_eq. simpl.
    apply calls_of_invocations_member; [|apply Set_has_add].
    apply Set_add_NoDup.
    destruct (listeners w !! k) as [cs|] eqn:H; simpl.
    + by apply (Hwf k cs).
    + apply NoDup_nil_2.
Qed.

Lemma change_gated_notification_witness :
  listeners_wf example_store /\
  exists w2,
    set (VString "loading") (VBool true)
        (subscribe "loading" 1 example_store).2 = Ok w2 /\
    calls_of 1 (new_calls (subscribe "loading" 1 example_store).2 w2) =
    [Call 1 (VBool true) (VBool false)].
Proof.
  assert (Hwf : listeners_wf example_store)
    by (apply (bool_decide_unpack _); vm_compute; exact I).
  split; [exact Hwf|].
  destruct (change_gated_notification "loading" 1 (VBool true)
              example_store Hwf) as (w2 & Hset & _ & Hfire).
  exists w2. split; [exact Hset|]. apply Hfire. reflexivity.
Defined.

Lemma Set_has_delete_same c cs : Set_has c (Set_delete c cs) = false.
Proof.
  unfold Set_has, Set_delete. induction cs as [|c' cs IH]; simpl; [done|].
  destruct (Nat.eqb c' c) eqn:Heq; simpl; [done|].
  by rewrite Heq.
Qed.

Lemma Set_has_delete_other c c' cs :
  c' <> c -> Set_has c' (Set_delete c cs) = Set_has c' cs.
Proof.
  intros Hne. unfold Set_has, Set_delete.
  induction cs as [|c0 cs IH]; simpl; [done|].
  destruct (Nat.eqb c0 c) eqn:Heq; simpl.
  - apply Nat.eqb_eq in Heq. rewrite IH.
    destruct (Nat.eqb c0 c') eqn:Heq'; [|done].
    apply Nat.eqb_eq in Heq'. congruence.
  - by rewrite IH.
Qed.

Lemma Set_has_add_other c c' cs :
  Set_has c' cs = true -> Set_has c' (Set_add c cs) = true.
Proof.
  intros H. unfold Set_add. destruct (Set_has c cs); [done|].
  unfold Set_has in *. rewrite existsb_app. by apply orb_true_intro; left.
Qed.

Lemma Set_delete_NoDup c cs : NoDup cs -> NoDup (Set_delete c cs).
Proof.
  unfold Set_delete. induction cs as [|c' cs IH]; simpl; [done|].
  intros [Hnotin Hnd]%NoDup_cons.
  destruct (negb _); simpl; [|auto].
  apply NoDup_cons. split; [|auto].
  intros Hin. apply Hnotin.
  apply list_elem_of_In, List.filter_In in Hin. apply list_elem_of_In. tauto.
Qed.

Lemma Set_delete_absent c cs : Set_has c cs = false -> Set_delete c cs = cs.
Proof.
  unfold Set_has, Set_delete. induction cs as [|c' cs IH]; simpl; [done|].
  intros [H1 H2]%orb_false_iff. rewrite H1. simpl. by rewrite IH.
Qed.

Lemma wf_lookup w k :
  listeners_wf w -> NoDup (default [] (listeners w !! k)).
Proof.
  intros Hwf. destruct (listeners w !! k) as [cs|] eqn:H; simpl.
  - by apply (Hwf k cs).
  - apply NoDup_nil_2.
Qed.

(** C5.  With [c1] and [c2] subscribed to [k] in this order and [c1]
    throwing [e] when invoked, a value-changing [set(k, v)] returns
    normally, invokes the listeners of [k] in registration order, [c1]
    and [c2] exactly once each, and logs [e]. *)
Theorem listener_error_isolation (k : string) (c1 c2 : callback) (v : value)
    (e : exn) (w : World) :
  listeners_wf w ->
  c1 <> c2 ->
  let w1 := (subscribe k c2 (subscribe k c1 w).2).2 in
  let old := state_get k w1 in
  strict_equal old v = false ->
  functions w c1 v old = Some e ->
  exists w2,
    set (VString k) v w1 = Ok w2 /\
    new_calls w1 w2 =
      invocations v old
        (Set_add c2 (Set_add c1 (default [] (listeners w !! k)))) /\
    calls_of c1 (new_calls w1 w2) = [Call c1 v old] /\
    calls_of c2 (new_calls w1 w2) = [Call c2 v old] /\
    ("Error in state listener:", e) ∈ new_errors w1 w2.
Proof.
  intros Hwf Hne w1 old Hchanged Hthrows.
  exists (setState (VString k) v w1). split; [done|].
  pose proof (setState_calls k v w1) as Hcalls.
  pose proof (setState_console k v w1) as Hcons.
  fold old in Hcalls, Hcons. rewrite Hchanged in Hcalls, Hcons.
  assert (Hl : default [] (listeners w1 !! k) =
               Set_add c2 (Set_add c1 (default [] (listeners w !! k)))).
  { unfold w1. by rewrite !subscribe_listeners, !lookup_insert_eq. }
  rewrite Hl in Hcalls, Hcons.
  rewrite (new_calls_app _ _ _ Hcalls), (new_errors_app _ _ _ Hcons).
  pose proof (Set_add_NoDup c2 _ (Set_add_NoDup c1 _ (wf_lookup w k Hwf)))
    as Hnd.
  assert (Hin : Set_has c1
                  (Set_add c2 (Set_add c1 (default [] (listeners w !! k))))
                = true) by apply Set_has_add_other, Set_has_add.
  split_and!; [done| | |].
  - by apply calls_of_invocations_member.
  - apply calls_of_invocations_member; [done|]. apply Set_has_add.
  - apply list_elem_of_omap. exists c1.
    change (functions w1) with (functions w). rewrite Hthrows.
    split; [|done].
    destruct (Set_has c1 _) eqn:Hhas in Hin; [|done].
    destruct (decide (c1 ∈ Set_add c2
                (Set_add c1 (default [] (listeners w !! k))))) as [|Hn];
      [done|].
    apply Set_has_false_notin in Hn. congruence.
Qed.

Lemma listener_error_isolation_witness :
  exists w2,
    set (VString "loading") (VBool true)
        (subscribe "loading" 1 (subscribe "loading" 2 example_store).2).2
    = Ok w2 /\
    calls w2 = [Call 2 (VBool true) (VBool false);
                Call 1 (VBool true) (VBool false)] /\
    console w2 = [("Error in state listener:", Thrown (VString "boom"))].
Proof.
  destruct (listener_error_isolation "loading" 2 1 (VBool true)
              (Thrown (VString "boom")) example_store)
    as (w2 & Hset & Hcalls & _ & _ & _);
    [apply (bool_decide_unpack _); vm_compute; exact I
    | lia | reflexivity | reflexivity |].
  exists w2. split; [exact Hset|].
  injection Hset as <-. split; reflexivity.
Defined.

(** ** Reading back what was written *)

Lemma setState_store k v w :
  state (setState (VString k) v w) = state (state_set k v w) /\
  state_proto (setState (VString k) v w) = state_proto (state_set k v w) /\
  heap (setState (VString k) v w) = heap (state_set k v w) /\
  localStorage (setState (VString k) v w) = localStorage w /\
  functions (setState (VString k) v w) = functions w.
Proof.
  rewrite setState_string. simpl.
  destruct (state_set_frame k v w) as (_ & _ & Hs & Hf & _).
  destruct (strict_equal _ _); [done|].
  destruct (listeners w !! k); [|done].
  by rewrite notify_fold.
Qed.

Lemma state_get_setState k v w :
  state_get k (setState (VString k) v w) = state_get k (state_set k v w).
Proof.
  destruct (setState_store k v w) as (Hs & Hp & Hh & _).
  unfold state_get. by rewrite Hs, Hp, Hh.
Qed.

(** C2, as stated, fails: [get] takes the empty key for a missing
    argument and hands back the whole state object. *)
Lemma read_after_write_empty_key :
  ~ (forall (k : string) (v : value) (w : World),
       exists w', set (VString k) v w = Ok w' /\ get (Some k) w' = Value v).
Proof.
  intros Hclaim.
  destruct (Hclaim EmptyString (VNumber 1) example_store)
    as (w' & Hset & Hget).
  discriminate Hget.
Qed.

(** The inherited accessor [__proto__] is another key that does not read
    back: a primitive written to it is dropped. *)
Lemma read_after_write_proto_key :
  exists w',
    set (VString "__proto__") (VNumber 1) example_store = Ok w' /\
    get (Some "__proto__") w' = Value VObjectPrototype.
Proof. eexists. split; reflexivity. Qed.

(** C2, amended.  For every key other than the empty string and
    [__proto__], [set(k, v)] returns normally and [get(k)] then returns
    [v]. *)
Theorem read_after_write (k : string) (v : value) (w : World) :
  k <> EmptyString ->
  k <> "__proto__" ->
  exists w', set (VString k) v w = Ok w' /\ get (Some k) w' = Value v.
Proof.
  intros Hne Hproto. exists (setState (VString k) v w). split; [done|].
  unfold get. simpl. rewrite bool_decide_eq_false_2 by done. simpl.
  by rewrite state_get_setState, state_get_state_set.
Qed.

Lemma read_after_write_witness :
  exists w',
    set (VString "theme") (VString "dark") example_store = Ok w' /\
    get (Some "theme") w' = Value (VString "dark").
Proof. apply (read_after_write "theme" (VString "dark")); discriminate. Defined.

(** ** Bulk writes *)

Lemma set_each_pair_fold entries w :
  set_each_pair entries w =
  Ok (fold_left (fun w' kv => setState (VString kv.1) kv.2 w') entries w).
Proof.
  unfold set_each_pair. revert w.
  induction entries as [|kv entries IH]; intros w; [done|].
  cbn [fold_left]. rewrite set_string. apply IH.
Qed.

(** C6.  For a patch that is an object and not [null], [set(patch)] ends
    as the single-key [set] called for each pair of the patch in turn
    does: same result, same world, and so the same state and the same
    sequence of listener invocations. *)
Theorem bulk_set_refines_single_sets (patch ignored : value) (w : World) :
  typeof patch = "object" ->
  patch <> VNull ->
  set patch ignored w = set_each_pair (own_enumerable (heap w) patch) w.
Proof.
  intros Hobj Hnull. rewrite set_each_pair_fold. unfold set.
  rewrite bool_decide_eq_true_2 by done.
  destruct patch; try done.
Qed.

Lemma bulk_set_refines_single_sets_witness :
  set (VRef 3) VUndefined patch_store =
  set_each_pair [("loading", VBool true); ("sidebarOpen", VBool false)]
                patch_store.
Proof.
  apply (bulk_set_refines_single_sets (VRef 3) VUndefined patch_store);
    [reflexivity | discriminate].
Defined.

(** ** Initialisation *)

Lemma spread_entry h source target k :
  own_get k (spread h source target) =
  match entry k (own_enumerable h source) with
  | Some v => Some v
  | None => own_get k target
  end.
Proof.
  unfold spread, entry. revert target.
  induction (own_enumerable h source) as [|[k' v'] ps IH]; intros target;
    [done|].
  cbn [fold_left rev]. rewrite IH, own_get_app. simpl.
  destruct (own_get k (rev ps)); [done|].
  case_bool_decide as Hk.
  - subst k'. apply own_get_define_eq.
  - by apply own_get_define_ne.
Qed.

(** The objects [init] allocates are empty, so a seed sees the same
    properties in the heap [init] leaves as in the one it found. *)
Lemma own_enumerable_init_heap h v os :
  Forall (fun o => o = OObject [] \/ o = OArray []) os ->
  own_enumerable (h ++ os) v = own_enumerable h v.
Proof.
  intros Hempty. destruct v; try done. unfold own_enumerable.
  destruct (decide (l < List.length h)) as [Hlt|Hge].
  - by rewrite lookup_app_l.
  - assert (Hnone : h !! l = None) by (apply lookup_ge_None_2; lia).
    rewrite Hnone.
    destruct ((h ++ os) !! l) as [o|] eqn:Hl; [|done].
    rewrite lookup_app_r in Hl by lia.
    apply list_elem_of_lookup_2 in Hl.
    rewrite Forall_forall in Hempty.
    by destruct (Hempty o Hl) as [-> | ->].
Qed.

(** [init] by cases on the seed: the default [{}] is one more empty
    object. *)
Lemma init_state seed w :
  exists (os : list object) notifications errors,
    init seed w =
      with_state
        (spread (heap w ++ os) seed
           (defaults (stored_theme w) notifications errors))
        (with_state_proto VObjectPrototype (with_heap (heap w ++ os) w)) /\
    Forall (fun o => o = OObject [] \/ o = OArray []) os /\
    (heap w ++ os) !! notifications = Some (OArray []) /\
    (heap w ++ os) !! errors = Some (OObject []) /\
    List.length (heap w) <= notifications /\
    List.length (heap w) <= errors.
Proof.
  destruct (decide (seed = VUndefined)) as [->|Hseed].
  - exists [OObject []; OArray []; OObject []],
      (S (List.length (heap w))), (S (S (List.length (heap w)))).
    split_and!; try lia.
    + unfold init, alloc, defaults, stored_theme. simpl.
      rewrite !length_app. simpl.
      replace (((heap w ++ [OObject []]) ++ [OArray []]) ++ [OObject []])
        with (heap w ++ [OObject []; OArray []; OObject []])
        by (by rewrite <- !app_assoc).
      replace (List.length (heap w) + 1) with (S (List.length (heap w)))
        by lia.
      replace (S (List.length (heap w)) + 1)
        with (S (S (List.length (heap w)))) by lia.
      unfold spread at 1.
      assert (Hfresh :
        own_enumerable (heap w ++ [OObject []; OArray []; OObject []])
                       (VRef (List.length (heap w))) = []).
      { simpl. by rewrite list_lookup_middle. }
      by rewrite Hfresh.
    + repeat (apply Forall_cons; split; [by auto|]). apply Forall_nil_2.
    + replace (heap w ++ [OObject []; OArray []; OObject []])
        with ((heap w ++ [OObject []]) ++ OArray [] :: [OObject []])
        by (by rewrite <- app_assoc).
      apply list_lookup_middle. rewrite length_app. simpl. lia.
    + replace (heap w ++ [OObject []; OArray []; OObject []])
        with ((heap w ++ [OObject []; OArray []]) ++ OObject [] :: [])
        by (by rewrite <- app_assoc).
      apply list_lookup_middle. rewrite length_app. simpl. lia.
  - exists [OArray []; OObject []],
      (List.length (heap w)), (S (List.length (heap w))).
    split_and!; try lia.
    + assert (Hinit :
        init seed w =
        with_state
          (spread ((heap w ++ [OArray []]) ++ [OObject []]) seed
             (defaults (stored_theme w) (List.length (heap w))
                (List.length (heap w ++ [OArray []]))))
          (with_state_proto VObjectPrototype
             (with_heap ((heap w ++ [OArray []]) ++ [OObject []]) w)))
        by (by destruct seed).
      rewrite Hinit, length_app, <- app_assoc. simpl.
      by replace (List.length (heap w) + 1) with (S (List.length (heap w)))
        by lia.
    + repeat (apply Forall_cons; split; [by auto|]). apply Forall_nil_2.
    + by apply list_lookup_middle.
    + replace (heap w ++ [OArray []; OObject []])
        with ((heap w ++ [OArray []]) ++ OObject [] :: [])
        by (by rewrite <- app_assoc).
      apply list_lookup_middle. rewrite length_app. simpl. lia.
Qed.

(** The default [{}] of [reset] is the one [init] would have made. *)
Lemma reset_init seed w : reset seed w = init seed w.
Proof. destruct w. by destruct seed. Qed.

(** C8.  [reset(seed)] is [init(seed)]: it invokes no listener, logs
    nothing, leaves every [Set] of listeners as it was, and leaves a
    state whose properties are the seed's where the seed has the key and
    the defaults elsewhere, over two fresh empty containers. *)
Theorem reset_is_silent_init (seed : value) (w : World) :
  reset seed w = init seed w /\
  calls (reset seed w) = calls w /\
  console (reset seed w) = console w /\
  listeners (reset seed w) = listeners w /\
  exists notifications errors,
    heap (reset seed w) !! notifications = Some (OArray []) /\
    heap (reset seed w) !! errors = Some (OObject []) /\
    List.length (heap w) <= notifications /\
    List.length (heap w) <= errors /\
    forall k,
      own_get k (state (reset seed w)) =
      match entry k (own_enumerable (heap w) seed) with
      | Some v => Some v
      | None => own_get k (defaults (stored_theme w) notifications errors)
      end.
Proof.
  rewrite reset_init. split; [done|].
  destruct (init_state seed w)
    as (os & n & e & -> & Hempty & Hn & He & Hln & Hle).
  simpl. split_and!; try done.
  exists n, e. split_and!; try done.
  intros k. by rewrite spread_entry, own_enumerable_init_heap.
Qed.

(** ** The invariant of the listener sets *)

Lemma set_listeners keyOrObject v w :
  listeners (world_of (set keyOrObject v w)) = listeners w.
Proof.
  unfold set. case_bool_decide; [|apply setState_listeners].
  destruct (Object_entries (heap w) keyOrObject) as [e|entries]; [done|].
  simpl. revert w. induction entries as [|kv entries IH]; intros w; [done|].
  cbn [fold_left]. rewrite IH. apply setState_listeners.
Qed.

Lemma call_unsubscribe_wf u w :
  listeners_wf w -> listeners_wf (call_unsubscribe u w).
Proof.
  unfold listeners_wf, call_unsubscribe. intros Hwf.
  destruct (listeners w !! un_key u) as [cs|] eqn:H; [|done]. simpl.
  apply map_Forall_insert_2; [|done].
  apply Set_delete_NoDup. by apply (Hwf (un_key u) cs).
Qed.

(** No call but [subscribe] and the unsubscribe handle touches
    [this.listeners]. *)
Lemma run_listeners o w :
  (forall k c, o <> Subscribe k c) ->
  (forall u, o <> CallUnsubscribe u) ->
  listeners (run o w) = listeners w.
Proof.
  intros Hsub Hun.
  destruct o as [seed|seed|keyOrObject v|k c|u|k|k item|k predicate
                 |k predicate updates|stringify k|parse k]; simpl.
  - by destruct (init_state seed w) as (os & n & e & -> & _).
  - rewrite reset_init.
    by destruct (init_state seed w) as (os & n & e & -> & _).
  - apply set_listeners.
  - by destruct (Hsub k c).
  - by destruct (Hun u).
  - unfold toggle. destruct (ToPropertyKey (heap w) k) as [e|k']; [done|].
    destruct (state_get k' w) as [[]|]; try done.
    by rewrite set_listeners.
  - unfold addItem, alloc.
    destruct (ToPropertyKey (heap w) k) as [e|k']; [done|].
    destruct (state_get k' w) as [[]|]; try done.
    destruct (heap w !! l) as [[ps|es]|]; try done.
    by rewrite set_listeners.
  - unfold removeItem, alloc.
    destruct (ToPropertyKey (heap w) k) as [e|k']; [done|].
    destruct (state_get k' w) as [[]|]; try done.
    destruct (heap w !! l) as [[ps|es]|]; try done.
    destruct (Array_filter _ es); [done|]. by rewrite set_listeners.
  - unfold updateItem, alloc.
    destruct (ToPropertyKey (heap w) k) as [e|k']; [done|].
    destruct (state_get k' w) as [[]|]; try done.
    destruct (heap w !! l) as [[ps|es]|]; try done.
    destruct (Array_map _ _ es) as [[e h1]|[rs h1]]; [done|].
    by rewrite set_listeners.
  - unfold persist. by destruct (stringify _ _).
  - unfold loadPersisted. destruct (localStorage w !! k); [|done].
    destruct (to_boolean _); [|done].
    destruct (parse _ _) as [e|[parsed h']]; [done|].
    pose proof (set_listeners (VString k) parsed (with_heap h' w)) as Hl.
    by destruct (set (VString k) parsed (with_heap h' w)).
Qed.

Lemma run_wf o w : listeners_wf w -> listeners_wf (run o w).
Proof.
  intros Hwf. destruct o;
    try (unfold listeners_wf; by rewrite run_listeners).
  - by apply subscribe_wf.
  - by apply call_unsubscribe_wf.
Qed.

(** Every world a program reaches keeps each listener at most once in
    each [Set]. *)
Lemma reachable_wf w : reachable w -> listeners_wf w.
Proof.
  intros (h & storage & code & os & ->).
  unfold run_all. induction os as [|o os IH] using rev_ind.
  - apply map_Forall_empty.
  - rewrite fold_left_app. simpl. by apply run_wf.
Qed.

(** ** Unsubscribing *)

Lemma call_unsubscribe_listeners k c w :
  listeners (call_unsubscribe (Unsubscribe k c) w) =
  match listeners w !! k with
  | Some cs => <[k := Set_delete c cs]> (listeners w)
  | None => listeners w
  end.
Proof. unfold call_unsubscribe. simpl. by destruct (listeners w !! k). Qed.

Lemma with_listeners_same w : with_listeners (listeners w) w = w.
Proof. by destruct w. Qed.

(** Calling the handle in a world where its callback is not in the [Set]
    changes nothing. *)
Lemma call_unsubscribe_absent k c w :
  Set_has c (default [] (listeners w !! k)) = false ->
  call_unsubscribe (Unsubscribe k c) w = w.
Proof.
  unfold call_unsubscribe. simpl.
  destruct (listeners w !! k) as [cs|] eqn:H; simpl; [|done].
  intros Hhas. rewrite Set_delete_absent by done.
  rewrite insert_id by done. apply with_listeners_same.
Qed.

Lemma Set_has_add_ne c c' cs :
  c' <> c -> Set_has c (Set_add c' cs) = Set_has c cs.
Proof.
  intros Hne. unfold Set_add. destruct (Set_has c' cs); [done|].
  unfold Set_has. rewrite existsb_app. simpl.
  apply Nat.eqb_neq in Hne. by rewrite Hne, !orb_false_r.
Qed.

Lemma Set_has_delete_false c c' cs :
  Set_has c cs = false -> Set_has c (Set_delete c' cs) = false.
Proof.
  intros Habs. destruct (decide (c = c')) as [->|Hne].
  - apply Set_has_delete_same.
  - by rewrite Set_has_delete_other.
Qed.

(** A callback that is not in the [Set] of [k] stays out of it, whatever
    is called, short of subscribing it to [k]. *)
Lemma run_keeps_unsubscribed k c o w :
  o <> Subscribe k c ->
  Set_has c (default [] (listeners w !! k)) = false ->
  Set_has c (default [] (listeners (run o w) !! k)) = false.
Proof.
  intros Ho Habs.
  destruct o as [seed|seed|keyOrObject v|k' c'|[k' c']|k'|k' item
                 |k' predicate|k' predicate updates|stringify k'|parse k'];
    try (by rewrite run_listeners).
  - cbn [run]. rewrite subscribe_listeners.
    destruct (decide (k' = k)) as [->|Hk].
    + rewrite lookup_insert_eq. simpl. rewrite Set_has_add_ne; [done|].
      intros ->. by apply Ho.
    + by rewrite lookup_insert_ne.
  - cbn [run]. rewrite call_unsubscribe_listeners.
    destruct (listeners w !! k') as [cs|] eqn:Hcs; [|done].
    destruct (decide (k' = k)) as [->|Hk].
    + rewrite lookup_insert_eq. simpl. apply Set_has_delete_false.
      by rewrite Hcs in Habs.
    + by rewrite lookup_insert_ne.
Qed.

Lemma run_all_keeps_unsubscribed k c os w :
  never_subscribes k c os ->
  Set_has c (default [] (listeners w !! k)) = false ->
  Set_has c (default [] (listeners (run_all os w) !! k)) = false.
Proof.
  unfold never_subscribes, run_all. intros Hos. revert w.
  induction Hos as [|o os Ho Hos IH]; intros w Habs; [done|].
  simpl. apply IH. by apply run_keeps_unsubscribed.
Qed.

Lemma run_all_wf os w : listeners_wf w -> listeners_wf (run_all os w).
Proof.
  unfold run_all. revert w.
  induction os as [|o os IH]; intros w Hwf; [done|].
  simpl. apply IH. by apply run_wf.
Qed.

(** A callback that is in the [Set] of [k] stays in it, whatever is
    called, short of a handle of its subscription to [k]. *)
Lemma run_keeps_subscribed k c o w :
  o <> CallUnsubscribe (Unsubscribe k c) ->
  Set_has c (default [] (listeners w !! k)) = true ->
  Set_has c (default [] (listeners (run o w) !! k)) = true.
Proof.
  intros Ho Hhas.
  destruct o as [seed|seed|keyOrObject v|k' c'|[k' c']|k'|k' item
                 |k' predicate|k' predicate updates|stringify k'|parse k'];
    try (by rewrite run_listeners).
  - cbn [run]. rewrite subscribe_listeners.
    destruct (decide (k' = k)) as [->|Hk].
    + rewrite lookup_insert_eq. simpl. by apply Set_has_add_other.
    + by rewrite lookup_insert_ne.
  - cbn [run]. rewrite call_unsubscribe_listeners.
    destruct (listeners w !! k') as [cs|] eqn:Hcs; [|done].
    destruct (decide (k' = k)) as [->|Hk].
    + rewrite lookup_insert_eq. simpl. rewrite Hcs in Hhas.
      rewrite Set_has_delete_other; [done|].
      intros ->. by apply Ho.
    + by rewrite lookup_insert_ne.
Qed.

Lemma run_all_keeps_subscribed k c os w :
  never_unsubscribes k c os ->
  Set_has c (default [] (listeners w !! k)) = true ->
  Set_has c (default [] (listeners (run_all os w) !! k)) = true.
Proof.
  unfold never_unsubscribes, run_all. intros Hos. revert w.
  induction Hos as [|o os Ho Hos IH]; intros w Hhas; [done|].
  simpl. apply IH. by apply run_keeps_subscribed.
Qed.

(** A value-changing [set(k, v)] invokes a member of the [Set] of [k]
    once, with the new and the old value. *)
Lemma set_invokes_member k c (v : value) w :
  listeners_wf w ->
  Set_has c (default [] (listeners w !! k)) = true ->
  strict_equal (state_get k w) v = false ->
  exists w',
    set (VString k) v w = Ok w' /\
    calls_of c (new_calls w w') = [Call c v (state_get k w)].
Proof.
  intros Hwf Hhas Hchanged.
  exists (setState (VString k) v w). split; [done|].
  pose proof (setState_calls k v w) as Hcalls.
  rewrite Hchanged in Hcalls. rewrite (new_calls_app _ _ _ Hcalls).
  apply calls_of_invocations_member; [by apply wf_lookup|done].
Qed.

(** C9, as stated, fails: the handle removes the callback from the
    [Set], it does not bar it.  Subscribed to the key again, the
    callback is invoked by the next [set], and the old handle, invoked
    once more, is no no-op: it deletes the new registration. *)
Lemma resubscribed_callback_is_invoked :
  ~ (forall (k : string) (c : callback) (w : World) (os : list operation)
            (v : value),
       listeners_wf w ->
       let u := (subscribe k c w).1 in
       let w2 := run_all os (call_unsubscribe u (subscribe k c w).2) in
       (exists w',
          set (VString k) v w2 = Ok w' /\
          calls_of c (new_calls w2 w') = []) /\
       call_unsubscribe u w2 = w2).
Proof.
  intros Hclaim.
  destruct (Hclaim "loading" 1 example_store [Subscribe "loading" 1]
              (VBool true))
    as ((w' & Hset & Hcalls) & _).
  - apply (bool_decide_unpack _). vm_compute. exact I.
  - injection Hset as <-. vm_compute in Hcalls. discriminate Hcalls.
Qed.

(** C9, amended.  Once the handle returned by [subscribe(k, c)] has been
    invoked, then, whatever the program calls next short of subscribing
    [c] to [k] again, no [set(k, v)] invokes [c] and invoking the handle
    again changes nothing.  Every other listener of [k] is still
    invoked, once and with the new and the old value, by a
    value-changing [set(k, v)], whatever the program calls in between
    short of a handle of that listener.  When [c] is subscribed to [k]
    again, a value-changing [set(k, v)] invokes it again, and the old
    handle removes it again. *)
Theorem unsubscribe_removes_listener (k : string) (c : callback)
    (w : World) :
  listeners_wf w ->
  let u := (subscribe k c w).1 in
  let w2 := call_unsubscribe u (subscribe k c w).2 in
  (forall os,
     never_subscribes k c os ->
     (forall v,
        exists w',
          set (VString k) v (run_all os w2) = Ok w' /\
          calls_of c (new_calls (run_all os w2) w') = []) /\
     call_unsubscribe u (run_all os w2) = run_all os w2) /\
  (forall c' os (v : value),
     c' <> c ->
     Set_has c' (default [] (listeners w !! k)) = true ->
     never_unsubscribes k c' os ->
     strict_equal (state_get k (run_all os w2)) v = false ->
     exists w3,
       set (VString k) v (run_all os w2) = Ok w3 /\
       calls_of c' (new_calls (run_all os w2) w3) =
         [Call c' v (state_get k (run_all os w2))]) /\
  (forall v : value,
     strict_equal (state_get k (subscribe k c w2).2) v = false ->
     exists w3,
       set (VString k) v (subscribe k c w2).2 = Ok w3 /\
       calls_of c (new_calls (subscribe k c w2).2 w3) =
         [Call c v (state_get k (subscribe k c w2).2)]) /\
  Set_has c
    (default [] (listeners (call_unsubscribe u (subscribe k c w2).2) !! k))
    = false.
Proof.
  intros Hwf u w2.
  assert (Hl : listeners w2 !! k =
               Some (Set_delete c
                       (Set_add c (default [] (listeners w !! k))))).
  { unfold w2, u. change (subscribe k c w).1 with (Unsubscribe k c).
    rewrite call_unsubscribe_listeners.
    rewrite subscribe_listeners, lookup_insert_eq.
    by rewrite lookup_insert_eq. }
  assert (Habs : Set_has c (default [] (listeners w2 !! k)) = false).
  { rewrite Hl. apply Set_has_delete_same. }
  assert (Hwf2 : listeners_wf w2)
    by (by apply call_unsubscribe_wf, subscribe_wf).
  split_and!.
  - intros os Hos.
    pose proof (run_all_keeps_unsubscribed k c os w2 Hos Habs) as Habs'.
    split; [|by apply call_unsubscribe_absent].
    intros v. exists (setState (VString k) v (run_all os w2)).
    split; [done|].
    rewrite (new_calls_app _ _ _ (setState_calls k v (run_all os w2))).
    destruct (strict_equal _ _); [done|].
    by apply calls_of_invocations_absent.
  - intros c' os v Hne Hhas Hos Hchanged.
    apply set_invokes_member; [by apply run_all_wf| |done].
    apply run_all_keeps_subscribed; [done|].
    rewrite Hl. simpl. rewrite Set_has_delete_other by done.
    by apply Set_has_add_other.
  - intros v Hchanged.
    apply set_invokes_member; [by apply subscribe_wf| |done].
    rewrite subscribe_listeners, lookup_insert_eq. apply Set_has_add.
  - unfold u. change (subscribe k c w).1 with (Unsubscribe k c).
    rewrite call_unsubscribe_listeners.
    rewrite subscribe_listeners, !lookup_insert_eq. simpl.
    apply Set_has_delete_same.
Qed.

Lemma unsubscribe_removes_listener_witness :
  let w := (subscribe "loading" 3 example_store).2 in
  let w2 := call_unsubscribe (subscribe "loading" 1 w).1
                             (subscribe "loading" 1 w).2 in
  let w3 :=
    run_all [SetValue (VString "theme") (VString "dark");
             Toggle (VString "sidebarOpen"); Subscribe "loading" 4] w2 in
  (exists w',
     set (VString "loading") (VBool true) w3 = Ok w' /\
     calls_of 1 (new_calls w3 w') = []) /\
  call_unsubscribe (subscribe "loading" 1 w).1 w3 = w3 /\
  (exists w',
     set (VString "loading") (VBool true) w3 = Ok w' /\
     calls_of 3 (new_calls w3 w') = [Call 3 (VBool true) (VBool false)]).
Proof.
  destruct (unsubscribe_removes_listener "loading" 1
              (subscribe "loading" 3 example_store).2)
    as (Hlater & Hothers & _);
    [apply (bool_decide_unpack _); vm_compute; exact I|].
  destruct (Hlater [SetValue (VString "theme") (VString "dark");
                    Toggle (VString "sidebarOpen"); Subscribe "loading" 4])
    as (Hset & Hagain).
  { repeat (apply Forall_cons; split; [discriminate|]). apply Forall_nil_2. }
  split; [apply Hset|]. split; [exact Hagain|].
  apply (Hothers 3 [SetValue (VString "theme") (VString "dark");
                    Toggle (VString "sidebarOpen"); Subscribe "loading" 4]
                 (VBool true)).
  - discriminate.
  - reflexivity.
  - repeat (apply Forall_cons; split; [discriminate|]). apply Forall_nil_2.
  - reflexivity.
Defined.

(** ** Exceptions *)





Lemma set_null_raises v w : set VNull v w = Raise entries_of_null w.
Proof. done. Qed.


Lemma updateItem_raises :
  exists w',
    updateItem (VString "notifications") throwing_predicate VNull
               notified_store =
    Raise (Thrown (VString "bad predicate")) w'.
Proof. eexists. vm_compute. reflexivity. Qed.

Lemma ToPropertyKey_string h k : ToPropertyKey h (VString k) = inr k.
Proof. done. Qed.

Lemma ToPropertyKey_primitive h v :
  primitive v -> ToPropertyKey h v = inr (to_property_key v).
Proof. by destruct v. Qed.



Lemma Array_filter_total predicate h es :
  (forall x, x ∈ es -> exists r, predicate h x = inr r) ->
  Array_filter
    (fun item =>
       match predicate h item with
       | inl e => inl e
       | inr r => inr (VBool (negb (to_boolean r)))
       end) es
  = inr (List.filter (fun x => negb (holds predicate h x)) es).
Proof.
  induction es as [|x es IH]; intros Htotal; simpl; [done|].
  destruct (Htotal x) as (r & Hr); [left|].
  rewrite IH by (intros y Hy; apply Htotal; by right).
  unfold holds. rewrite Hr. simpl. by destruct (to_boolean r).
Qed.




(** ** Persistence *)

Lemma init_localStorage seed w : localStorage (init seed w) = localStorage w.
Proof. by destruct (init_state seed w) as (os & n & e & -> & _). Qed.

(** [persist], a restart and [loadPersisted] on the empty key: the
    document comes back from storage and is written to the state, but
    [get] answers with the whole state object. *)
Lemma persist_then_load_empty_key :
  let w1 := persist mini_stringify EmptyString (profile_store EmptyString) in
  let fresh := restart [] example_code w1 in
  json_of 2 (heap w1) (state_get EmptyString w1)
    = Some (JObject [("a", JNumber 1)]) /\
  exists parsed w2,
    loadPersisted mini_parse EmptyString fresh = (parsed, w2) /\
    json_of 2 (heap w2) parsed = Some (JObject [("a", JNumber 1)]) /\
    get (Some EmptyString) w2 <> Value parsed.
Proof.
  split; [reflexivity|].
  eexists _, _. split; [vm_compute; reflexivity|].
  split; [reflexivity|]. discriminate.
Qed.

(** C4, as stated, fails: the round trip does not end in [get(k)] being
    the reloaded value for every key. *)
Lemma persist_round_trip_empty_key :
  ~ (forall (JSON_stringify : list object -> held -> exn + option string)
            (JSON_parse : string -> list object -> exn + value * list object)
            (k : string) (w : World) (depth : nat) (j : json)
            (text : string) (h0 : list object)
            (code : callback -> value -> held -> option exn)
            (parsed : value) (h' : list object),
       json_of depth (heap w) (state_get k w) = Some j ->
       JSON_stringify (heap w) (state_get k w) = inr (Some text) ->
       text <> EmptyString ->
       JSON_parse text (heap (restart h0 code (persist JSON_stringify k w)))
         = inr (parsed, h') ->
       json_of depth h' parsed = Some j ->
       exists w2,
         loadPersisted JSON_parse k
           (restart h0 code (persist JSON_stringify k w)) = (parsed, w2) /\
         json_of depth (heap w2) parsed = Some j /\
         get (Some k) w2 = Value parsed).
Proof.
  intros Hclaim.
  destruct (Hclaim mini_stringify mini_parse EmptyString
              (profile_store EmptyString) 2 (JObject [("a", JNumber 1)])
              (print_json (JObject [("a", JNumber 1)])) [] example_code
              (VRef 3)
              [OObject []; OArray []; OObject []; OObject [("a", VNumber 1)]])
    as (w2 & _ & _ & Hget); try reflexivity; discriminate.
Qed.

(** C4, amended.  For a key other than the empty string and [__proto__]
    that holds a JSON-representable value, of which [JSON.stringify]
    gives the text and which [JSON.parse] rebuilds from that text:
    after [persist(k)] and a restart over the same storage,
    [loadPersisted(k)] returns the rebuilt value, a value of the same
    document, and [get(k)] returns it too. *)
Theorem persist_round_trip
    (JSON_stringify : list object -> held -> exn + option string)
    (JSON_parse : string -> list object -> exn + value * list object)
    (k : string) (w : World) (depth : nat) (j : json) (text : string)
    (h0 : list object) (code : callback -> value -> held -> option exn)
    (parsed : value) (h' : list object) :
  k <> EmptyString ->
  k <> "__proto__" ->
  json_of depth (heap w) (state_get k w) = Some j ->
  JSON_stringify (heap w) (state_get k w) = inr (Some text) ->
  text <> EmptyString ->
  let fresh := restart h0 code (persist JSON_stringify k w) in
  JSON_parse text (heap fresh) = inr (parsed, h') ->
  json_of depth h' parsed = Some j ->
  exists w2,
    loadPersisted JSON_parse k fresh = (parsed, w2) /\
    json_of depth (heap w2) parsed = Some j /\
    get (Some k) w2 = Value parsed.
Proof.
  intros Hne Hproto Hjson Htext Hnonempty fresh Hparse Hsame.
  assert (Hstored : localStorage fresh !! k = Some text).
  { unfold fresh, restart, persist. rewrite init_localStorage, Htext.
    simpl. by rewrite lookup_insert_eq. }
  exists (setState (VString k) parsed (with_heap h' fresh)).
  split_and!.
  - assert (Htruthy : to_boolean (VString text) = true)
      by (simpl; by rewrite bool_decide_eq_false_2).
    unfold loadPersisted. by rewrite Hstored, Htruthy, Hparse.
  - destruct (setState_store k parsed (with_heap h' fresh))
      as (_ & _ & -> & _).
    by destruct (state_set_frame k parsed (with_heap h' fresh))
      as (_ & -> & _).
  - unfold get. simpl. rewrite bool_decide_eq_false_2 by done. simpl.
    by rewrite state_get_setState, state_get_state_set.
Qed.

Lemma persist_round_trip_witness :
  let w1 := persist mini_stringify "profile" (profile_store "profile") in
  let fresh := restart [] example_code w1 in
  exists w2,
    loadPersisted mini_parse "profile" fresh = (VRef 3, w2) /\
    json_of 2 (heap w2) (VRef 3) = Some (JObject [("a", JNumber 1)]) /\
    get (Some "profile") w2 = Value (VRef 3).
Proof.
  apply (persist_round_trip mini_stringify mini_parse "profile"
           (profile_store "profile") 2 (JObject [("a", JNumber 1)])
           (print_json (JObject [("a", JNumber 1)])) [] example_code
           (VRef 3)
           [OObject []; OArray []; OObject []; OObject [("a", VNumber 1)]]);
    try discriminate; reflexivity.
Defined.

(** ** Arrays in the state *)

(** A reference to an array reads back under every key: where the write
    goes to the [__proto__] setter the array becomes the prototype, and
    the getter returns it. *)
Lemma state_get_state_set_array k l es w :
  heap w !! l = Some (OArray es) ->
  state_get k (state_set k (VRef l) w) = VRef l.
Proof.
  intros Harr. destruct (decide (k = "__proto__")) as [->|Hk];
    [|by apply state_get_state_set].
  unfold state_get, state_set, prop_set.
  destruct (own_get "__proto__" (state w)) as [x|] eqn:Hown.
  - simpl. unfold prop_get.
    by rewrite own_get_replace_eq by (rewrite Hown; eauto).
  - destruct (_ && _ && _) eqn:Hsetter; simpl.
    + unfold prop_get. rewrite Hown. simpl. by rewrite Harr.
    + unfold prop_get. by rewrite own_get_define_eq.
Qed.

Lemma set_array_result k l es w :
  heap w !! l = Some (OArray es) ->
  exists w',
    set (VString k) (VRef l) w = Ok w' /\
    state_get k w' = VRef l /\
    heap w' = heap w.
Proof.
  intros Harr. exists (setState (VString k) (VRef l) w).
  split; [done|]. split.
  - rewrite state_get_setState. by eapply state_get_state_set_array.
  - destruct (setState_store k (VRef l) w) as (_ & _ & -> & _).
    by destruct (state_set_frame k (VRef l) w) as (_ & -> & _).
Qed.

Lemma own_enumerable_extend h ext v :
  ref_ok h v -> own_enumerable (h ++ ext) v = own_enumerable h v.
Proof.
  destruct v; try done. simpl. intros Hlt. by rewrite lookup_app_l.
Qed.

(** The object of [{ ...item, ...updates }] is a shallow merge. *)
Lemma merged_shallow_merge h x updates :
  shallow_merge h x updates (merged h x updates).
Proof.
  intros k. unfold merged. rewrite !spread_entry. simpl.
  destruct (entry k (own_enumerable h updates)); [done|].
  by destruct (entry k (own_enumerable h x)).
Qed.

Lemma shallow_merge_extend h ext x updates ps :
  ref_ok h x -> ref_ok h updates ->
  shallow_merge (h ++ ext) x updates ps -> shallow_merge h x updates ps.
Proof.
  intros Hx Hu Hmerge k. specialize (Hmerge k).
  by rewrite !own_enumerable_extend in Hmerge.
Qed.

Lemma updated_extend h h' ext updates matches x r :
  updated h h' updates matches x r ->
  updated h (h' ++ ext) updates matches x r.
Proof.
  unfold updated. destruct (matches x); [|done].
  intros (l & ps & -> & Hl & Hobj & Hmerge).
  exists l, ps. split_and!; [done..| |done].
  by apply lookup_app_l_Some.
Qed.

(** [map] over the elements, from any heap that extends [h0]. *)
Lemma Array_map_update predicate updates matches h0 es :
  Forall (ref_ok h0) es ->
  ref_ok h0 updates ->
  (forall ext x,
     x ∈ es ->
     exists r, predicate (h0 ++ ext) x = inr r /\ to_boolean r = matches x) ->
  forall ext,
  exists rs news,
    Array_map (update_arrow predicate updates) (h0 ++ ext) es
      = inr (rs, (h0 ++ ext) ++ news) /\
    Forall2 (updated h0 ((h0 ++ ext) ++ news) updates matches) es rs.
Proof.
  intros Hes Hupdates. induction Hes as [|x es Hx Hes IH]; intros Hp ext.
  - exists [], []. simpl. by rewrite app_nil_r.
  - simpl. destruct (Hp ext x) as (r & Hr & Hm); [left|].
    assert (Hp' : forall ext y, y ∈ es ->
              exists r, predicate (h0 ++ ext) y = inr r /\
                        to_boolean r = matches y)
      by (intros ext' y Hy; apply Hp; by right).
    unfold update_arrow at 1. rewrite Hr, Hm.
    destruct (matches x) eqn:Hmx.
    + unfold alloc.
      destruct (IH Hp' (ext ++ [OObject (merged (h0 ++ ext) x updates)]))
        as (rs & news & Hmap & Hrel).
      rewrite app_assoc in Hmap, Hrel. rewrite Hmap.
      eexists (_ :: rs), (_ :: news).
      rewrite <- (app_assoc (h0 ++ ext) [_] news) in *. simpl in *.
      split; [done|]. constructor; [|done].
      unfold updated. rewrite Hmx.
      exists (List.length (h0 ++ ext)), (merged (h0 ++ ext) x updates).
      split_and!; [done| | |].
      * rewrite length_app. lia.
      * by rewrite list_lookup_middle.
      * apply (shallow_merge_extend h0 ext); [done..|].
        apply merged_shallow_merge.
    + destruct (IH Hp' ext) as (rs & news & Hmap & Hrel).
      rewrite Hmap. exists (x :: rs), news. split; [done|].
      constructor; [|done]. unfold updated. by rewrite Hmx.
Qed.

(** [updateItem] on an array, with a predicate that returns on every
    element. *)
Lemma updateItem_array k predicate updates matches w l es :
  state_get k w = VRef l ->
  heap w !! l = Some (OArray es) ->
  Forall (ref_ok (heap w)) es ->
  ref_ok (heap w) updates ->
  (forall ext x,
     x ∈ es ->
     exists r,
       predicate (heap w ++ ext) x = inr r /\ to_boolean r = matches x) ->
  exists w' l' rs news,
    updateItem (VString k) predicate updates w = Ok w' /\
    state_get k w' = VRef l' /\
    heap w' = heap w ++ news /\
    heap w' !! l' = Some (OArray rs) /\
    List.length (heap w) <= l' /\
    Forall2 (updated (heap w) (heap w') updates matches) es rs.
Proof.
  intros Hget Harr Hes Hupdates Hp.
  destruct (Array_map_update predicate updates matches (heap w) es
              Hes Hupdates Hp []) as (rs & news & Hmap & Hrel).
  rewrite app_nil_r in Hmap, Hrel.
  destruct (set_array_result k (List.length (heap w ++ news)) rs
              (with_heap ((heap w ++ news) ++ [OArray rs]) w))
    as (w' & Hset & Hread & Hheap); [by apply list_lookup_middle|].
  simpl in Hheap.
  exists w', (List.length (heap w ++ news)), rs, (news ++ [OArray rs]).
  split_and!.
  - unfold updateItem. simpl. by rewrite Hget, Harr, Hmap.
  - done.
  - by rewrite Hheap, app_assoc.
  - rewrite Hheap. by apply list_lookup_middle.
  - rewrite length_app. lia.
  - rewrite Hheap. eapply Forall2_impl; [exact Hrel|].
    intros x r. apply updated_extend.
Qed.

(** C7.  On a key whose value is an array, [addItem] writes a new array,
    the old elements then the item; [removeItem] writes a new array, the
    elements on which the predicate is falsy, in their order;
    [updateItem] writes a new array in which every element the predicate
    accepts has given way to a new object, a shallow merge of the
    element with the patch (name by name the property of the patch,
    else that of the element), and every other element stays.  The heap
    only grows, so the old array is intact.  On a key whose value is no
    array the three return without a change. *)
Theorem sequence_operations (k : string) (w : World) :
  (forall l es,
     state_get k w = VRef l ->
     heap w !! l = Some (OArray es) ->
     (forall item,
        exists w' l',
          addItem (VString k) item w = Ok w' /\
          state_get k w' = VRef l' /\
          heap w' = heap w ++ [OArray (es ++ [item])] /\
          heap w' !! l' = Some (OArray (es ++ [item]))) /\
     (forall predicate,
        (forall x, x ∈ es -> exists r, predicate (heap w) x = inr r) ->
        exists w' l',
          removeItem (VString k) predicate w = Ok w' /\
          state_get k w' = VRef l' /\
          heap w' =
            heap w ++
            [OArray (List.filter
                       (fun x => negb (holds predicate (heap w) x)) es)] /\
          heap w' !! l' =
            Some (OArray (List.filter
                            (fun x => negb (holds predicate (heap w) x))
                            es))) /\
     (forall predicate updates matches,
        Forall (ref_ok (heap w)) es ->
        ref_ok (heap w) updates ->
        (forall ext x,
           x ∈ es ->
           exists r,
             predicate (heap w ++ ext) x = inr r /\
             to_boolean r = matches x) ->
        exists w' l' rs news,
          updateItem (VString k) predicate updates w = Ok w' /\
          state_get k w' = VRef l' /\
          heap w' = heap w ++ news /\
          heap w' !! l' = Some (OArray rs) /\
          List.length (heap w) <= l' /\
          Forall2 (updated (heap w) (heap w') updates matches) es rs)) /\
  (isArray (heap w) (state_get k w) = false ->
   forall item predicate updates,
     addItem (VString k) item w = Ok w /\
     removeItem (VString k) predicate w = Ok w /\
     updateItem (VString k) predicate updates w = Ok w).
Proof.
  split.
  - intros l es Hget Harr. split_and!.
    + intros item.
      destruct (set_array_result k (List.length (heap w)) (es ++ [item])
                  (with_heap (heap w ++ [OArray (es ++ [item])]) w))
        as (w' & Hset & Hread & Hheap); [by apply list_lookup_middle|].
      simpl in Hheap. exists w', (List.length (heap w)).
      split_and!; [|done|done|].
      * unfold addItem. simpl. by rewrite Hget, Harr.
      * rewrite Hheap. by apply list_lookup_middle.
    + intros predicate Htotal.
      set (kept := List.filter
                     (fun x => negb (holds predicate (heap w) x)) es).
      destruct (set_array_result k (List.length (heap w)) kept
                  (with_heap (heap w ++ [OArray kept]) w))
        as (w' & Hset & Hread & Hheap); [by apply list_lookup_middle|].
      simpl in Hheap. exists w', (List.length (heap w)).
      split_and!; [|done|done|].
      * unfold removeItem. simpl. rewrite Hget, Harr.
        by rewrite Array_filter_total.
      * rewrite Hheap. by apply list_lookup_middle.
    + intros predicate updates matches Hes Hupdates Hp.
      by eapply updateItem_array.
  - intros Hnot item predicate updates.
    unfold addItem, removeItem, updateItem, isArray in *. simpl.
    destruct (state_get k w) as [[]|]; try done.
    by destruct (heap w !! l) as [[ps|es]|].
Qed.

Lemma sequence_operations_witness :
  exists w1 w2 w3,
    addItem (VString "items") (VNumber 4)
            (items_store [VNumber 1; VNumber 2; VNumber 3]) = Ok w1 /\
    heap w1 !! 5 = Some (OArray [VNumber 1; VNumber 2; VNumber 3; VNumber 4]) /\
    removeItem (VString "items") is_two
               (items_store [VNumber 1; VNumber 2; VNumber 3]) = Ok w2 /\
    heap w2 !! 5 = Some (OArray [VNumber 1; VNumber 3]) /\
    updateItem (VString "items") is_two (VRef 4)
               (items_store [VNumber 1; VNumber 2; VNumber 3]) = Ok w3 /\
    heap w3 !! 6 = Some (OArray [VNumber 1; VRef 5; VNumber 3]) /\
    heap w3 !! 5 = Some (OObject [("flag", VBool true)]).
Proof.
  destruct (sequence_operations "items"
              (items_store [VNumber 1; VNumber 2; VNumber 3]))
    as (Harray & _).
  destruct (Harray 3 [VNumber 1; VNumber 2; VNumber 3]
              eq_refl eq_refl) as (Hadd & Hremove & Hupdate).
  destruct (Hadd (VNumber 4)) as (w1 & l1 & Hw1 & _ & _ & _).
  destruct (Hremove is_two) as (w2 & l2 & Hw2 & _ & _ & _).
  { intros x _. eexists. reflexivity. }
  destruct (Hupdate is_two (VRef 4)
              (fun x => strict_equal x (VNumber 2)))
    as (w3 & l3 & rs & news & Hw3 & _).
  { repeat (apply Forall_cons; split; [exact I|]). apply Forall_nil_2. }
  { vm_compute. lia. }
  { intros ext x _. eexists. split; reflexivity. }
  exists w1, w2, w3.
  split; [exact Hw1|]. injection Hw1 as <-. split; [reflexivity|].
  split; [exact Hw2|]. injection Hw2 as <-. split; [reflexivity|].
  split; [exact Hw3|]. injection Hw3 as <-. split; reflexivity.
Defined.

(** [updateItem] on [["ab"]] with the patch [{ flag: true }]: the
    characters of the string are own properties and the spread copies
    them next to the patch's [flag]. *)
Lemma updateItem_string_element :
  exists w',
    updateItem (VString "items") always (VRef 4)
               (items_store [VString "ab"]) = Ok w' /\
    state_get "items" w' = VRef 6 /\
    heap w' !! 6 = Some (OArray [VRef 5]) /\
    heap w' !! 5 =
      Some (OObject
              [("0", VString "a"); ("1", VString "b"); ("flag", VBool true)]) /\
    own_enumerable (heap w') (VRef 4) = [("flag", VBool true)].
Proof. eexists. split; [vm_compute; reflexivity|]. by split_and!. Qed.

(** C10, as stated, fails: a string is a primitive too, and the object
    that takes its place has more than the patch's properties. *)
Lemma updateItem_keeps_string_characters :
  ~ (forall (k : string) (w : World) (l : loc) (es : list value)
            (predicate : predicate_fn) (updates : value)
            (matches : value -> bool),
       state_get k w = VRef l ->
       heap w !! l = Some (OArray es) ->
       Forall (ref_ok (heap w)) es ->
       ref_ok (heap w) updates ->
       (forall ext x,
          x ∈ es ->
          exists r,
            predicate (heap w ++ ext) x = inr r /\
            to_boolean r = matches x) ->
       exists w' l' rs,
         updateItem (VString k) predicate updates w = Ok w' /\
         state_get k w' = VRef l' /\
         heap w' !! l' = Some (OArray rs) /\
         forall i x,
           es !! i = Some x ->
           matches x = true ->
           primitive x ->
           exists lx props,
             rs !! i = Some (VRef lx) /\
             heap w' !! lx = Some (OObject props) /\
             forall key,
               own_get key props =
               entry key (own_enumerable (heap w) updates)).
Proof.
  intros Hclaim.
  destruct (Hclaim "items" (items_store [VString "ab"]) 3 [VString "ab"]
              always (VRef 4) (fun _ => true))
    as (w' & l' & rs & Hupd & Hget & Harr & Hprim).
  - reflexivity.
  - reflexivity.
  - apply Forall_cons. split; [exact I|]. apply Forall_nil_2.
  - vm_compute. lia.
  - intros ext x _. eexists. split; reflexivity.
  - destruct updateItem_string_element
      as (w0 & Hupd0 & Hget0 & Harr0 & Hobj0 & _).
    rewrite Hupd0 in Hupd. injection Hupd as <-.
    rewrite Hget0 in Hget. injection Hget as <-.
    pose proof (eq_trans (eq_sym Harr) Harr0) as Hrs. injection Hrs as ->.
    destruct (Hprim 0 (VString "ab") eq_refl eq_refl I)
      as (lx & props & Hlx & Hobj & Hkeys).
    injection Hlx as <-.
    pose proof (eq_trans (eq_sym Hobj) Hobj0) as Hprops.
    injection Hprops as ->.
    specialize (Hkeys "0"). vm_compute in Hkeys. discriminate Hkeys.
Qed.

(** The own properties of a string are its characters. *)
Lemma string_entries_character j s k v :
  entry k (string_entries j s) = Some v ->
  exists i c,
    k = pretty (N.of_nat (j + i)) /\ String.get i s = Some c /\
    v = VString (String c EmptyString).
Proof.
  unfold entry. revert j. induction s as [|c s IH]; intros j; [done|].
  cbn [string_entries rev]. rewrite own_get_app.
  destruct (own_get k (rev (string_entries (S j) s))) as [v'|] eqn:Hrest.
  - intros [= ->]. destruct (IH (S j) Hrest) as (i & c' & -> & Hget & ->).
    exists (S i), c'. split_and!; [|done..]. f_equal. lia.
  - simpl. case_bool_decide as Hk; [|done]. intros [= <-].
    exists 0, c. split_and!; [|done..]. subst k. f_equal. lia.
Qed.

Lemma character_string_entries j s i c :
  String.get i s = Some c ->
  entry (pretty (N.of_nat (j + i))) (string_entries j s) =
  Some (VString (String c EmptyString)).
Proof.
  unfold entry. revert j i. induction s as [|c' s IH]; intros j i; [done|].
  cbn [string_entries rev]. rewrite own_get_app. destruct i as [|i]; simpl.
  - intros [= ->].
    destruct (own_get _ (rev (string_entries (S j) s))) as [v'|] eqn:Hrest.
    + apply string_entries_character in Hrest as (i & c' & Heq & _).
      apply (inj pretty) in Heq. lia.
    + rewrite bool_decide_eq_true_2; [done|]. f_equal. lia.
  - intros Hget. replace (j + S i) with (S j + i) by lia.
    by rewrite (IH (S j) i Hget).
Qed.

(** C10, amended.  [updateItem] puts in the place of every element the
    predicate accepts a new object, the spread of the element and then
    of the patch: name by name the property of the patch, else the
    property of the element.  Where that element is [undefined],
    [null], a boolean, a number or the empty string, the new object has
    the patch's properties and no other: the primitive leaves no trace.
    Where it is a string, the new object has besides the patch's
    properties the characters of the string, each under its index,
    unless the patch has a property of that name. *)
Theorem updateItem_merges (k : string) (w : World) (l : loc)
    (es : list value) (predicate : predicate_fn) (updates : value)
    (matches : value -> bool) :
  state_get k w = VRef l ->
  heap w !! l = Some (OArray es) ->
  Forall (ref_ok (heap w)) es ->
  ref_ok (heap w) updates ->
  (forall ext x,
     x ∈ es ->
     exists r,
       predicate (heap w ++ ext) x = inr r /\ to_boolean r = matches x) ->
  exists w' l' rs,
    updateItem (VString k) predicate updates w = Ok w' /\
    state_get k w' = VRef l' /\
    heap w' !! l' = Some (OArray rs) /\
    Forall2 (updated (heap w) (heap w') updates matches) es rs /\
    forall i x,
      es !! i = Some x ->
      matches x = true ->
      exists lx props,
        rs !! i = Some (VRef lx) /\
        heap w' !! lx = Some (OObject props) /\
        (forall key v,
           entry key (own_enumerable (heap w) updates) = Some v ->
           own_get key props = Some v) /\
        (forall key,
           entry key (own_enumerable (heap w) updates) = None ->
           own_get key props = entry key (own_enumerable (heap w) x)) /\
        (bare_primitive x ->
         forall key,
           own_get key props =
           entry key (own_enumerable (heap w) updates)) /\
        (forall s,
           x = VString s ->
           (forall j c,
              String.get j s = Some c ->
              entry (pretty (N.of_nat j)) (own_enumerable (heap w) updates)
                = None ->
              own_get (pretty (N.of_nat j)) props =
              Some (VString (String c EmptyString))) /\
           (forall key v,
              own_get key props = Some v ->
              entry key (own_enumerable (heap w) updates) = Some v \/
              character s key v)).
Proof.
  intros Hget Harr Hes Hupdates Hp.
  destruct (updateItem_array k predicate updates matches w l es
              Hget Harr Hes Hupdates Hp)
    as (w' & l' & rs & news & Hw' & Hread & _ & Hl' & _ & Hrel).
  exists w', l', rs. split_and!; [done..|].
  intros i x Hi Hmatch.
  destruct (Forall2_lookup_l _ _ _ _ _ Hrel Hi) as (r & Hr & Hupd).
  unfold updated in Hupd. rewrite Hmatch in Hupd.
  destruct Hupd as (lx & props & -> & _ & Hobj & Hmerge).
  exists lx, props. split_and!; [done..| | | |].
  - intros key v Hpatch. by rewrite Hmerge, Hpatch.
  - intros key Hpatch. by rewrite Hmerge, Hpatch.
  - intros Hbare key. rewrite Hmerge.
    destruct (entry key (own_enumerable (heap w) updates)); [done|].
    destruct x; try done. simpl in Hbare. by subst s.
  - intros s ->. split.
    + intros j c Hc Hpatch. rewrite Hmerge, Hpatch. simpl.
      by apply (character_string_entries 0 s j c).
    + intros key v. rewrite Hmerge.
      destruct (entry key (own_enumerable (heap w) updates)) as [v'|];
        [intros [= ->]; by left|].
      simpl. intros Hchar. right.
      apply string_entries_character in Hchar as (j & c & -> & Hc & ->).
      by exists j, c.
Qed.

Lemma updateItem_merges_witness :
  exists w',
    updateItem (VString "items") always (VRef 4)
               (items_store [VNumber 1; VString "ab"; VRef 4]) = Ok w' /\
    heap w' !! 8 = Some (OArray [VRef 5; VRef 6; VRef 7]) /\
    heap w' !! 5 = Some (OObject [("flag", VBool true)]) /\
    heap w' !! 6 =
      Some (OObject
              [("0", VString "a"); ("1", VString "b"); ("flag", VBool true)]).
Proof.
  destruct (updateItem_merges "items"
              (items_store [VNumber 1; VString "ab"; VRef 4]) 3
              [VNumber 1; VString "ab"; VRef 4] always (VRef 4)
              (fun _ => true))
    as (w' & l' & rs & Hw' & _).
  - reflexivity.
  - reflexivity.
  - repeat (apply Forall_cons; split; [vm_compute; try lia; exact I|]).
    apply Forall_nil_2.
  - vm_compute. lia.
  - intros ext x _. eexists. split; reflexivity.
  - exists w'. split; [exact Hw'|]. injection Hw' as <-.
    split_and!; reflexivity.
Defined.

(** * Further properties of the store *)

(** ** Writes and the other keys *)

Lemma own_replace_same k v ps :
  own_get k ps = Some v -> own_replace k v ps = ps.
Proof.
  induction ps as [|[k' v'] ps IH]; simpl; [done|].
  case_bool_decide as Hk.
  - intros [= ->]. by subst.
  - intros H. by rewrite IH.
Qed.

(** A write to a key other than [__proto__]: the prototype stays, the key
    holds the value, every other own property is as before. *)
Lemma prop_set_other h k v proto ps :
  k <> "__proto__" ->
  exists ps',
    prop_set h k v proto ps = (proto, ps') /\
    own_get k ps' = Some v /\
    forall k', k' <> k -> own_get k' ps' = own_get k' ps.
Proof.
  intros Hk. unfold prop_set. destruct (own_get k ps) eqn:Hget.
  - eexists. split_and!; [done| |].
    + apply own_get_replace_eq. rewrite Hget. eauto.
    + intros k' Hne. by apply own_get_replace_ne.
  - rewrite (bool_decide_eq_false_2 (k = "__proto__")) by done. simpl.
    eexists. split_and!; [done| |].
    + apply own_get_define_eq.
    + intros k' Hne. by apply own_get_define_ne.
Qed.

Lemma state_get_state_set_other k k' v w :
  k <> "__proto__" -> k' <> k ->
  state_get k' (state_set k v w) = state_get k' w.
Proof.
  intros Hk Hne. unfold state_get, state_set.
  destruct (prop_set_other (heap w) k v (state_proto w) (state w) Hk)
    as (ps' & -> & _ & Hother).
  simpl. unfold prop_get. by rewrite Hother.
Qed.

Lemma state_get_setState_other k k' v w :
  k <> "__proto__" -> k' <> k ->
  state_get k' (setState (VString k) v w) = state_get k' w.
Proof.
  intros Hk Hne.
  destruct (setState_store k v w) as (Hs & Hp & Hh & _).
  unfold state_get at 1. rewrite Hs, Hp, Hh.
  by apply state_get_state_set_other.
Qed.

(** X2.  A write to one key (other than [__proto__]) changes no other
    key's value, no listener registration, nothing in the heap and
    nothing in [localStorage]. *)
Theorem set_leaves_other_keys (k k' : string) (v : value) (w : World) :
  k <> "__proto__" ->
  k' <> k ->
  exists w',
    set (VString k) v w = Ok w' /\
    state_get k' w' = state_get k' w /\
    listeners w' = listeners w /\
    heap w' = heap w /\
    localStorage w' = localStorage w.
Proof.
  intros Hk Hne. exists (setState (VString k) v w). split; [done|].
  destruct (setState_store k v w) as (_ & _ & Hh & Hl & _).
  destruct (state_set_frame k v w) as (_ & Hh' & _).
  split_and!.
  - by apply state_get_setState_other.
  - apply setState_listeners.
  - by rewrite Hh.
  - done.
Qed.

Lemma set_leaves_other_keys_witness :
  exists w',
    set (VString "loading") (VBool true) example_store = Ok w' /\
    state_get "sidebarOpen" w' = VBool true.
Proof.
  destruct (set_leaves_other_keys "loading" "sidebarOpen" (VBool true)
              example_store) as (w' & Hset & Hget & _);
    [discriminate | discriminate |].
  exists w'. split; [exact Hset|]. rewrite Hget. reflexivity.
Defined.

(** X1.  [toggle] on a key holding a boolean writes the opposite
    boolean, invokes every listener of the key once with the new and the
    old boolean, and a second [toggle] brings the first value back. *)
Theorem toggle_flips (k : string) (b : bool) (w : World) :
  k <> "__proto__" ->
  state_get k w = VBool b ->
  exists w' w'',
    toggle (VString k) w = Ok w' /\
    state_get k w' = VBool (negb b) /\
    new_calls w w' =
      invocations (VBool (negb b)) (VBool b)
                  (default [] (listeners w !! k)) /\
    toggle (VString k) w' = Ok w'' /\
    state_get k w'' = VBool b.
Proof.
  intros Hk Hget.
  assert (Hflip : forall b0 w0,
            state_get k w0 = VBool b0 ->
            toggle (VString k) w0 = Ok (setState (VString k) (VBool (negb b0)) w0) /\
            state_get k (setState (VString k) (VBool (negb b0)) w0)
            = VBool (negb b0)).
  { intros b0 w0 H0. split.
    - unfold toggle. by rewrite ToPropertyKey_string, H0.
    - by rewrite state_get_setState, state_get_state_set. }
  destruct (Hflip b w Hget) as (Ht1 & Hg1).
  destruct (Hflip (negb b) _ Hg1) as (Ht2 & Hg2).
  rewrite negb_involutive in Ht2, Hg2.
  eexists _, _. split_and!; [exact Ht1|exact Hg1| |exact Ht2|exact Hg2].
  apply new_calls_app. rewrite setState_calls, Hget. simpl.
  by destruct b.
Qed.

Lemma toggle_flips_witness :
  exists w' w'',
    toggle (VString "sidebarOpen") example_store = Ok w' /\
    state_get "sidebarOpen" w' = VBool false /\
    toggle (VString "sidebarOpen") w' = Ok w'' /\
    state_get "sidebarOpen" w'' = VBool true.
Proof.
  destruct (toggle_flips "sidebarOpen" true example_store)
    as (w' & w'' & H1 & H2 & _ & H3 & H4); [discriminate | reflexivity |].
  by exists w', w''.
Defined.



(** ** Keys stay *)

Lemma prop_set_keeps_key h k0 v proto ps k :
  is_Some (own_get k ps) ->
  is_Some (own_get k (prop_set h k0 v proto ps).2).
Proof.
  intros Hk. unfold prop_set.
  assert (Hdefine : is_Some (own_get k (define_property k0 v ps))).
  { destruct (decide (k0 = k)) as [->|Hne].
    - rewrite own_get_define_eq. eauto.
    - by rewrite own_get_define_ne. }
  destruct (own_get k0 ps) eqn:H0.
  - simpl. destruct (decide (k0 = k)) as [->|Hne].
    + rewrite own_get_replace_eq; eauto.
    + by rewrite own_get_replace_ne.
  - by destruct (_ && _ && _).
Qed.

Lemma setState_keeps_key key v k w :
  has_key k w -> has_key k (setState key v w).
Proof.
  intros Hk. unfold has_key.
  assert (Hset : is_Some
            (own_get k (state (state_set (to_property_key key) v w)))).
  { unfold state_set.
    pose proof (prop_set_keeps_key (heap w) (to_property_key key) v
                  (state_proto w) (state w) k Hk) as H.
    by destruct (prop_set _ _ _ _ _). }
  unfold setState, notifyListeners.
  destruct (negb _); [|done].
  destruct (Map_get _ key); [|done].
  by rewrite notify_fold.
Qed.

Lemma set_keeps_key keyOrObject v k w :
  has_key k w -> has_key k (world_of (set keyOrObject v w)).
Proof.
  intros Hk. unfold set. case_bool_decide; [|by apply setState_keeps_key].
  destruct (Object_entries (heap w) keyOrObject) as [e|entries]; [done|].
  simpl. revert w Hk.
  induction entries as [|kv entries IH]; intros w Hk; [done|].
  cbn [fold_left]. apply IH. by apply setState_keeps_key.
Qed.

(** X4.  The store has no way to drop a key: whatever is called, short
    of [init] and [reset], a key that is an own property of the state
    stays one. *)
Theorem keys_are_never_removed (o : operation) (k : string) (w : World) :
  keeps_state_object o ->
  has_key k w ->
  has_key k (run o w).
Proof.
  intros Ho Hk.
  destruct o as [seed|seed|keyOrObject v|k' c|u|k'|k' item|k' predicate
                 |k' predicate updates|stringify k'|parse k'];
    try done; cbn [run].
  - by apply set_keeps_key.
  - unfold call_unsubscribe. by destruct (listeners w !! un_key u).
  - unfold toggle. destruct (ToPropertyKey (heap w) k') as [e|k0]; [done|].
    destruct (state_get k0 w) as [[]|]; try done.
    by apply set_keeps_key.
  - unfold addItem, alloc.
    destruct (ToPropertyKey (heap w) k') as [e|k0]; [done|].
    destruct (state_get k0 w) as [[]|]; try done.
    destruct (heap w !! l) as [[ps|es]|]; try done.
    by apply set_keeps_key.
  - unfold removeItem, alloc.
    destruct (ToPropertyKey (heap w) k') as [e|k0]; [done|].
    destruct (state_get k0 w) as [[]|]; try done.
    destruct (heap w !! l) as [[ps|es]|]; try done.
    destruct (Array_filter _ es); [done|]. by apply set_keeps_key.
  - unfold updateItem, alloc.
    destruct (ToPropertyKey (heap w) k') as [e|k0]; [done|].
    destruct (state_get k0 w) as [[]|]; try done.
    destruct (heap w !! l) as [[ps|es]|]; try done.
    destruct (Array_map _ _ es) as [[e h1]|[rs h1]]; [done|].
    by apply set_keeps_key.
  - unfold persist. by destruct (stringify _ _).
  - unfold loadPersisted. destruct (localStorage w !! k'); [|done].
    destruct (to_boolean _); [|done].
    destruct (parse _ _) as [e|[parsed h']]; [done|].
    pose proof (set_keeps_key (VString k') parsed k (with_heap h' w) Hk)
      as Hset.
    by destruct (set (VString k') parsed (with_heap h' w)).
Qed.

Lemma keys_are_never_removed_witness :
  has_key "theme"
    (run (SetValue (VRef 3) VUndefined) patch_store).
Proof.
  apply (keys_are_never_removed (SetValue (VRef 3) VUndefined) "theme"
           patch_store); [exact I|].
  unfold has_key. vm_compute. eauto.
Defined.

(** ** Writing the same value again *)

Lemma strict_equal_refl v : v <> VNaN -> strict_equal v v = true.
Proof. destruct v; simpl; try done; intros _; by apply bool_decide_eq_true_2. Qed.

Lemma with_state_same w :
  with_state (state w) (with_state_proto (state_proto w) w) = w.
Proof. by destruct w. Qed.

(** X5.  A second [set(k, v)] with the same value (not [NaN]) in a row
    changes nothing at all: no write that shows, no listener invoked,
    nothing logged. *)
Theorem set_same_value_again (k : string) (v : value) (w : World) :
  k <> "__proto__" ->
  v <> VNaN ->
  exists w1,
    set (VString k) v w = Ok w1 /\
    set (VString k) v w1 = Ok w1.
Proof.
  intros Hk Hnan. exists (setState (VString k) v w). split; [done|].
  rewrite set_string. f_equal.
  set (w1 := setState (VString k) v w).
  assert (Hown : own_get k (state w1) = Some v).
  { unfold w1. destruct (setState_store k v w) as (-> & _).
    unfold state_set.
    destruct (prop_set_other (heap w) k v (state_proto w) (state w) Hk)
      as (ps' & -> & Hget & _). done. }
  assert (Hget : state_get k w1 = v).
  { unfold state_get, prop_get. by rewrite Hown. }
  rewrite setState_string. simpl. rewrite Hget, strict_equal_refl by done.
  unfold state_set, prop_set. rewrite Hown, own_replace_same by done.
  apply with_state_same.
Qed.

Lemma set_same_value_again_witness :
  exists w1,
    set (VString "theme") (VString "dark") example_store = Ok w1 /\
    set (VString "theme") (VString "dark") w1 = Ok w1.
Proof.
  apply (set_same_value_again "theme" (VString "dark") example_store);
    discriminate.
Defined.

(** X6.  [NaN] is never equal to itself: [set(k, NaN)] on a key that
    already holds [NaN] invokes every listener of the key again, with
    [NaN] as the new and as the old value. *)
Theorem set_NaN_always_notifies (k : string) (w : World) :
  state_get k w = VNaN ->
  exists w',
    set (VString k) VNaN w = Ok w' /\
    new_calls w w' =
      invocations VNaN VNaN (default [] (listeners w !! k)).
Proof.
  intros Hget. exists (setState (VString k) VNaN w). split; [done|].
  apply new_calls_app. by rewrite setState_calls, Hget.
Qed.

Lemma set_NaN_always_notifies_witness :
  let w :=
    world_of (set (VString "loading") VNaN
                  (subscribe "loading" 1 example_store).2) in
  exists w',
    set (VString "loading") VNaN w = Ok w' /\
    new_calls w w' = [Call 1 VNaN VNaN].
Proof.
  apply (set_NaN_always_notifies "loading"
           (world_of (set (VString "loading") VNaN
                          (subscribe "loading" 1 example_store).2))).
  reflexivity.
Defined.

(** ** One registration per callback *)

Lemma subscribe_world k c w :
  (subscribe k c w).2 = with_listeners (listeners (subscribe k c w).2) w.
Proof. done. Qed.

Lemma Set_add_again c cs : Set_add c (Set_add c cs) = Set_add c cs.
Proof. unfold Set_add at 1. by rewrite Set_has_add. Qed.

(** X7.  A [Set] holds a callback once: subscribing it to the same key
    a second time changes nothing, and invoking either of the two
    handles removes the one registration there is. *)
Theorem subscriptions_of_one_callback_are_shared (k : string)
    (c : callback) (w : World) :
  let w1 := (subscribe k c w).2 in
  let w2 := (subscribe k c w1).2 in
  w2 = w1 /\
  Set_has c (default [] (listeners w2 !! k)) = true /\
  Set_has c
    (default [] (listeners (call_unsubscribe (subscribe k c w).1 w2) !! k))
  = false.
Proof.
  intros w1 w2.
  assert (Hl1 : listeners w1 !! k =
                Some (Set_add c (default [] (listeners w !! k)))).
  { unfold w1. by rewrite subscribe_listeners, lookup_insert_eq. }
  assert (Hl2 : listeners w2 = listeners w1).
  { unfold w2. rewrite subscribe_listeners, Hl1. simpl.
    rewrite Set_add_again. by apply insert_id. }
  assert (Heq : w2 = w1).
  { unfold w2. rewrite subscribe_world. fold w2. rewrite Hl2.
    apply with_listeners_same. }
  split_and!; [done| |].
  - rewrite Heq, Hl1. apply Set_has_add.
  - change (subscribe k c w).1 with (Unsubscribe k c).
    rewrite call_unsubscribe_listeners, Heq, Hl1, lookup_insert_eq.
    apply Set_has_delete_same.
Qed.

(** ** Bulk writes, key by key *)

Lemma pair_invocations_setState k v w kv :
  k <> "__proto__" -> kv.1 <> k ->
  pair_invocations (setState (VString k) v w) kv = pair_invocations w kv.
Proof.
  intros Hk Hne. unfold pair_invocations.
  by rewrite state_get_setState_other, setState_listeners.
Qed.

Lemma bulk_fold entries w w' :
  NoDup entries.*1 ->
  "__proto__" ∉ entries.*1 ->
  fold_left (fun w0 kv => setState (VString kv.1) kv.2 w0) entries w = w' ->
  (forall k (v : value), (k, v) ∈ entries -> state_get k w' = v) /\
  (forall k, k ∉ entries.*1 -> state_get k w' = state_get k w) /\
  calls w' = calls w ++ concat (map (pair_invocations w) entries).
Proof.
  revert w. induction entries as [|[k v] entries IH];
    intros w Hnd Hproto Hfold.
  - simpl in Hfold. subst w'.
    split_and!; [by intros k v ?%elem_of_nil|done|].
    simpl. by rewrite app_nil_r.
  - cbn [fold_left] in Hfold. simpl in Hnd, Hproto, Hfold.
    apply NoDup_cons in Hnd as [Hk Hnd].
    apply not_elem_of_cons in Hproto as [Hkp Hproto].
    destruct (IH (setState (VString k) v w) Hnd Hproto Hfold)
      as (Hin & Hout & Hcalls).
    split_and!.
    + intros k' v' [Heq|Hin']%elem_of_cons; [|by apply Hin].
      injection Heq as -> ->. rewrite (Hout k Hk).
      by rewrite state_get_setState, state_get_state_set.
    + intros k' [Hne Hnotin]%not_elem_of_cons.
      rewrite (Hout k' Hnotin). by apply state_get_setState_other.
    + rewrite Hcalls, setState_calls, <- app_assoc. simpl. f_equal.
      unfold pair_invocations at 2. simpl. f_equal.
      f_equal. apply map_ext_in. intros kv Hkv%list_elem_of_In.
      apply pair_invocations_setState; [done|].
      intros Heq. apply Hk. rewrite <- Heq.
      apply list_elem_of_fmap. by exists kv.
Qed.

(** X8.  A patch holds each key once, so a bulk [set(patch)] is a
    simultaneous write: afterwards every key of the patch holds the
    patch's value and every other key its old one, and the listeners are
    invoked key by key in the patch's order, each key's listeners with
    the value the key had before the call. *)
Theorem bulk_set_is_simultaneous (patch ignored : value) (w : World) :
  typeof patch = "object" ->
  patch <> VNull ->
  NoDup (own_enumerable (heap w) patch).*1 ->
  "__proto__" ∉ (own_enumerable (heap w) patch).*1 ->
  exists w',
    set patch ignored w = Ok w' /\
    (forall k (v : value),
       (k, v) ∈ own_enumerable (heap w) patch -> state_get k w' = v) /\
    (forall k,
       k ∉ (own_enumerable (heap w) patch).*1 ->
       state_get k w' = state_get k w) /\
    new_calls w w' =
      concat (map (pair_invocations w) (own_enumerable (heap w) patch)).
Proof.
  intros Hobj Hnull Hnd Hproto.
  destruct (bulk_fold (own_enumerable (heap w) patch) w _ Hnd Hproto
              eq_refl) as (Hin & Hout & Hcalls).
  eexists. split_and!; [|exact Hin|exact Hout|by apply new_calls_app].
  unfold set. rewrite bool_decide_eq_true_2 by done.
  by destruct patch.
Qed.

Lemma bulk_set_is_simultaneous_witness :
  exists w',
    set (VRef 3) VUndefined patch_store = Ok w' /\
    state_get "loading" w' = VBool true /\
    state_get "sidebarOpen" w' = VBool false /\
    state_get "theme" w' = VString "light" /\
    new_calls patch_store w' = [Call 1 (VBool true) (VBool false)].
Proof.
  destruct (bulk_set_is_simultaneous (VRef 3) VUndefined patch_store)
    as (w' & Hset & Hin & Hout & Hcalls).
  - reflexivity.
  - discriminate.
  - apply (bool_decide_unpack _). vm_compute. exact I.
  - apply (bool_decide_unpack _). vm_compute. exact I.
  - exists w'. split; [exact Hset|]. split_and!.
    + apply Hin. apply (bool_decide_unpack _). vm_compute. exact I.
    + apply Hin. apply (bool_decide_unpack _). vm_compute. exact I.
    + rewrite Hout; [reflexivity|].
      apply (bool_decide_unpack _). vm_compute. exact I.
    + rewrite Hcalls. reflexivity.
Defined.

(** ** Array operations and notification *)

Lemma set_array_calls k l l' w h' :
  own_get k (state w) = Some (VRef l) ->
  l <> l' ->
  exists w',
    set (VString k) (VRef l') (with_heap h' w) = Ok w' /\
    calls w' =
      calls w ++
      invocations (VRef l') (VRef l) (default [] (listeners w !! k)).
Proof.
  intros Hown Hne. eexists. split; [done|].
  rewrite setState_calls. simpl.
  assert (Hget : state_get k (with_heap h' w) = VRef l).
  { unfold state_get, prop_get. simpl. by rewrite Hown. }
  rewrite Hget. simpl. by rewrite bool_decide_eq_false_2.
Qed.

(** X9.  [addItem] and [removeItem] on a key whose own value is an
    array always write a new array, so they always invoke the listeners
    of the key, once, with the new and the old array: also when the
    predicate of [removeItem] removes nothing. *)
Theorem array_operations_always_notify (k : string) (w : World) (l : loc)
    (es : list value) :
  own_get k (state w) = Some (VRef l) ->
  heap w !! l = Some (OArray es) ->
  (forall item,
     exists w',
       addItem (VString k) item w = Ok w' /\
       new_calls w w' =
         invocations (VRef (List.length (heap w))) (VRef l)
                     (default [] (listeners w !! k))) /\
  (forall predicate,
     (forall x, x ∈ es -> exists r, predicate (heap w) x = inr r) ->
     exists w',
       removeItem (VString k) predicate w = Ok w' /\
       List.length (heap w) <> l /\
       new_calls w w' =
         invocations (VRef (List.length (heap w))) (VRef l)
                     (default [] (listeners w !! k))).
Proof.
  intros Hown Harr.
  assert (Hget : state_get k w = VRef l)
    by (unfold state_get, prop_get; by rewrite Hown).
  assert (Hlt : l < List.length (heap w)) by by eapply lookup_lt_Some.
  assert (Hne : l <> List.length (heap w)) by lia.
  split.
  - intros item.
    destruct (set_array_calls k l (List.length (heap w)) w
                (heap w ++ [OArray (es ++ [item])]) Hown Hne)
      as (w' & Hset & Hcalls).
    exists w'. split; [|by apply new_calls_app].
    unfold addItem. rewrite ToPropertyKey_string. by rewrite Hget, Harr.
  - intros predicate Htotal.
    destruct (set_array_calls k l (List.length (heap w)) w
                (heap w ++
                 [OArray (List.filter
                            (fun x => negb (holds predicate (heap w) x))
                            es)]) Hown Hne)
      as (w' & Hset & Hcalls).
    exists w'. split_and!; [|lia|by apply new_calls_app].
    unfold removeItem. rewrite ToPropertyKey_string. rewrite Hget, Harr.
    by rewrite Array_filter_total.
Qed.

Lemma array_operations_always_notify_witness :
  let w :=
    (subscribe "items" 1
       (items_store [VNumber 1; VNumber 2; VNumber 3])).2 in
  exists w',
    removeItem (VString "items") (fun _ _ => inr (VBool false)) w = Ok w' /\
    heap w' !! 5 = Some (OArray [VNumber 1; VNumber 2; VNumber 3]) /\
    new_calls w w' = [Call 1 (VRef 5) (VRef 3)].
Proof.
  intros w.
  destruct (array_operations_always_notify "items" w 3
              [VNumber 1; VNumber 2; VNumber 3] eq_refl eq_refl)
    as (_ & Hremove).
  destruct (Hremove (fun _ _ => inr (VBool false)))
    as (w' & Hw' & _ & Hcalls).
  { intros x _. eexists. reflexivity. }
  exists w'. split; [exact Hw'|]. split; [|exact Hcalls].
  injection Hw' as <-. reflexivity.
Defined.

(** ** Persisting and starting again *)

Lemma restart_theme h0 code old :
  state_get "theme" (restart h0 code old) =
  stored_theme (new_State h0 (localStorage old) code).
Proof.
  unfold restart, init, or_empty_object, alloc, state_get, prop_get.
  simpl. rewrite spread_entry. unfold entry, own_enumerable.
  assert (Hseed :
    (((h0 ++ [OObject []]) ++ [OArray []]) ++ [OObject []])
      !! List.length h0 = Some (OObject [])).
  { rewrite <- !app_assoc. by apply list_lookup_middle. }
  match goal with
  | |- context [rev (match ?x with _ => _ end)] =>
      replace x with (Some (OObject [])) by (symmetry; exact Hseed)
  end.
  reflexivity.
Qed.

(** X10.  [persist('theme')] writes the theme as JSON text, and [init]
    reads [localStorage.getItem('theme')] as it is: after a restart
    over the same storage the theme is the JSON text of the earlier
    theme, not the theme itself. *)
Theorem persisted_theme_is_read_undecoded
    (JSON_stringify : list object -> held -> exn + option string)
    (h0 : list object) (code : callback -> value -> held -> option exn)
    (w : World) (text : string) :
  JSON_stringify (heap w) (state_get "theme" w) = inr (Some text) ->
  text <> EmptyString ->
  state_get "theme" (restart h0 code (persist JSON_stringify "theme" w)) =
  VString text.
Proof.
  intros Htext Hne. rewrite restart_theme.
  unfold stored_theme, persist. rewrite Htext. simpl.
  rewrite lookup_insert_eq. by destruct text.
Qed.

Lemma persisted_theme_is_read_undecoded_witness :
  let w := world_of (set (VString "theme") (VString "dark")
                         (fresh_store example_code)) in
  state_get "theme" w = VString "dark" /\
  state_get "theme"
    (restart [] example_code (persist mini_stringify "theme" w)) =
  VString (quoted "dark").
Proof.
  intros w. split; [reflexivity|].
  apply (persisted_theme_is_read_undecoded mini_stringify [] example_code w
           (quoted "dark")); [reflexivity|discriminate].
Defined.

(** ** What the store does to the objects it is given *)

Lemma setState_heap key v w : heap (setState key v w) = heap w.
Proof.
  unfold setState, notifyListeners.
  destruct (state_set_frame (to_property_key key) v w) as (_ & Hh & _).
  destruct (negb _); [|done].
  destruct (Map_get _ key); [|done].
  by rewrite notify_fold.
Qed.

Lemma set_heap keyOrObject v w :
  heap (world_of (set keyOrObject v w)) = heap w.
Proof.
  unfold set. case_bool_decide; [|apply setState_heap].
  destruct (Object_entries (heap w) keyOrObject) as [e|entries]; [done|].
  simpl. revert w. induction entries as [|kv entries IH]; intros w; [done|].
  cbn [fold_left]. rewrite IH. apply setState_heap.
Qed.

Lemma init_heap seed w : exists news, heap (init seed w) = heap w ++ news.
Proof.
  destruct (init_state seed w) as (os & n & e & -> & _).
  by exists os.
Qed.

Lemma Array_map_heap predicate updates h es :
  exists news,
    match Array_map (update_arrow predicate updates) h es with
    | inl (_, h') => h'
    | inr (_, h') => h'
    end = h ++ news.
Proof.
  revert h. induction es as [|item es IH]; intros h; simpl.
  - exists []. by rewrite app_nil_r.
  - unfold update_arrow at 1.
    destruct (predicate h item) as [e|r]; simpl.
    { exists []. by rewrite app_nil_r. }
    destruct (to_boolean r); simpl.
    + destruct (IH (h ++ [OObject (merged h item updates)])) as (news & Hn).
      exists (OObject (merged h item updates) :: news).
      rewrite <- app_assoc in Hn. simpl in Hn.
      by destruct (Array_map _ _ es) as [[? ?]|[? ?]].
    + destruct (IH h) as (news & Hn). exists news.
      by destruct (Array_map _ _ es) as [[? ?]|[? ?]].
Qed.

Lemma run_heap o w :
  only_allocates o -> exists news, heap (run o w) = heap w ++ news.
Proof.
  assert (Hsame : forall w', heap w' = heap w ->
            exists news, heap w' = heap w ++ news).
  { intros w' ->. exists []. by rewrite app_nil_r. }
  destruct o; intros Hparse; cbn [run].
  - apply init_heap.
  - unfold reset.
    assert (Hor : exists n0,
              (or_empty_object initialState (heap w)).2 = heap w ++ n0).
    { destruct initialState; simpl;
        try (exists []; by rewrite app_nil_r). by eexists. }
    destruct (or_empty_object initialState (heap w)) as [seed h0].
    simpl in Hor. destruct Hor as (n0 & ->).
    destruct (init_heap seed (with_heap (heap w ++ n0) w)) as (news & ->).
    simpl. exists (n0 ++ news). by rewrite app_assoc.
  - apply Hsame, set_heap.
  - by apply Hsame.
  - apply Hsame. unfold call_unsubscribe.
    by destruct (listeners w !! un_key u).
  - apply Hsame. unfold toggle.
    destruct (ToPropertyKey (heap w) key) as [e|k]; [done|].
    destruct (state_get k w) as [[]|]; try done. apply set_heap.
  - unfold addItem.
    destruct (ToPropertyKey (heap w) key) as [e|k]; [by apply Hsame|].
    destruct (state_get k w) as [[]|]; try by apply Hsame.
    destruct (heap w !! l) as [[ps|es]|]; try by apply Hsame.
    unfold alloc. cbv beta iota. rewrite set_heap. simpl. by eexists.
  - unfold removeItem.
    destruct (ToPropertyKey (heap w) key) as [e|k]; [by apply Hsame|].
    destruct (state_get k w) as [[]|]; try by apply Hsame.
    destruct (heap w !! l) as [[ps|es]|]; try by apply Hsame.
    destruct (Array_filter _ es); [by apply Hsame|].
    unfold alloc. cbv beta iota. rewrite set_heap. simpl. by eexists.
  - unfold updateItem.
    destruct (ToPropertyKey (heap w) key) as [e0|k]; [by apply Hsame|].
    destruct (state_get k w) as [[]|]; try by apply Hsame.
    destruct (heap w !! l) as [[ps|es]|]; try by apply Hsame.
    destruct (Array_map_heap predicate updates (heap w) es) as (news & Hn).
    destruct (Array_map _ _ es) as [[e h1]|[rs h1]];
      cbv beta iota in Hn |- *.
    + by exists news.
    + unfold alloc. cbv beta iota. rewrite set_heap. simpl. rewrite Hn.
      exists (news ++ [OArray rs]). by rewrite app_assoc.
  - apply Hsame. unfold persist.
    by destruct (JSON_stringify _ _).
  - unfold loadPersisted.
    destruct (localStorage w !! key) as [text|]; [|by apply Hsame].
    destruct (to_boolean _); [|by apply Hsame].
    destruct (JSON_parse text (heap w)) as [e|[parsed h']] eqn:Hp;
      [by apply Hsame|].
    destruct (Hparse _ _ _ _ Hp) as (news & ->).
    pose proof (set_heap (VString key) parsed
                  (with_heap (heap w ++ news) w)) as Hset.
    destruct (set _ _ _) as [w'|e w']; simpl in *; rewrite Hset; by eexists.
Qed.

Lemma build_grows : forall j h, exists news, (build j h).2 = h ++ news.
Proof.
  fix IH 1. intros [|b|n|s|items|members] h; simpl;
    try (exists []; by rewrite app_nil_r).
  - match goal with
    | |- context [?f items h] =>
        assert (Hitems : forall h0, exists news, (f items h0).2 = h0 ++ news)
    end.
    { induction items as [|item items IHitems]; intros h0; simpl.
      - exists []. by rewrite app_nil_r.
      - destruct (IH item h0) as (n1 & H1).
        destruct (build item h0) as [v h1]. simpl in H1. subst h1.
        destruct (IHitems (h0 ++ n1)) as (n2 & H2).
        match goal with
        | |- context [let '(_, _) := ?x in _] => destruct x as [vs h2]
        end.
        simpl in *. subst h2. exists (n1 ++ n2). by rewrite app_assoc. }
    destruct (Hitems h) as (news & Hn).
    match goal with
    | |- context [let '(_, _) := ?x in _] => destruct x as [vs h1]
    end.
    simpl in *. subst h1. exists (news ++ [OArray vs]).
    by rewrite app_assoc.
  - match goal with
    | |- context [?f members [] h] =>
        assert (Hmembers : forall ps h0,
                  exists news, (f members ps h0).2 = h0 ++ news)
    end.
    { induction members as [|[k j'] members IHmembers]; intros ps h0; simpl.
      - exists []. by rewrite app_nil_r.
      - destruct (IH j' h0) as (n1 & H1).
        destruct (build j' h0) as [v h1]. simpl in H1. subst h1.
        destruct (IHmembers (define_property k v ps) (h0 ++ n1))
          as (n2 & H2).
        exists (n1 ++ n2). by rewrite H2, app_assoc. }
    destruct (Hmembers [] h) as (news & Hn).
    match goal with
    | |- context [let '(_, _) := ?x in _] => destruct x as [ps h1]
    end.
    simpl in *. subst h1. exists (news ++ [OObject ps]).
    by rewrite app_assoc.
Qed.

(** X11.  The store never writes into an object or array it is given or
    holds: whatever sequence of calls runs, the objects that existed
    before are all still there, unchanged, and new ones are only added
    (the arrays of [addItem], [removeItem] and [updateItem] and the
    merged items are new objects). *)
Theorem store_never_mutates_objects (os : list operation) (w : World) :
  Forall only_allocates os ->
  (exists news, heap (run_all os w) = heap w ++ news) /\
  (forall l o, heap w !! l = Some o -> heap (run_all os w) !! l = Some o).
Proof.
  intros Hos.
  assert (Hgrow : exists news, heap (run_all os w) = heap w ++ news).
  { revert w. induction Hos as [|o os Ho _ IH]; intros w.
    - exists []. by rewrite app_nil_r.
    - unfold run_all. cbn [fold_left].
      destruct (run_heap o w Ho) as (n1 & H1).
      destruct (IH (run o w)) as (n2 & H2).
      exists (n1 ++ n2). unfold run_all in H2.
      by rewrite H2, H1, app_assoc. }
  split; [exact Hgrow|].
  intros l o Hl. destruct Hgrow as (news & ->).
  by apply lookup_app_l_Some.
Qed.

Lemma store_never_mutates_objects_witness :
  let w := items_store [VNumber 1; VNumber 2] in
  let os := [AddItem (VString "items") (VNumber 3);
             UpdateItem (VString "items") always (VRef 4);
             RemoveItem (VString "items") is_one;
             LoadPersisted mini_parse "theme"] in
  heap w !! 3 = Some (OArray [VNumber 1; VNumber 2]) /\
  heap (run_all os w) !! 3 = Some (OArray [VNumber 1; VNumber 2]).
Proof.
  intros w os. split; [reflexivity|].
  apply (store_never_mutates_objects os w); [|reflexivity].
  repeat (apply Forall_cons; split; [exact I|]).
  apply Forall_cons. split; [|apply Forall_nil_2].
  intros text h v h' Hparse. unfold mini_parse in Hparse.
  destruct (parse_value _ text) as [[j rest]|]; [|discriminate].
  destruct rest; [|discriminate].
  destruct (build_grows j h) as (news & Hnews).
  injection Hparse as Hbuild. rewrite Hbuild in Hnews.
  exists news. exact Hnews.
Defined.

(** ** Persisting a key that holds nothing *)

(** X12.  [persist(k)] on a key whose value is [undefined] stores the
    text [undefined], since [JSON.stringify(undefined)] is [undefined]
    and [setItem] stores the string form of its argument.  A later
    [loadPersisted(k)] finds a text that [JSON.parse] rejects: it logs
    the error, returns [null], and neither changes the state nor
    invokes a listener. *)
Theorem persist_unset_key
    (JSON_stringify : list object -> held -> exn + option string)
    (JSON_parse : string -> list object -> exn + value * list object)
    (k : string) (w : World) (e : exn) :
  state_get k w = VUndefined ->
  JSON_stringify (heap w) VUndefined = inr None ->
  JSON_parse "undefined" (heap w) = inl e ->
  let w1 := persist JSON_stringify k w in
  let '(r, w2) := loadPersisted JSON_parse k w1 in
  localStorage w1 !! k = Some "undefined" /\
  r = VNull /\
  state w2 = state w /\
  state_proto w2 = state_proto w /\
  new_calls w w2 = [] /\
  new_errors w w2 = [("Error loading persisted state:", e)].
Proof.
  intros Hget Hstringify Hparse. unfold persist, loadPersisted.
  rewrite Hget, Hstringify. simpl.
  rewrite lookup_insert_eq, Hparse. simpl.
  split_and!; try done.
  - apply new_calls_app. by rewrite app_nil_r.
  - by apply new_errors_app.
Qed.

Lemma persist_unset_key_witness :
  let w := (subscribe "draft" 1 (fresh_store example_code)).2 in
  let w1 := persist mini_stringify "draft" w in
  let '(r, w2) := loadPersisted mini_parse "draft" w1 in
  localStorage w1 !! "draft" = Some "undefined" /\
  r = VNull /\
  state w2 = state w /\
  state_proto w2 = state_proto w /\
  new_calls w w2 = [] /\
  new_errors w w2 =
    [("Error loading persisted state:", SyntaxError "Unexpected token")].
Proof.
  intros w.
  apply (persist_unset_key mini_stringify mini_parse "draft" w
           (SyntaxError "Unexpected token")); reflexivity.
Defined.

(** * Properties of the utilities *)

Lemma last_param_snoc k params kv :
  last_param k (params ++ [kv]) =
  if bool_decide (kv.1 = k) then Some kv.2 else last_param k params.
Proof.
  unfold last_param. rewrite filter_app, filter_cons, filter_nil.
  case_bool_decide; simpl.
  - rewrite decide_True by done. by rewrite last_snoc.
  - rewrite decide_False by done. by rewrite app_nil_r.
Qed.

Lemma assign_param_proto h ps kv :
  own_get "__proto__" ps = None ->
  kv.1 = "__proto__" ->
  assign_param h (VObjectPrototype, ps) kv = (VObjectPrototype, ps).
Proof.
  intros Hnone Hk. unfold assign_param, prop_set. simpl.
  rewrite Hk, Hnone. by rewrite bool_decide_eq_true_2.
Qed.

(** X13.  [getQueryParams] keeps, for every parameter name, the value of
    its last occurrence in the query string, as an own property of the
    result.  A parameter named [__proto__] is dropped: it becomes no
    property and the prototype of the result stays [Object.prototype],
    whatever the query string holds. *)
Theorem getQueryParams_last_wins
    (URLSearchParams : string -> list (string * string))
    (h : list object) (search : string) :
  (getQueryParams URLSearchParams h search).1 = VObjectPrototype /\
  own_get "__proto__" (getQueryParams URLSearchParams h search).2 = None /\
  forall k,
    k <> "__proto__" ->
    own_get k (getQueryParams URLSearchParams h search).2 =
    VString <$> last_param k (URLSearchParams search).
Proof.
  unfold getQueryParams.
  induction (URLSearchParams search) as [|kv params IH] using rev_ind.
  - by split_and!.
  - rewrite fold_left_app. cbn [fold_left].
    destruct IH as (Hproto & Hnone & Hkeys).
    destruct (fold_left _ params _) as [proto ps]. simpl in *. subst proto.
    destruct (decide (kv.1 = "__proto__")) as [Hk|Hk].
    + rewrite assign_param_proto by done. split_and!; try done.
      intros k Hne. rewrite last_param_snoc, bool_decide_eq_false_2
        by congruence.
      by apply Hkeys.
    + unfold assign_param. simpl.
      destruct (prop_set_other h kv.1 (VString kv.2) VObjectPrototype ps Hk)
        as (ps' & -> & Hset & Hother).
      simpl. split_and!; try done.
      * rewrite Hother by done. exact Hnone.
      * intros k Hne. rewrite last_param_snoc. case_bool_decide.
        -- subst k. by rewrite Hset.
        -- rewrite Hother by done. by apply Hkeys.
Qed.

(** * Properties of the API client and the session *)

Lemma own_get_delete k ps : own_get k (own_delete k ps) = None.
Proof.
  unfold own_delete. induction ps as [|[k' v] ps IH]; [done|].
  rewrite filter_cons. simpl. destruct (decide (k' <> k)) as [Hne|Heq].
  - simpl. by rewrite bool_decide_eq_false_2.
  - exact IH.
Qed.

Section ClientFacts.

Variable Object_toString : list object -> loc -> string.
Variable JSON_stringify : list object -> held -> exn + option string.
Variable JSON_parse : string -> list object -> exn + value * list object.

Lemma clearSession_logged_out p :
  logged_out (clearSession Object_toString p).
Proof.
  unfold logged_out, clearSession, setToken. simpl.
  split_and!; try done.
  - apply own_get_delete.
  - rewrite lookup_delete_ne by done. apply lookup_delete_eq.
  - apply lookup_delete_eq.
Qed.

Lemma clearSession_frame p :
  page_heap (clearSession Object_toString p) = page_heap p /\
  page_console (clearSession Object_toString p) = page_console p /\
  location_href (clearSession Object_toString p) = location_href p /\
  unauthorized_listeners (clearSession Object_toString p) =
    unauthorized_listeners p /\
  fetched (clearSession Object_toString p) = fetched p /\
  dispatched (clearSession Object_toString p) = dispatched p.
Proof. done. Qed.

Lemma on_unauthorized_iter n p :
  0 < n ->
  logged_out (Nat.iter n (on_unauthorized Object_toString) p) /\
  location_href (Nat.iter n (on_unauthorized Object_toString) p) = "/login".
Proof.
  destruct n as [|n]; [lia|]. intros _. simpl.
  split; [|done]. apply clearSession_logged_out.
Qed.

Lemma on_unauthorized_iter_frame n p :
  page_heap (Nat.iter n (on_unauthorized Object_toString) p) = page_heap p /\
  page_console (Nat.iter n (on_unauthorized Object_toString) p) =
    page_console p /\
  unauthorized_listeners (Nat.iter n (on_unauthorized Object_toString) p) =
    unauthorized_listeners p /\
  fetched (Nat.iter n (on_unauthorized Object_toString) p) = fetched p /\
  dispatched (Nat.iter n (on_unauthorized Object_toString) p) = dispatched p.
Proof.
  induction n as [|n IH]; [done|]. simpl.
  destruct IH as (? & ? & ? & ? & ?). by split_and!.
Qed.

End ClientFacts.

Section RequestFacts.

Variable Object_toString : list object -> loc -> string.
Variable fetch : nat -> list object -> string -> value -> exn + response.

(** Up to the call of [fetch], [request] only builds the two objects it
    hands over. *)
Lemma request_unfold endpoint options p :
  options <> VNull ->
  exists init p1,
    same_session p p1 /\
    fetched p1 = fetched p ++ [(String.append baseUrl endpoint, init)] /\
    request Object_toString fetch endpoint options p =
    match
      fetch (List.length (fetched p)) (page_heap p1)
            (String.append baseUrl endpoint) init
    with
    | inl e => request_catch Object_toString e p1
    | inr r =>
        match handleResponse r (page_heap p1) with
        | inl (e, h3) => request_catch Object_toString e (with_page_heap h3 p1)
        | inr (data, h3) => (inr data, with_page_heap h3 p1)
        end
    end.
Proof.
  intros Hnull. unfold request.
  destruct (or_empty_object options (page_heap p)) as [options' h0] eqn:Hor.
  assert (Hmember : exists extra, member h0 options' "headers" = inr extra).
  { destruct options; simpl in Hor; try done;
      injection Hor as <- <-; simpl; try by eexists.
    - rewrite list_lookup_middle by done. by eexists.
    - destruct (page_heap p !! l) as [[ps|es]|]; by eexists. }
  destruct Hmember as (extra & ->). unfold alloc. cbv beta iota.
  match goal with
  | |- context [record_fetch ?u ?i ?q] => exists i, (record_fetch u i q)
  end.
  by split_and!.
Qed.

Lemma request_catch_quiet e p :
  language_error e ->
  request_catch Object_toString e p = (inl e, p).
Proof. by destruct e. Qed.

Lemma member_cases h v k :
  match member h v k with
  | inl e => language_error e /\ nullish v = true
  | inr _ => nullish v = false
  end.
Proof.
  destruct v; simpl; try done.
  by destruct (h !! l) as [[ps|es]|].
Qed.

Lemma handleResponse_quiet r h e h' :
  (forall h0 e0, json_body r h0 = inl e0 -> language_error e0) ->
  handleResponse r h = inl (e, h') ->
  language_error e \/
  exists data h1 message errors,
    json_body r h = inr (data, h1) /\
    nullish data = false /\
    ok r = false /\
    member h1 data "message" = inr message /\
    member h1 data "errors" = inr errors /\
    e = Thrown (VRef (List.length h1)) /\
    h' = h1 ++
         [OObject
            [("status", VNumber (status r));
             ("message",
              if to_boolean message then message
              else VString "An error occurred");
             ("errors", errors)]].
Proof.
  intros Hbody. unfold handleResponse, alloc.
  destruct (json_body r h) as [e0|[data h1]] eqn:Hjson.
  - intros Heq. simplify_eq. left. by eapply Hbody.
  - destruct (ok r); [done|].
    pose proof (member_cases h1 data "message") as Hm.
    pose proof (member_cases h1 data "errors") as He.
    destruct (member h1 data "message") as [e1|m] eqn:Hmessage.
    { intros Heq. simplify_eq. left. by destruct Hm. }
    destruct (member h1 data "errors") as [e2|errors] eqn:Herrors.
    { intros Heq. simplify_eq. left. by destruct He. }
    intros Heq. simplify_eq. right.
    exists data, h1, m, errors. by split_and!.
Qed.

End RequestFacts.

Lemma same_session_heap p h : same_session p (with_page_heap h p).
Proof. by repeat split. Qed.

Lemma same_session_trans p1 p2 p3 :
  same_session p1 p2 -> same_session p2 p3 -> same_session p1 p3.
Proof.
  unfold same_session.
  intros (-> & -> & -> & -> & -> & -> & -> & ->)
         (-> & -> & -> & -> & -> & -> & -> & ->). done.
Qed.

Lemma member_thrown h s m e :
  member (h ++ [OObject [("status", s); ("message", m); ("errors", e)]])
         (VRef (List.length h)) "status" = inr s.
Proof. unfold member. by rewrite list_lookup_middle. Qed.

(** X14.  A response that is not ok, has status 401 and a JSON body
    other than [null] makes [request] reject with an object of status
    401 and send one event [unauthorized] to the window; with the
    listener of [auth] installed this logs the user out (no token, no
    user, no [Authorization] header, nothing stored) and sets the
    location to [/login], whatever request it was. *)
Theorem unauthorized_response_logs_out
    (Object_toString : list object -> loc -> string)
    (fetch : nat -> list object -> string -> value -> exn + response)
    (r : response) (endpoint : string) (options : value) (p : Page) :
  options <> VNull ->
  0 < unauthorized_listeners p ->
  (forall n h url init, fetch n h url init = inr r) ->
  ok r = false ->
  status r = 401%Z ->
  (forall h, exists data h',
     json_body r h = inr (data, h') /\ nullish data = false) ->
  exists l p',
    request Object_toString fetch endpoint options p =
      (inl (Thrown (VRef l)), p') /\
    member (page_heap p') (VRef l) "status" = inr (VNumber 401) /\
    dispatched p' = dispatched p ++ ["unauthorized"] /\
    logged_out p' /\
    location_href p' = "/login".
Proof.
  intros Hnull Hlistener Hfetch Hok Hstatus Hbody.
  destruct (request_unfold Object_toString fetch endpoint options p Hnull)
    as (init & p1 & Hsame & _ & ->).
  rewrite Hfetch. unfold handleResponse, alloc.
  destruct (Hbody (page_heap p1)) as (data & h1 & -> & Hdata).
  rewrite Hok.
  pose proof (member_cases h1 data "message") as Hm.
  pose proof (member_cases h1 data "errors") as He.
  destruct (member h1 data "message") as [e1|m];
    [destruct Hm; congruence|].
  destruct (member h1 data "errors") as [e2|errors];
    [destruct He; congruence|].
  unfold request_catch, error_status. cbn [page_heap with_page_heap].
  rewrite member_thrown, Hstatus.
  change (strict_equal (VNumber 401) (VNumber 401)) with true. cbv iota.
  eexists _, _. split; [reflexivity|].
  unfold dispatch_unauthorized.
  destruct Hsame as (_ & _ & _ & _ & _ & _ & Hl & Hd).
  match goal with
  | |- context [Nat.iter ?n ?f ?q] =>
      destruct (on_unauthorized_iter_frame Object_toString n q)
        as (Hheap & _ & _ & _ & Hdisp);
      destruct (on_unauthorized_iter Object_toString n q)
        as (Hout & Hhref); [simpl; lia|]
  end.
  split_and!; [|by rewrite Hdisp; simpl; rewrite Hd|exact Hout|exact Hhref].
  rewrite Hheap. apply member_thrown.
Qed.

Lemma unauthorized_response_logs_out_witness :
  isAuthenticated signed_in = true /\
  exists l p',
    request plain_toString (answer unauthorized_response) "/orders"
            VUndefined signed_in = (inl (Thrown (VRef l)), p') /\
    member (page_heap p') (VRef l) "status" = inr (VNumber 401) /\
    dispatched p' = dispatched signed_in ++ ["unauthorized"] /\
    logged_out p' /\
    location_href p' = "/login".
Proof.
  split; [reflexivity|].
  apply (unauthorized_response_logs_out plain_toString
           (answer unauthorized_response) unauthorized_response
           "/orders" VUndefined signed_in).
  - discriminate.
  - vm_compute. lia.
  - reflexivity.
  - reflexivity.
  - reflexivity.
  - intros h. eexists _, _. split; reflexivity.
Defined.

(** X15.  Nothing but such a 401 answer touches the session: when
    [fetch] rejects with an error of the platform (the network is down),
    or the body is not JSON, or the body is [null], or the response is
    ok, or its status is not 401, then [request] sends no event and
    leaves the token, the user, the headers, the storage, the console
    and the location as they are.  So a 401 whose body is not JSON does
    not log the user out. *)
Theorem only_a_401_answer_touches_the_session
    (Object_toString : list object -> loc -> string)
    (fetch : nat -> list object -> string -> value -> exn + response)
    (outcome : exn + response) (endpoint : string) (options : value)
    (p : Page) :
  (forall n h url init, fetch n h url init = outcome) ->
  match outcome with
  | inl e => language_error e
  | inr r =>
      (forall h e, json_body r h = inl e -> language_error e) /\
      (ok r = true \/
       status r <> 401%Z \/
       forall h, match json_body r h with
                 | inr (data, _) => nullish data = true
                 | inl _ => True
                 end)
  end ->
  same_session p (request Object_toString fetch endpoint options p).2.
Proof.
  intros Hfetch Houtcome.
  destruct (decide (options = VNull)) as [->|Hnull].
  { unfold request. simpl. by repeat split. }
  destruct (request_unfold Object_toString fetch endpoint options p Hnull)
    as (init & p1 & Hsame & _ & ->).
  rewrite Hfetch. destruct outcome as [e|r].
  { by rewrite request_catch_quiet. }
  destruct Houtcome as (Hbody & Hcases).
  destruct (handleResponse r (page_heap p1)) as [[e h3]|[data h3]] eqn:Hr;
    [|by eapply same_session_trans, same_session_heap].
  destruct (handleResponse_quiet r _ e h3 Hbody Hr)
    as [He|(data & h1 & m & errors & Hjson & Hdata & Hok & _ & _ & -> & ->)].
  { rewrite request_catch_quiet by done.
    by eapply same_session_trans, same_session_heap. }
  assert (Hstatus : status r <> 401%Z).
  { destruct Hcases as [Hok'|[Hs|Hnullish]]; [congruence|done|].
    specialize (Hnullish (page_heap p1)). rewrite Hjson in Hnullish.
    congruence. }
  unfold request_catch, error_status. cbn [page_heap with_page_heap].
  rewrite member_thrown. cbn [strict_equal].
  rewrite bool_decide_eq_false_2 by done.
  by eapply same_session_trans, same_session_heap.
Qed.

Lemma only_a_401_answer_touches_the_session_witness :
  status unauthorized_page_response = 401%Z /\
  same_session signed_in
    (request plain_toString (answer unauthorized_page_response) "/orders"
             VUndefined signed_in).2.
Proof.
  split; [reflexivity|].
  apply (only_a_401_answer_touches_the_session plain_toString
           (answer unauthorized_page_response)
           (inr unauthorized_page_response)).
  - reflexivity.
  - split.
    + intros h e Heq. injection Heq as <-. exact I.
    + right. right. intros h. exact I.
Defined.

Section SessionFacts.

Variable Object_toString : list object -> loc -> string.
Variable JSON_stringify : list object -> held -> exn + option string.
Variable fetch : nat -> list object -> string -> value -> exn + response.

Lemma session_or_clear_failed r e p' :
  session_or_clear Object_toString JSON_stringify r = (inl e, p') ->
  logged_out p'.
Proof.
  unfold session_or_clear. destruct r as [[error|response] p1].
  - intros Heq. simplify_eq. apply clearSession_logged_out.
  - destruct (session_of_response _ _ response p1) as [[error|] p2];
      intros Heq; simplify_eq.
    apply clearSession_logged_out.
Qed.

Lemma setSession_ok token user p p' :
  setSession Object_toString JSON_stringify token user p = (None, p') ->
  auth_token p' = token /\
  auth_user p' = user /\
  page_heap p' = page_heap p /\
  page_storage p' !! tokenKey = Some (to_string Object_toString (page_heap p) token) /\
  (exists text,
     JSON_stringify (page_heap p) user = inr text /\
     page_storage p' !! userKey = Some (default "undefined" text)) /\
  own_get "Authorization" (api_headers p') =
    (if to_boolean token
     then Some (VString (String.append "Bearer "
                           (to_string Object_toString (page_heap p) token)))
     else None).
Proof.
  unfold setSession.
  destruct (JSON_stringify (page_heap p) user) as [e|text]; [done|].
  intros Heq. simplify_eq. unfold setToken. simpl.
  destruct (to_boolean token); simpl; split_and!; try done.
  - by rewrite lookup_insert_ne, lookup_insert_eq.
  - exists text. by rewrite lookup_insert_eq.
  - apply own_get_define_eq.
  - by rewrite lookup_insert_ne, lookup_insert_eq.
  - exists text. by rewrite lookup_insert_eq.
  - apply own_get_delete.
Qed.

End SessionFacts.

(** X16.  A [login] or a [refreshToken] that rejects, for whatever
    reason (a refused password, a response without a body, a network
    that is down), leaves nobody logged in: no token, no user, no
    [Authorization] header and nothing in the storage. *)
Theorem a_failed_login_logs_out
    (Object_toString : list object -> loc -> string)
    (JSON_stringify : list object -> held -> exn + option string)
    (fetch : nat -> list object -> string -> value -> exn + response)
    (email password : value) (p p' : Page) (e : exn) :
  login Object_toString JSON_stringify fetch email password p = (inl e, p') \/
  refreshToken Object_toString JSON_stringify fetch p = (inl e, p') ->
  logged_out p'.
Proof.
  unfold login, refreshToken, alloc.
  intros [H|H]; by eapply session_or_clear_failed.
Qed.

Lemma a_failed_login_logs_out_witness :
  isAuthenticated signed_in = true /\
  logged_out
    (refreshToken plain_toString mini_stringify
       (failure (TypeError "Failed to fetch")) signed_in).2.
Proof.
  split; [reflexivity|].
  apply (a_failed_login_logs_out plain_toString mini_stringify
           (failure (TypeError "Failed to fetch")) VUndefined VUndefined
           signed_in _ (TypeError "Failed to fetch")).
  right. reflexivity.
Defined.

(** X17.  [logout] always ends with nobody logged in and the location
    set to [/login]: whether the request succeeds, is refused or cannot
    be sent, the error is at most logged. *)
Theorem logout_always_logs_out
    (Object_toString : list object -> loc -> string)
    (JSON_stringify : list object -> held -> exn + option string)
    (fetch : nat -> list object -> string -> value -> exn + response)
    (p : Page) :
  logged_out (logout Object_toString JSON_stringify fetch p) /\
  location_href (logout Object_toString JSON_stringify fetch p) = "/login".
Proof.
  unfold logout.
  destruct (post _ _ _ "/auth/logout" VUndefined p) as [r p1].
  split; [|done]. apply clearSession_logged_out.
Qed.

Lemma login_resolved
    (Object_toString : list object -> loc -> string)
    (JSON_stringify : list object -> held -> exn + option string)
    (fetch : nat -> list object -> string -> value -> exn + response)
    email password p response p' :
  login Object_toString JSON_stringify fetch email password p =
    (inr response, p') ->
  exists p1 token user,
    member (page_heap p1) response "token" = inr token /\
    member (page_heap p1) response "user" = inr user /\
    setSession Object_toString JSON_stringify token user p1 = (None, p').
Proof.
  unfold login, alloc, session_or_clear.
  destruct (post _ _ _ _ _ _) as [[error|response'] p1]; [done|].
  unfold session_of_response.
  destruct (member (page_heap p1) response' "token") as [e|token] eqn:Ht;
    [done|].
  destruct (member (page_heap p1) response' "user") as [e|user] eqn:Hu;
    [done|].
  destruct (setSession _ _ token user p1) as [[error|] p2] eqn:Hs; [done|].
  intros Heq. simplify_eq. by exists p1, token, user.
Qed.

(** X18.  A [login] that resolves has made [response.token] and
    [response.user] the session, whatever they are: the client is
    authenticated exactly when the token is truthy, and only then is
    there an [Authorization] header, [Bearer] followed by the token.  A
    response without a token resolves the login and authenticates
    nobody. *)
Theorem a_resolved_login_sets_the_session
    (Object_toString : list object -> loc -> string)
    (JSON_stringify : list object -> held -> exn + option string)
    (fetch : nat -> list object -> string -> value -> exn + response)
    (email password response : value) (p p' : Page) :
  login Object_toString JSON_stringify fetch email password p =
    (inr response, p') ->
  exists token user,
    member (page_heap p') response "token" = inr token /\
    member (page_heap p') response "user" = inr user /\
    auth_token p' = token /\
    getUser p' = user /\
    isAuthenticated p' = to_boolean token /\
    page_storage p' !! tokenKey =
      Some (to_string Object_toString (page_heap p') token) /\
    own_get "Authorization" (api_headers p') =
      (if to_boolean token
       then Some (VString (String.append "Bearer "
                             (to_string Object_toString (page_heap p') token)))
       else None).
Proof.
  intros Hlogin.
  destruct (login_resolved _ _ _ _ _ _ _ _ Hlogin)
    as (p1 & token & user & Ht & Hu & Hs).
  destruct (setSession_ok _ _ _ _ _ _ Hs)
    as (Htoken & Huser & Hheap & Hstored & _ & Hheader).
  exists token, user. unfold isAuthenticated, getUser.
  rewrite Hheap, Htoken. by split_and!.
Qed.

Lemma a_resolved_login_sets_the_session_witness :
  exists response p',
    login plain_toString mini_stringify (answer empty_response)
          (VString "ann@example.org") (VString "secret") (new_page ∅) =
      (inr response, p') /\
    isAuthenticated p' = false /\
    page_storage p' !! tokenKey = Some "undefined" /\
    own_get "Authorization" (api_headers p') = None.
Proof.
  pose (r := login plain_toString mini_stringify (answer empty_response)
               (VString "ann@example.org") (VString "secret") (new_page ∅)).
  assert (Hr : r = (inr (VRef 4), r.2)) by reflexivity.
  exists (VRef 4), r.2. split; [exact Hr|].
  destruct (a_resolved_login_sets_the_session plain_toString mini_stringify
              (answer empty_response) (VString "ann@example.org")
              (VString "secret") (VRef 4) (new_page ∅) r.2 Hr)
    as (token & user & Ht & _ & _ & _ & Hauth & Hstored & Hheader).
  injection Ht as <-. by split_and!.
Defined.

(** X19.  The storage keeps the string form of the token, and a newly
    loaded page takes that text for the token.  A token that is a
    non-empty string comes back as it was, with its header; but after
    [setSession(undefined, user)] or [setSession(null, user)], which
    authenticate nobody, the reloaded page is authenticated, with the
    token [undefined] or [null] as a text. *)
Theorem a_reload_reads_the_token_as_text
    (Object_toString : list object -> loc -> string)
    (JSON_stringify : list object -> held -> exn + option string)
    (JSON_parse : string -> list object -> exn + value * list object)
    (token user user' : value) (p p1 : Page) (text href : string)
    (h0 h' : list object) :
  setSession Object_toString JSON_stringify token user p = (None, p1) ->
  JSON_stringify (page_heap p) user = inr (Some text) ->
  JSON_parse text h0 = inr (user', h') ->
  exists p2,
    load_auth Object_toString JSON_parse (reload h0 href p1) = (None, p2) /\
    auth_token p2 = VString (to_string Object_toString (page_heap p) token) /\
    auth_user p2 = user' /\
    isAuthenticated p2 =
      negb (bool_decide
              (to_string Object_toString (page_heap p) token = EmptyString)) /\
    own_get "Authorization" (api_headers p2) =
      (if isAuthenticated p2
       then Some (VString (String.append "Bearer "
                    (to_string Object_toString (page_heap p) token)))
       else None).
Proof.
  intros Hs Htext Hparse.
  destruct (setSession_ok _ _ _ _ _ _ Hs)
    as (_ & _ & _ & Hstored & (text' & Htext' & Huser) & _).
  assert (text' = Some text) as -> by congruence. simpl in Huser.
  unfold load_auth, new_Auth, getItem, reload. simpl.
  rewrite Hstored, Huser. simpl. rewrite Hparse.
  unfold isAuthenticated.
  unfold isAuthenticated, setToken. simpl.
  destruct (bool_decide
              (to_string Object_toString (page_heap p) token = EmptyString))
    eqn:Hempty; eexists; (split; [reflexivity|]); simpl;
    rewrite ?Hempty; by split_and!.
Qed.

Lemma a_reload_reads_the_token_as_text_witness :
  let p := with_page_heap [OObject [("name", VString "Ann")]] (new_page ∅) in
  let p1 := (setSession plain_toString mini_stringify VUndefined (VRef 0) p).2
  in
  isAuthenticated p1 = false /\
  exists p2,
    load_auth plain_toString mini_parse (reload [] "/" p1) = (None, p2) /\
    auth_token p2 = VString "undefined" /\
    isAuthenticated p2 = true /\
    own_get "Authorization" (api_headers p2) =
      Some (VString "Bearer undefined").
Proof.
  intros p p1. split; [reflexivity|].
  destruct (a_reload_reads_the_token_as_text plain_toString mini_stringify
              mini_parse VUndefined (VRef 0) (VRef 0) p p1
              (String.append "{" (String.append (quoted "name")
                 (String.append ":" (String.append (quoted "Ann") "}"))))
              "/" [] [OObject [("name", VString "Ann")]])
    as (p2 & Hload & Htoken & _ & Hauth & Hheader);
    [reflexivity|reflexivity|reflexivity|].
  exists p2. rewrite Hauth in Hheader. by split_and!.
Defined.

(** X20.  A [login] that resolves with a response without [user] stores
    the text [undefined] for the user, [JSON.stringify(undefined)] being
    [undefined].  The constructor of [Auth] gives that text to
    [JSON.parse], which rejects it: on the next page load [new Auth()]
    throws, and the module installs no listener. *)
Theorem a_login_without_user_breaks_the_reload
    (Object_toString : list object -> loc -> string)
    (JSON_stringify : list object -> held -> exn + option string)
    (JSON_parse : string -> list object -> exn + value * list object)
    (fetch : nat -> list object -> string -> value -> exn + response)
    (email password response : value) (p p' : Page) (e : exn)
    (h0 : list object) (href : string) :
  login Object_toString JSON_stringify fetch email password p =
    (inr response, p') ->
  member (page_heap p') response "user" = inr VUndefined ->
  (forall h, JSON_stringify h VUndefined = inr None) ->
  JSON_parse "undefined" h0 = inl e ->
  page_storage p' !! userKey = Some "undefined" /\
  load_auth Object_toString JSON_parse (reload h0 href p') =
    (Some e, reload h0 href p').
Proof.
  intros Hlogin Hmember Hstringify Hparse.
  destruct (login_resolved _ _ _ _ _ _ _ _ Hlogin)
    as (p1 & token & user & _ & Hu & Hs).
  destruct (setSession_ok _ _ _ _ _ _ Hs)
    as (_ & _ & Hheap & _ & (text & Htext & Huser) & _).
  rewrite Hheap in Hmember.
  assert (user = VUndefined) as -> by congruence.
  rewrite Hstringify in Htext. injection Htext as <-. simpl in Huser.
  split; [exact Huser|].
  unfold load_auth, new_Auth, getItem, reload. simpl.
  by rewrite Huser; simpl; rewrite Hparse.
Qed.

Lemma a_login_without_user_breaks_the_reload_witness :
  let r := login plain_toString mini_stringify (answer token_only_response)
                 (VString "ann@example.org") (VString "secret")
                 (new_page ∅) in
  isAuthenticated r.2 = true /\
  load_auth plain_toString mini_parse (reload [] "/" r.2) =
    (Some (SyntaxError "Unexpected token"), reload [] "/" r.2).
Proof.
  intros r. split; [reflexivity|].
  apply (a_login_without_user_breaks_the_reload plain_toString
           mini_stringify mini_parse (answer token_only_response)
           (VString "ann@example.org") (VString "secret") (VRef 4)
           (new_page ∅) r.2 (SyntaxError "Unexpected token") [] "/");
    reflexivity.
Defined.

(** ** What a request carries *)

Lemma own_get_None k ps : own_get k ps = None <-> k ∉ ps.*1.
Proof.
  induction ps as [|[k' v] ps IH]; simpl.
  - split; [intros _; apply not_elem_of_nil|done].
  - rewrite not_elem_of_cons. case_bool_decide as Hk.
    + split; [done|]. intros [Hne _]. by subst.
    + rewrite IH. split; [intros ?; split; [congruence|done]|by intros [_ ?]].
Qed.

Lemma own_get_rev k ps : NoDup ps.*1 -> own_get k (rev ps) = own_get k ps.
Proof.
  induction ps as [|[k' v] ps IH]; [done|].
  rewrite fmap_cons, NoDup_cons. intros [Hnotin Hnd].
  cbn [rev]. rewrite own_get_app, IH by done. simpl.
  case_bool_decide; [|by destruct (own_get k ps)].
  subst k'. simpl in Hnotin. by apply own_get_None in Hnotin as ->.
Qed.

Lemma own_replace_keys k v ps : (own_replace k v ps).*1 = ps.*1.
Proof.
  induction ps as [|[k' v'] ps IH]; [done|]. cbn [own_replace].
  case_bool_decide; rewrite !fmap_cons; cbn [fst]; [by subst|by rewrite IH].
Qed.

Lemma own_insert_index_keys n k v ps :
  (own_insert_index n k v ps).*1 ≡ₚ k :: ps.*1.
Proof.
  induction ps as [|[k' v'] ps IH]; [done|]. cbn [own_insert_index].
  destruct (array_index k'); [|done].
  case_bool_decide; [|done]. rewrite !fmap_cons. cbn [fst].
  rewrite IH. apply Permutation_swap.
Qed.

Lemma define_property_NoDup k v ps :
  NoDup ps.*1 -> NoDup (define_property k v ps).*1.
Proof.
  intros Hnd. unfold define_property.
  destruct (own_get k ps) eqn:Hget; [by rewrite own_replace_keys|].
  apply own_get_None in Hget.
  destruct (array_index k).
  - rewrite own_insert_index_keys. by apply NoDup_cons.
  - rewrite fmap_app. simpl. apply NoDup_app. split_and!; [done| |].
    + intros x Hx Hin. apply list_elem_of_singleton in Hin. by subst.
    + apply NoDup_singleton.
Qed.

Lemma own_get_copy k ps :
  NoDup ps.*1 ->
  own_get k (fold_left (fun qs kv => define_property kv.1 kv.2 qs) ps []) =
  own_get k ps.
Proof.
  intros Hnd.
  assert (Hgen : forall target,
    own_get k (fold_left (fun qs kv => define_property kv.1 kv.2 qs)
                         ps target) =
    match own_get k (rev ps) with
    | Some v => Some v
    | None => own_get k target
    end).
  { clear Hnd. induction ps as [|[k' v'] ps IH]; intros target; [done|].
    cbn [fold_left rev]. rewrite IH, own_get_app. simpl.
    destruct (own_get k (rev ps)); [done|].
    case_bool_decide as Hk.
    - subst k'. apply own_get_define_eq.
    - by apply own_get_define_ne. }
  rewrite Hgen, own_get_rev by done. by destruct (own_get k ps).
Qed.

Lemma request_catch_frame Object_toString e p :
  page_heap (request_catch Object_toString e p).2 = page_heap p /\
  fetched (request_catch Object_toString e p).2 = fetched p.
Proof.
  unfold request_catch. destruct (error_status _ e) as [e'|s]; [done|].
  destruct (strict_equal s _); [|done]. unfold dispatch_unauthorized. simpl.
  destruct (on_unauthorized_iter_frame Object_toString
              (unauthorized_listeners p) (record_event "unauthorized" p))
    as (-> & _ & _ & -> & _).
  done.
Qed.

(** X21.  What [request] hands to [fetch] is a new object with the
    properties of [options] and, as [headers], a new object holding the
    headers of [api] overridden by those of [options.headers]; the
    address is [baseUrl] followed by the endpoint.  So once a token is
    set, every request carries its [Authorization] header unless the
    caller overrides it. *)
Theorem a_request_carries_the_headers
    (Object_toString : list object -> loc -> string)
    (fetch : nat -> list object -> string -> value -> exn + response)
    (endpoint : string) (options : value) (p : Page) :
  nullish options = false ->
  NoDup (api_headers p).*1 ->
  (forall n h url init r,
     fetch n h url init = inr r ->
     forall h1 v h2, json_body r h1 = inr (v, h2) -> exists news, h2 = h1 ++ news) ->
  exists li ps lh hs extra,
    member (page_heap p) options "headers" = inr extra /\
    fetched (request Object_toString fetch endpoint options p).2 =
      fetched p ++ [(String.append baseUrl endpoint, VRef li)] /\
    page_heap (request Object_toString fetch endpoint options p).2 !! li =
      Some (OObject ps) /\
    own_get "headers" ps = Some (VRef lh) /\
    (forall k, k <> "headers" ->
       own_get k ps = entry k (own_enumerable (page_heap p) options)) /\
    page_heap (request Object_toString fetch endpoint options p).2 !! lh =
      Some (OObject hs) /\
    (forall k,
       own_get k hs =
       match entry k (own_enumerable (page_heap p) extra) with
       | Some v => Some v
       | None => own_get k (api_headers p)
       end).
Proof.
  intros Hoptions Hnd Hbody. unfold request.
  assert (Hor : or_empty_object options (page_heap p) =
                (options, page_heap p)) by by destruct options.
  rewrite Hor.
  pose proof (member_cases (page_heap p) options "headers") as Hm.
  destruct (member (page_heap p) options "headers") as [e|extra];
    [destruct Hm; congruence|].
  unfold alloc. cbv beta iota.
  set (hs := spread (page_heap p) extra _).
  set (ps := define_property "headers" _ _).
  set (h2 := (page_heap p ++ [OObject hs]) ++ [OObject ps]).
  set (li := List.length (page_heap p ++ [OObject hs])).
  set (p1 := record_fetch _ _ _).
  assert (Hgrow : forall q,
            (exists news, page_heap q = h2 ++ news) ->
            fetched q = fetched p1 ->
            exists li' ps' lh' hs' extra',
              @inr exn value extra = inr extra' /\
              fetched q =
                fetched p ++ [(String.append baseUrl endpoint, VRef li')] /\
              page_heap q !! li' = Some (OObject ps') /\
              own_get "headers" ps' = Some (VRef lh') /\
              (forall k, k <> "headers" ->
                 own_get k ps' =
                 entry k (own_enumerable (page_heap p) options)) /\
              page_heap q !! lh' = Some (OObject hs') /\
              (forall k,
                 own_get k hs' =
                 match entry k (own_enumerable (page_heap p) extra') with
                 | Some v => Some v
                 | None => own_get k (api_headers p)
                 end)).
  { intros q (news & Hq) Hf.
    exists li, ps, (List.length (page_heap p)), hs, extra.
    split_and!; try done.
    - rewrite Hq. apply lookup_app_l_Some. unfold h2, li.
      by apply list_lookup_middle.
    - apply own_get_define_eq.
    - intros k Hk. unfold ps. rewrite own_get_define_ne by done.
      rewrite spread_entry. by destruct (entry k _).
    - rewrite Hq. apply lookup_app_l_Some. unfold h2.
      apply lookup_app_l_Some. by apply list_lookup_middle.
    - intros k. unfold hs. rewrite spread_entry.
      by rewrite own_get_copy. }
  destruct (fetch _ h2 _ (VRef li)) as [e|r] eqn:Hfetch; cbv beta iota.
  { destruct (request_catch_frame Object_toString e p1) as (Hh & Hf).
    apply Hgrow; [|done]. exists []. by rewrite Hh, app_nil_r. }
  unfold handleResponse, alloc. cbn [page_heap p1 record_fetch with_page_heap].
  destruct (json_body r h2) as [e|[data h3]] eqn:Hjson; cbv beta iota.
  { destruct (request_catch_frame Object_toString e (with_page_heap h2 p1))
      as (Hh & Hf).
    apply Hgrow; [|done]. exists []. by rewrite Hh, app_nil_r. }
  destruct (Hbody _ _ _ _ _ Hfetch _ _ _ Hjson) as (news & ->).
  destruct (ok r); cbv beta iota.
  { apply Hgrow; [|done]. by exists news. }
  destruct (member _ data "message") as [e|m]; cbv beta iota.
  { destruct (request_catch_frame Object_toString e
                (with_page_heap (h2 ++ news) p1)) as (Hh & Hf).
    apply Hgrow; [|done]. exists news. by rewrite Hh. }
  destruct (member _ data "errors") as [e|errors]; cbv beta iota.
  { destruct (request_catch_frame Object_toString e
                (with_page_heap (h2 ++ news) p1)) as (Hh & Hf).
    apply Hgrow; [|done]. exists news. by rewrite Hh. }
  match goal with
  | |- context [request_catch _ ?e (with_page_heap ?h p1)] =>
      destruct (request_catch_frame Object_toString e (with_page_heap h p1))
        as (Hh & Hf);
      apply Hgrow; [|done]; rewrite Hh; simpl;
      rewrite <- app_assoc; by eexists
  end.
Qed.

Lemma a_request_carries_the_headers_witness :
  let p :=
    with_page_heap
      (page_heap signed_in ++ [OObject [("method", VString "GET")]])
      signed_in in
  let p' :=
    (request plain_toString (answer accepted_response) "/orders" (VRef 1)
             p).2 in
  exists li ps lh hs,
    fetched p' = [("/api/v1/orders", VRef li)] /\
    page_heap p' !! li = Some (OObject ps) /\
    own_get "method" ps = Some (VString "GET") /\
    own_get "headers" ps = Some (VRef lh) /\
    page_heap p' !! lh = Some (OObject hs) /\
    own_get "Authorization" hs = Some (VString "Bearer t0k3n").
Proof.
  intros p p'.
  destruct (a_request_carries_the_headers plain_toString
              (answer accepted_response) "/orders" (VRef 1) p)
    as (li & ps & lh & hs & extra & Hm & Hf & Hli & Hh & Hps & Hlh & Hhs).
  - reflexivity.
  - apply (bool_decide_unpack _). vm_compute. exact I.
  - intros n h url init r Hr h1 v h2 Hj.
    injection Hr as <-. injection Hj as _ <-. by eexists.
  - injection Hm as <-.
    exists li, ps, lh, hs. split_and!; try done.
    by rewrite Hps.
Defined.

(** * Properties of [isValidEmail] *)

Lemma one_or_more_split class rest s :
  one_or_more class rest s = true <->
  exists u v,
    s = String.append u v /\
    u <> EmptyString /\ all_in class u = true /\ rest v = true.
Proof.
  split.
  - induction s as [|c s IH]; [done|]. simpl.
    intros [Hc Hrest]%andb_prop.
    apply orb_prop in Hrest as [Hmore|Hrest].
    + destruct (IH Hmore) as (u & v & -> & _ & Hu & Hv).
      exists (String c u), v. simpl. rewrite Hc, Hu. by split_and!.
    + exists (String c EmptyString), s. simpl. rewrite Hc. by split_and!.
  - intros (u & v & -> & Hne & Hu & Hv). revert Hne Hu.
    induction u as [|c u IH]; [done|]. intros _. simpl.
    intros [Hc Hu]%andb_prop. rewrite Hc. simpl.
    destruct u as [|c' u]; simpl in *.
    + change (String.append EmptyString v) with v.
      rewrite Hv. apply orb_true_r.
    + rewrite IH; [done|done|exact Hu].
Qed.

Lemma test_one x re s :
  test (One (is_char x) :: re) s = true <->
  exists s', s = String x s' /\ test re s' = true.
Proof.
  simpl. destruct s as [|c s]; [split; [done|by intros (? & ? & _)]|].
  unfold is_char. case_bool_decide as Hc; simpl.
  - subst c. split; [by exists s|]. by intros (s' & [= <-] & Ht).
  - split; [done|]. intros (s' & [= ? _] & _). by subst.
Qed.

Lemma test_more class re s :
  test (OneOrMore class :: re) s = one_or_more class (test re) s.
Proof. done. Qed.

Lemma append_empty t : String.append t EmptyString = t.
Proof.
  induction t as [|c t IH]; [done|].
  change (String.append (String c t) EmptyString)
    with (String c (String.append t EmptyString)).
  by rewrite IH.
Qed.

Lemma test_email_re s :
  test email_re s = true <->
  exists name domain tld,
    s = String.append name
          (String "@" (String.append domain (String "." tld))) /\
    email_part name /\ email_part domain /\ email_part tld.
Proof.
  unfold email_re, email_part.
  rewrite test_more, one_or_more_split. split.
  - intros (name & v & -> & Hne & Hname & Hv).
    apply (test_one "@"%char) in Hv as (w & -> & Hw).
    rewrite test_more in Hw. apply one_or_more_split in Hw
      as (domain & x & -> & Hne2 & Hdomain & Hx).
    apply (test_one "."%char) in Hx as (y & -> & Hy).
    rewrite test_more in Hy. apply one_or_more_split in Hy
      as (tld & z & -> & Hne3 & Htld & Hz).
    apply bool_decide_eq_true in Hz as ->.
    exists name, domain, tld. by rewrite append_empty.
  - intros (name & domain & tld & -> & [Hne Hname] & [Hne2 Hdomain]
            & [Hne3 Htld]).
    exists name, (String "@" (String.append domain (String "." tld))).
    split_and!; try done.
    apply (test_one "@"%char). eexists. split; [done|].
    rewrite test_more. apply one_or_more_split.
    exists domain, (String "." tld). split_and!; try done.
    apply (test_one "."%char). eexists. split; [done|].
    rewrite test_more. apply one_or_more_split.
    exists tld, EmptyString. rewrite append_empty. by split_and!.
Qed.

Lemma lower_class c :
  not_space_or_at (lower c) = not_space_or_at c /\
  is_char "@"%char (lower c) = is_char "@"%char c /\
  is_char "."%char (lower c) = is_char "."%char c.
Proof. by destruct c as [[] [] [] [] [] [] [] []]; vm_compute. Qed.

Lemma one_or_more_lower class rest1 rest2 s :
  (forall c, class (lower c) = class c) ->
  (forall v, rest1 (toLowerCase v) = rest2 v) ->
  one_or_more class rest1 (toLowerCase s) = one_or_more class rest2 s.
Proof.
  intros Hclass Hrest. induction s as [|c s IH]; [done|]. simpl.
  by rewrite Hclass, IH, Hrest.
Qed.

Lemma test_lower s : test email_re (toLowerCase s) = test email_re s.
Proof.
  assert (Hone : forall x re,
            (forall c, is_char x (lower c) = is_char x c) ->
            (forall v, test re (toLowerCase v) = test re v) ->
            forall v, test (One (is_char x) :: re) (toLowerCase v) =
                      test (One (is_char x) :: re) v).
  { intros x re Hx Hre [|c v]; [done|]. simpl. by rewrite Hx, Hre. }
  assert (Hmore : forall re,
            (forall v, test re (toLowerCase v) = test re v) ->
            forall v,
              test (OneOrMore not_space_or_at :: re) (toLowerCase v) =
              test (OneOrMore not_space_or_at :: re) v).
  { intros re Hre v. rewrite !test_more.
    apply one_or_more_lower; [apply lower_class|done]. }
  unfold email_re. revert s.
  apply Hmore, Hone; [apply lower_class|].
  apply Hmore, Hone; [apply lower_class|].
  apply Hmore. by intros [|c v].
Qed.

(** X22.  [isValidEmail] accepts a string exactly when it is a name, an
    [@], a domain, a dot and an ending, where each of the three parts is
    non-empty and holds neither white space nor [@]; the parts may hold
    any other character, dots included, and the case of the letters
    plays no role. *)
Theorem isValidEmail_shape
    (Object_toString : list object -> loc -> string) (h : list object)
    (s : string) :
  isValidEmail Object_toString h (VString s) = true <->
  exists name domain tld,
    s = String.append name
          (String "@" (String.append domain (String "." tld))) /\
    email_part name /\ email_part domain /\ email_part tld.
Proof.
  unfold isValidEmail. cbn [to_string to_property_key].
  rewrite test_lower. apply test_email_re.
Qed.

(** * Properties of [debounce] and [throttle] *)

Lemma debounce_step_armed wait id t args call :
  t <= call.1 ->
  call.1 < t + wait ->
  debounce_step wait (armed wait id t args) call =
  armed wait (S id) call.1 call.2.
Proof.
  intros Hle Hlt. unfold debounce_step, armed. simpl.
  rewrite bool_decide_eq_false_2 by lia. simpl.
  unfold debounced, clearTimeout, setTimeout. simpl.
  rewrite filter_cons, decide_False by (simpl; auto). rewrite filter_nil.
  simpl. by replace (t `max` call.1) with call.1 by lia.
Qed.

Lemma last_default {A} (x : A) (xs : list A) (d d' : A) :
  List.last (x :: xs) d = List.last (x :: xs) d'.
Proof.
  revert x. induction xs as [|y xs IH]; intros x; [done|].
  change (List.last (y :: xs) d = List.last (y :: xs) d'). apply IH.
Qed.

Lemma debounce_burst_armed wait id t args calls :
  burst wait t calls ->
  exists id',
    fold_left (debounce_step wait) calls (armed wait id t args) =
    armed wait id' (List.last calls (t, args)).1
          (List.last calls (t, args)).2.
Proof.
  revert id t args. induction calls as [|call calls IH]; intros id t args.
  - intros _. by exists id.
  - intros (Hle & Hlt & Hburst). cbn [fold_left].
    rewrite debounce_step_armed by done.
    destruct (IH (S id) call.1 call.2 Hburst) as (id' & ->).
    exists id'. destruct call as [t' args']. cbn [fst snd].
    destruct calls as [|call calls]; [done|].
    change (List.last ((t', args') :: call :: calls) (t, args))
      with (List.last (call :: calls) (t, args)).
    by rewrite (last_default call calls (t', args') (t, args)).
Qed.

(** X23.  Of a burst of calls of a debounced function, each sooner than
    [wait] after the one before, only the last one reaches [func]:
    [func] is called once, [wait] milliseconds after the last call and
    with the arguments of that call, and not at all before. *)
Theorem debounce_runs_the_last_call_of_a_burst (wait t until : nat)
    (args : list value) (calls : list (nat * list value)) :
  burst wait t calls ->
  debounce_run wait ((t, args) :: calls) until =
  if bool_decide ((List.last calls (t, args)).1 + wait <= until)
  then [((List.last calls (t, args)).1 + wait,
         (List.last calls (t, args)).2)]
  else [].
Proof.
  intros Hburst. unfold debounce_run. cbn [fold_left].
  assert (Hfirst : debounce_step wait (new_debounced 0) (t, args) =
                   armed wait 1 t args) by done.
  rewrite Hfirst.
  destruct (debounce_burst_armed wait 1 t args calls Hburst) as (id & ->).
  destruct (List.last calls (t, args)) as [tl al]. unfold armed. simpl.
  case_bool_decide; simpl; [|done].
  by replace (tl `max` (tl + wait)) with (tl + wait) by lia.
Qed.

Lemma debounce_runs_the_last_call_of_a_burst_witness :
  debounce_run 300
    [(0, [VString "c"]); (100, [VString "co"]); (350, [VString "col"])]
    1000 =
  [(650, [VString "col"])].
Proof.
  apply (debounce_runs_the_last_call_of_a_burst 300 0 1000 [VString "c"]
           [(100, [VString "co"]); (350, [VString "col"])]).
  simpl. lia.
Defined.

Lemma throttle_step_throttling func limit t now' args e :
  leaves_waiting (t + limit) e ->
  exists now'',
    throttle_step func limit (throttling limit t now' args) e =
    throttling limit t now'' args.
Proof.
  intros Hbefore. destruct e as [u args'|u]; simpl in Hbefore.
  - by exists u.
  - exists (now' `max` u). unfold throttle_step, throttling. simpl.
    by rewrite bool_decide_eq_false_2 by lia.
Qed.

Lemma throttle_within func limit t now' args events :
  Forall (leaves_waiting (t + limit)) events ->
  exists now'',
    fold_left (throttle_step func limit) events
              (throttling limit t now' args) =
    throttling limit t now'' args.
Proof.
  intros Hevents. revert now'.
  induction Hevents as [|e events He _ IH]; intros now'.
  - by exists now'.
  - cbn [fold_left].
    destruct (throttle_step_throttling func limit t now' args e He)
      as (now1 & ->).
    apply IH.
Qed.

(** X24.  A throttled function lets the first call through at once and
    drops every call that comes before its timer has run, which is no
    sooner than [limit] after that call: those calls are lost, not
    delayed.  Once the timer has run, the next call goes through
    again. *)
Theorem throttle_drops_the_calls_within_the_limit
    (func : list value -> option exn) (limit t t' t'' : nat)
    (args args' : list value) (events : list event) :
  func args = None ->
  Forall (leaves_waiting (t + limit)) events ->
  t + limit <= t'' ->
  throttle_run func limit (Called t args :: events) = [(t, args)] /\
  throttle_run func limit
    (Called t args :: events ++ [TimersRun t''; Called t' args']) =
    [(t, args); (t', args')].
Proof.
  intros Hfunc Hevents Hlater. unfold throttle_run. cbn [fold_left].
  assert (Hfirst : throttle_step func limit (new_throttled 0)
                     (Called t args) =
                   throttling limit t t args).
  { unfold throttle_step, throttled. simpl. by rewrite Hfunc. }
  rewrite Hfirst, fold_left_app.
  destruct (throttle_within func limit t t args events Hevents)
    as (now'' & ->).
  split; [done|]. cbn [fold_left].
  unfold throttle_step, throttling, throttled. simpl.
  rewrite bool_decide_eq_true_2 by lia. simpl.
  by destruct (func args').
Qed.

Lemma throttle_drops_the_calls_within_the_limit_witness :
  throttle_run (fun _ => None) 300
    [Called 0 [VNumber 1]; Called 0 [VNumber 2]; TimersRun 100;
     Called 250 [VNumber 3]; Called 320 [VNumber 4]] =
    [(0, [VNumber 1])] /\
  throttle_run (fun _ => None) 300
    [Called 0 [VNumber 1]; Called 0 [VNumber 2]; TimersRun 100;
     Called 250 [VNumber 3]; Called 320 [VNumber 4];
     TimersRun 330; Called 330 [VNumber 5]] =
    [(0, [VNumber 1]); (330, [VNumber 5])].
Proof.
  apply (throttle_drops_the_calls_within_the_limit (fun _ => None) 300 0
           330 330 [VNumber 1] [VNumber 5]
           [Called 0 [VNumber 2]; TimersRun 100;
            Called 250 [VNumber 3]; Called 320 [VNumber 4]]).
  - reflexivity.
  - repeat (apply Forall_cons; split; [simpl; try exact I; lia|]).
    apply Forall_nil_2.
  - lia.
Defined.

(** X25.  A call on which [func] throws does not start the throttle:
    the exception reaches the caller before [inThrottle] is set, so the
    next call goes through however soon it comes. *)
Theorem a_throwing_call_does_not_throttle
    (func : list value -> option exn) (limit t t' : nat)
    (args args' : list value) (e : exn) :
  func args = Some e ->
  (throttled func limit args (new_throttled t)).1 = Some e /\
  throttle_run func limit [Called t args; Called t' args'] =
    [(t, args); (t', args')].
Proof.
  intros Hfunc. unfold throttle_run, throttle_step, throttled. simpl.
  rewrite Hfunc. simpl. split; [done|].
  by destruct (func args').
Qed.

Lemma a_throwing_call_does_not_throttle_witness :
  throttle_run (fun _ => Some (TypeError "boom")) 300
    [Called 0 [VNumber 1]; Called 1 [VNumber 2]] =
  [(0, [VNumber 1]); (1, [VNumber 2])].
Proof.
  apply (a_throwing_call_does_not_throttle
           (fun _ => Some (TypeError "boom")) 300 0 1
           [VNumber 1] [VNumber 2] (TypeError "boom")).
  reflexivity.
Defined.

(** * The session as a whole *)

Lemma logged_out_in_sync p : logged_out p -> in_sync p.
Proof.
  intros (Ht & _ & Hh & _). unfold in_sync, isAuthenticated.
  rewrite Ht, Hh. simpl. split; [by intros [? ?]|done].
Qed.

Section SyncFacts.

Variable Object_toString : list object -> loc -> string.
Variable JSON_stringify : list object -> held -> exn + option string.
Variable fetch : nat -> list object -> string -> value -> exn + response.

Lemma request_catch_sync e p :
  in_sync p -> in_sync (request_catch Object_toString e p).2.
Proof.
  intros Hp. unfold request_catch.
  destruct (error_status _ e) as [e'|s]; [done|].
  destruct (strict_equal s _); [|done]. unfold dispatch_unauthorized. simpl.
  destruct (unauthorized_listeners p) as [|n]; [done|].
  apply logged_out_in_sync.
  by apply (on_unauthorized_iter Object_toString (S n)); [lia].
Qed.

Lemma request_sync endpoint options p :
  in_sync p -> in_sync (request Object_toString fetch endpoint options p).2.
Proof.
  intros Hp. unfold request.
  destruct (or_empty_object options (page_heap p)) as [options' h0].
  destruct (member h0 options' "headers") as [e|extra];
    [by apply request_catch_sync|].
  unfold alloc. cbv beta iota.
  destruct (fetch _ _ _ _) as [e|r]; [by apply request_catch_sync|].
  destruct (handleResponse r _) as [[e h3]|[data h3]];
    [by apply request_catch_sync|done].
Qed.

Lemma send_sync method endpoint data p :
  in_sync p ->
  in_sync (send Object_toString JSON_stringify fetch method endpoint data p).2.
Proof.
  intros Hp. unfold send.
  destruct (or_empty_object data (page_heap p)) as [data' h0].
  destruct (JSON_stringify h0 data') as [e|body]; [done|].
  unfold alloc. cbv beta iota. by apply request_sync.
Qed.

Lemma session_or_clear_sync r :
  in_sync (session_or_clear Object_toString JSON_stringify r).2.
Proof.
  destruct (session_or_clear _ _ r) as [[e|response] p'] eqn:Hr.
  - apply logged_out_in_sync. by eapply session_or_clear_failed.
  - unfold session_or_clear in Hr. destruct r as [[error|response'] p1];
      [done|].
    unfold session_of_response in Hr.
    destruct (member _ response' "token") as [e|token]; [done|].
    destruct (member _ response' "user") as [e|user]; [done|].
    destruct (setSession _ _ token user p1) as [[error|] p2] eqn:Hs;
      [done|].
    simplify_eq.
    destruct (setSession_ok _ _ _ _ _ _ Hs)
      as (Htoken & _ & _ & _ & _ & Hheader).
    unfold in_sync, isAuthenticated. simpl. rewrite Hheader, Htoken.
    destruct (to_boolean token); [done|]. split; [by intros [? ?]|done].
Qed.

Lemma run_session_sync p o :
  in_sync p ->
  in_sync (run_session Object_toString JSON_stringify fetch p o).
Proof.
  intros Hp. destruct o; simpl.
  - by apply request_sync.
  - by apply send_sync.
  - by apply send_sync.
  - unfold login, alloc. apply session_or_clear_sync.
  - apply logged_out_in_sync. unfold logout.
    destruct (post _ _ _ "/auth/logout" VUndefined p) as [r p1].
    apply clearSession_logged_out.
  - apply session_or_clear_sync.
  - apply logged_out_in_sync, clearSession_logged_out.
  - done.
Qed.

End SyncFacts.

Lemma load_auth_sync Object_toString JSON_parse h href p p0 :
  load_auth Object_toString JSON_parse (reload h href p) = (None, p0) ->
  in_sync p0.
Proof.
  unfold load_auth, new_Auth.
  destruct (JSON_parse _ _) as [e|[user h']]; [done|].
  intros Heq. simplify_eq.
  unfold in_sync, isAuthenticated, initEventListeners,
    add_unauthorized_listener.
  cbn [auth_token api_headers].
  destruct (to_boolean (getItem tokenKey (reload h href p))) eqn:Ht.
  - unfold setToken.
    cbn [auth_token with_auth with_page_heap with_api_headers api_headers].
    rewrite Ht.
    cbn [auth_token with_auth with_page_heap with_api_headers api_headers].
    by rewrite own_get_define_eq, Ht.
  - cbn [auth_token with_auth with_page_heap api_headers reload].
    rewrite Ht. split; [by intros [? ?]|done].
Qed.

(** X26.  [api] and [auth] never disagree: on a page where the module of
    [auth] has loaded, after any sequence of requests, logins, logouts,
    refreshes and cleared sessions, whatever the server answers,
    there is an [Authorization] header exactly when [isAuthenticated()]
    is true.  ([register] and [updateProfile] are left out: a
    [JSON.stringify] that throws in [setSession] would leave the new
    token without its header.) *)
Theorem api_and_auth_stay_in_sync
    (Object_toString : list object -> loc -> string)
    (JSON_stringify : list object -> held -> exn + option string)
    (JSON_parse : string -> list object -> exn + value * list object)
    (fetch : nat -> list object -> string -> value -> exn + response)
    (h : list object) (href : string) (p p0 : Page)
    (os : list session_operation) :
  load_auth Object_toString JSON_parse (reload h href p) = (None, p0) ->
  in_sync (fold_left (run_session Object_toString JSON_stringify fetch)
                     os p0).
Proof.
  intros Hload. apply load_auth_sync in Hload. revert p0 Hload.
  induction os as [|o os IH]; intros p0 Hp0; [done|].
  cbn [fold_left]. by apply IH, run_session_sync.
Qed.

Lemma api_and_auth_stay_in_sync_witness :
  let p0 := (load_auth plain_toString mini_parse (reload [] "/" signed_in)).2
  in
  let p1 :=
    fold_left
      (run_session plain_toString mini_stringify
         (answer unauthorized_response))
      [Request "/orders" VUndefined; Login (VString "a") (VString "b")] p0
  in
  isAuthenticated p0 = true /\ isAuthenticated p1 = false /\ in_sync p1.
Proof.
  intros p0 p1. split; [reflexivity|]. split; [reflexivity|].
  apply (api_and_auth_stay_in_sync plain_toString mini_stringify mini_parse
           (answer unauthorized_response) [] "/" signed_in p0).
  reflexivity.
Defined.

(** * The order of the listeners *)

Lemma subscribe_state_get k k' c w :
  state_get k' (subscribe k c w).2 = state_get k' w.
Proof. done. Qed.

Lemma subscribe_all_listeners k cs w :
  NoDup cs ->
  Forall (fun c => Set_has c (default [] (listeners w !! k)) = false) cs ->
  default [] (listeners (subscribe_all k cs w) !! k) =
    default [] (listeners w !! k) ++ cs /\
  state_get k (subscribe_all k cs w) = state_get k w.
Proof.
  revert w. induction cs as [|c cs IH]; intros w Hnd Hfresh.
  - unfold subscribe_all. simpl. by rewrite app_nil_r.
  - apply NoDup_cons in Hnd as [Hc Hnd].
    apply Forall_cons in Hfresh as [Hcfresh Hfresh].
    change (subscribe_all k (c :: cs) w)
      with (subscribe_all k cs (subscribe k c w).2).
    assert (Hl : default [] (listeners (subscribe k c w).2 !! k) =
                 default [] (listeners w !! k) ++ [c]).
    { rewrite subscribe_listeners, lookup_insert_eq. simpl.
      unfold Set_add. by rewrite Hcfresh. }
    destruct (IH (subscribe k c w).2 Hnd) as (-> & ->).
    + apply Forall_forall. intros c' Hc'. rewrite Hl.
      rewrite Forall_forall in Hfresh. specialize (Hfresh c' Hc').
      unfold Set_has in *. rewrite existsb_app.
      apply orb_false_intro; [exact Hfresh|]. simpl.
      rewrite orb_false_r. apply Nat.eqb_neq. by intros ->.
    + by rewrite Hl, <- app_assoc.
Qed.

(** X27.  Listeners run in the order in which they subscribed: after
    new callbacks have subscribed to a key one after the other, a write
    that changes the key invokes the listeners that were there before,
    in their order, and then the new ones in the order of their
    subscriptions, each once. *)
Theorem listeners_run_in_subscription_order (k : string)
    (cs : list callback) (v : value) (w : World) :
  NoDup cs ->
  Forall (fun c => Set_has c (default [] (listeners w !! k)) = false) cs ->
  strict_equal (state_get k w) v = false ->
  exists w',
    set (VString k) v (subscribe_all k cs w) = Ok w' /\
    new_calls (subscribe_all k cs w) w' =
      invocations v (state_get k w) (default [] (listeners w !! k) ++ cs).
Proof.
  intros Hnd Hfresh Hchange.
  destruct (subscribe_all_listeners k cs w Hnd Hfresh) as (Hl & Hget).
  eexists. split; [apply set_string|].
  apply new_calls_app. rewrite setState_calls, Hget, Hchange.
  by rewrite Hl.
Qed.

Lemma listeners_run_in_subscription_order_witness :
  let w := (subscribe "loading" 7 (fresh_store example_code)).2 in
  exists w',
    set (VString "loading") (VBool true) (subscribe_all "loading" [3; 5] w) =
      Ok w' /\
    new_calls (subscribe_all "loading" [3; 5] w) w' =
      [Call 7 (VBool true) (VBool false);
       Call 3 (VBool true) (VBool false);
       Call 5 (VBool true) (VBool false)].
Proof.
  intros w.
  apply (listeners_run_in_subscription_order "loading" [3; 5] (VBool true) w).
  - apply (bool_decide_unpack _). vm_compute. exact I.
  - repeat (apply Forall_cons; split; [reflexivity|]). apply Forall_nil_2.
  - reflexivity.
Defined.

(** * Loading an object back *)

(** X28.  [JSON.parse] builds a new object, and a new object is never
    identical to the value a key holds: [loadPersisted(k)] of a stored
    object or array always invokes the listeners of [k], also when the
    stored text is the very content the key has. *)
Theorem loading_an_object_always_notifies
    (JSON_parse : string -> list object -> exn + value * list object)
    (k text : string) (w : World) (old : value) (l : loc)
    (h' : list object) :
  localStorage w !! k = Some text ->
  text <> EmptyString ->
  JSON_parse text (heap w) = inr (VRef l, h') ->
  List.length (heap w) <= l ->
  own_get k (state w) = Some old ->
  ref_ok (heap w) old ->
  exists w',
    loadPersisted JSON_parse k w = (VRef l, w') /\
    new_calls w w' =
      invocations (VRef l) old (default [] (listeners w !! k)).
Proof.
  intros Hstored Htext Hparse Hnew Hown Hold. unfold loadPersisted.
  rewrite Hstored.
  assert (Htruthy : to_boolean (VString text) = true)
    by (by destruct text).
  rewrite Htruthy, Hparse, set_string.
  eexists. split; [reflexivity|].
  apply new_calls_app. rewrite setState_calls.
  assert (Hget : state_get k (with_heap h' w) = old).
  { unfold state_get, prop_get. simpl. by rewrite Hown. }
  rewrite Hget.
  assert (Hdiffer : strict_equal old (VRef l) = false).
  { destruct old; try done. simpl in *.
    apply bool_decide_eq_false_2. lia. }
  by rewrite Hdiffer.
Qed.

Lemma loading_an_object_always_notifies_witness :
  let w0 := (subscribe "items" 1 (items_store [VNumber 1; VNumber 2])).2 in
  let w := persist mini_stringify "items" w0 in
  exists w',
    loadPersisted mini_parse "items" w = (VRef 5, w') /\
    heap w' !! 3 = heap w' !! 5 /\
    new_calls w w' = [Call 1 (VRef 5) (VRef 3)].
Proof.
  intros w0 w.
  destruct (loading_an_object_always_notifies mini_parse "items"
              (String.append "[" (String.append "1,2" "]")) w (VRef 3) 5
              (heap w ++ [OArray [VNumber 1; VNumber 2]]))
    as (w' & Hload & Hcalls); try reflexivity.
  - discriminate.
  - vm_compute. lia.
  - exists w'. split; [exact Hload|]. split; [|exact Hcalls].
    injection Hload as <-. reflexivity.
Defined.

(** * Keys the state inherits *)

Lemma Object_prototype_method_get k :
  k ∈ Object_prototype_methods ->
  Object_prototype_get k = Some (Object_prototype_method k) /\
  k <> "__proto__" /\ k <> EmptyString.
Proof.
  unfold Object_prototype_methods. intros Hk.
  repeat (apply elem_of_cons in Hk as [->|Hk]; [by split_and!|]).
  by apply elem_of_nil in Hk.
Qed.

(** X29.  The state object inherits from [Object.prototype]: for a
    key that names one of its methods and that the state does not hold
    itself, [get] returns the built-in function, and a [set] of this key
    to [undefined] is a change, which invokes the listeners of the key
    with the function as the old value and leaves an own property
    behind, so that [get] then returns [undefined]. *)
Theorem inherited_methods_are_read_as_functions (k : string) (w : World) :
  state_proto w = VObjectPrototype ->
  own_get k (state w) = None ->
  k ∈ Object_prototype_methods ->
  get (Some k) w = Value (Builtin (Object_prototype_method k)) /\
  exists w',
    set (VString k) VUndefined w = Ok w' /\
    new_calls w w' =
      invocations VUndefined (Builtin (Object_prototype_method k))
                  (default [] (listeners w !! k)) /\
    has_key k w' /\
    get (Some k) w' = Value VUndefined.
Proof.
  intros Hproto Hown Hk.
  destruct (Object_prototype_method_get k Hk) as (Hmethod & Hne & Hnonempty).
  assert (Hget : state_get k w = Builtin (Object_prototype_method k)).
  { unfold state_get, prop_get, builtin_get. rewrite Hown, Hproto. simpl.
    by rewrite Hmethod. }
  assert (Htruthy : to_boolean (VString k) = true)
    by (simpl; by rewrite bool_decide_eq_false_2).
  split; [unfold get; by rewrite Htruthy, Hget|].
  exists (setState (VString k) VUndefined w).
  assert (Hread : state_get k (setState (VString k) VUndefined w) = VUndefined)
    by (by rewrite state_get_setState, state_get_state_set).
  split_and!.
  - done.
  - apply new_calls_app. by rewrite setState_calls, Hget.
  - unfold has_key.
    destruct (setState_store k VUndefined w) as (-> & _).
    unfold state_set, prop_set. rewrite Hown.
    rewrite (bool_decide_eq_false_2 (k = "__proto__")) by done. simpl.
    rewrite own_get_define_eq. eauto.
  - unfold get. by rewrite Htruthy, Hread.
Qed.

Lemma inherited_methods_are_read_as_functions_witness :
  let w := (subscribe "toString" 1 example_store).2 in
  get (Some "toString") w =
    Value (Builtin (Object_prototype_method "toString")) /\
  exists w',
    set (VString "toString") VUndefined w = Ok w' /\
    new_calls w w' =
      [Call 1 VUndefined (Builtin (Object_prototype_method "toString"))] /\
    get (Some "toString") w' = Value VUndefined.
Proof.
  intros w.
  destruct (inherited_methods_are_read_as_functions "toString" w)
    as (Hget & w' & Hset & Hcalls & _ & Hafter).
  - reflexivity.
  - reflexivity.
  - unfold Object_prototype_methods. set_solver.
  - split; [exact Hget|]. by exists w'.
Defined.
